(** * goracler: a padding-oracle attack library, embedded in Rocq

    The development follows the two packages of the repository:

    - [crypto] (crypto/crypto.go): PKCS5 padding, block XOR and the CBC
      reference encryptor and decryptor the tests build their oracle from;
    - [goracler]: the pad-candidate builder [buildPad], the worker
      [checkValuePad], the byte-recovery engine [decryptBlock] and the two
      drivers [Decrypt] and [Encrypt].

    Conventions.  A Go [byte] is a [Z] in [0, 256); the conversion [byte(x)]
    is written out as [x mod 256].  A [[]byte] and a Go [string] of bytes
    are both a [list Z]; the hexadecimal strings are [string]s.  A Go
    multi-value return [(v, err)] is a pair whose second component is an
    [option error] ([None] is [nil]).  Indexing is the total lookup
    [l !!! i]; every place where Go would panic on an index out of range is
    marked at the definition, and the theorems are stated for arguments for
    which these places are not reached.

    Concurrency.  The goroutines of one byte position are a transition
    system, [checkValuePad_step], on the state they share; an execution is
    a list of scheduling decisions followed by [wg.Wait()], and a property
    of the engine is a property under every such list.  The oracle is a
    function of its query.  The logger only prints and is left out. *)

From Stdlib Require Import Ascii.
From stdpp Require Import numbers list strings.

Open Scope Z_scope.

(** ** Bytes and blocks *)

(** The conversion [byte(x)] of an integer. *)
Definition byte (x : Z) : Z := x mod 256.

Definition is_byte (x : Z) : Prop := 0 ≤ x < 256.

(** [var CipherBlockLen = 16] and [var MaxGoroutines = 20]. *)
Definition CipherBlockLen : nat := 16.
Definition MaxGoroutines : nat := 20.

Definition is_block (b : list Z) : Prop :=
  length b = CipherBlockLen ∧ Forall is_byte b.

(** The slice expression [s[lo:hi]] (Go panics when [hi] exceeds the
    capacity or [lo > hi]). *)
Definition slice (s : list Z) (lo hi : nat) : list Z :=
  take (hi - lo) (drop lo s).

(** [make([]byte, n)]. *)
Definition make (n : nat) : list Z := replicate n 0.

(** ** Errors *)

(** The error values that occur in the two packages, those of the standard
    library functions they call, and the errors an oracle may return. *)
Inductive error : Set :=
| ErrInvalidCiphertext          (* goracler.ErrInvalidCiphertext *)
| ErrInvalidPad                 (* crypto.ErrInvalidPad *)
| ErrNoByteFound                (* errors.New("no byte found after a valid attempt") *)
| ErrHexLength                  (* hex.ErrLength *)
| ErrHexInvalidByte (c : ascii) (* hex.InvalidByteError *)
| ErrKeySize (n : nat)          (* aes.KeySizeError *)
| ErrTransport (code : nat).    (* any other error of an oracle *)

#[global] Instance error_eq_dec : EqDecision error.
Proof. solve_decision. Defined.

(** ** encoding/hex *)

(** The two functions of the standard library's [encoding/hex] that the
    package uses. *)
Module hex.

#[global] Instance ascii_inhabited : Inhabited ascii := populate "0"%char.

Definition hextable : list ascii := String.list_ascii_of_string "0123456789abcdef".

Fixpoint EncodeToString (src : list Z) : string :=
  match src with
  | [] => EmptyString
  | v :: src' =>
      String (hextable !!! Z.to_nat (v / 16))
        (String (hextable !!! Z.to_nat (v mod 16)) (EncodeToString src'))
  end.

(** [fromHexChar]. *)
Definition fromHexChar (c : ascii) : option Z :=
  let n := Z.of_N (N_of_ascii c) in
  if decide (48 ≤ n ≤ 57) then Some (n - 48)
  else if decide (97 ≤ n ≤ 102) then Some (n - 97 + 10)
  else if decide (65 ≤ n ≤ 70) then Some (n - 65 + 10)
  else None.

(** [DecodeString]: pairs of hexadecimal digits; an odd length gives
    [ErrLength], a character that is no digit [InvalidByteError]. *)
Fixpoint DecodeString (s : string) : list Z * option error :=
  match s with
  | EmptyString => ([], None)
  | String a EmptyString =>
      match fromHexChar a with
      | Some _ => ([], Some ErrHexLength)
      | None => ([], Some (ErrHexInvalidByte a))
      end
  | String a (String b s') =>
      match fromHexChar a, fromHexChar b with
      | Some x, Some y =>
          let '(rest, e) := DecodeString s' in ((x * 16 + y) :: rest, e)
      | None, _ => ([], Some (ErrHexInvalidByte a))
      | _, None => ([], Some (ErrHexInvalidByte b))
      end
  end.

End hex.

(** ** The block cipher *)

(** [crypto/aes] is not part of the repository.  The development is
    parametric in the block cipher: [NewCipher k] is the error of
    [aes.NewCipher(k)], and [BlockEncrypt k] and [BlockDecrypt k] are the
    [Encrypt] and [Decrypt] methods of the [cipher.Block] it returns. *)
Record BlockCipher : Type := {
  NewCipher : list Z → option error;
  BlockEncrypt : list Z → list Z → list Z;
  BlockDecrypt : list Z → list Z → list Z
}.

(** ** Package crypto *)

Module crypto.


(** [BlockXOR]: [res[i] = block[i] ^ key[i%len(key)]].  With an empty key
    and a non-empty block Go panics on the division. *)
Definition BlockXOR (block key : list Z) : list Z :=
  imap (λ i b, Z.lxor b (key !!! (i mod length key)%nat)) block.

(** [PCKCS5Pad]: [r = 16 - len(m)%16] bytes of value [r] are appended. *)
Definition PCKCS5Pad (m : list Z) : list Z :=
  let r := (16 - length m mod 16)%nat in
  m ++ replicate r (byte (Z.of_nat r)).

(** The loop [for j > 0] of [DecryptRemovePCKCS5Pad]: [j] bytes are checked
    against [byte(p)] and cut off, last one first.  [m[len(m)-1]] panics on
    an empty [m]. *)
Fixpoint remove_pad_loop (j : nat) (p : Z) (m : list Z) : list Z * option error :=
  match j with
  | O => (m, None)
  | S j' =>
      if decide (m !!! (length m - 1)%nat ≠ byte p) then ([], Some ErrInvalidPad)
      else remove_pad_loop j' p (take (length m - 1) m)
  end.

(** [DecryptRemovePCKCS5Pad].  [m[len(m)-1]] panics on an empty [m]. *)
Definition DecryptRemovePCKCS5Pad (m : list Z) : list Z * option error :=
  let p := m !!! (length m - 1)%nat in
  if decide (p > 16 ∨ p < 1) then ([], Some ErrInvalidPad)
  else remove_pad_loop (Z.to_nat p) p m.

(** [RemovePCKCS5Pad] is the same function on a string. *)
Definition RemovePCKCS5Pad (s : list Z) : list Z * option error :=
  DecryptRemovePCKCS5Pad s.

Section CBC.
Variable aes : BlockCipher.

(** The loop of [CBCEncrypt] over the blocks of the padded message: [x] is
    [b XOR prev] and is encrypted in place. *)
Fixpoint CBCEncrypt_loop (blocks : list nat) (k m prev ct : list Z) : list Z :=
  match blocks with
  | [] => ct
  | i :: blocks' =>
      let b := slice m (i * 16) (i * 16 + 16) in
      let x := BlockEncrypt aes k (BlockXOR b prev) in
      CBCEncrypt_loop blocks' k m x (ct ++ x)
  end.

(** [CBCEncrypt(hiv, key, msg)]: the hexadecimal encoding of
    [iv || c[0] .. c[n-1]]. *)
Definition CBCEncrypt (hiv key : string) (msg : list Z) : string * option error :=
  match hex.DecodeString key with
  | (_, Some e) => (EmptyString, Some e)
  | (k, None) =>
  match NewCipher aes k with
  | Some e => (EmptyString, Some e)
  | None =>
  match hex.DecodeString hiv with
  | (_, Some e) => (EmptyString, Some e)
  | (iv, None) =>
      let m := PCKCS5Pad msg in
      let ct := CBCEncrypt_loop (seq 0 (length m / 16)) k m iv iv in
      (hex.EncodeToString ct, None)
  end end end.

(** The loop of [CBCDecrypt] over the blocks after the IV. *)
Fixpoint CBCDecrypt_loop (blocks : list nat) (k c prev m : list Z) : list Z :=
  match blocks with
  | [] => m
  | i :: blocks' =>
      let ci := slice c (i * 16) (16 * i + 16) in
      let aux := BlockDecrypt aes k ci in
      CBCDecrypt_loop blocks' k c ci (m ++ BlockXOR aux prev)
  end.

(** [CBCDecrypt(key, ciphertext)].  [d[0:16]] panics on a ciphertext of less
    than 16 bytes, and [DecryptRemovePCKCS5Pad] on one of less than 32. *)
Definition CBCDecrypt (key ciphertext : string) : list Z * option error :=
  match hex.DecodeString ciphertext with
  | (_, Some e) => ([], Some e)
  | (d, None) =>
  match hex.DecodeString key with
  | (_, Some e) => ([], Some e)
  | (k, None) =>
  match NewCipher aes k with
  | Some e => ([], Some e)
  | None =>
      let iv := slice d 0 16 in
      let c := slice d 16 (length d) in
      let ct := CBCDecrypt_loop (seq 0 (length c / 16)) k c iv [] in
      DecryptRemovePCKCS5Pad ct
  end end end.

End CBC.

End crypto.

(** ** AES (FIPS-197), the cipher behind [crypto/aes] *)

Module aes.

(** Multiplication by [x] in GF(2^8) modulo [x^8 + x^4 + x^3 + x + 1]. *)
Definition xtime (b : Z) : Z :=
  Z.lxor (Z.land (Z.shiftl b 1) 255) (if Z.testbit b 7 then 27 else 0).

(** Multiplication in GF(2^8), by shift and add over the eight bits of [b]. *)
Fixpoint gmul_loop (n : nat) (a b acc : Z) : Z :=
  match n with
  | O => acc
  | S n' =>
      gmul_loop n' (xtime a) (Z.shiftr b 1) (if Z.testbit b 0 then Z.lxor acc a else acc)
  end.

Definition gmul (a b : Z) : Z := gmul_loop 8 a b 0.

(** The multiplicative inverse, [a^254], with [0] mapped to [0]. *)
Definition ginv (a : Z) : Z :=
  let a2 := gmul a a in
  let a4 := gmul a2 a2 in
  let a8 := gmul a4 a4 in
  let a16 := gmul a8 a8 in
  let a32 := gmul a16 a16 in
  let a64 := gmul a32 a32 in
  let a128 := gmul a64 a64 in
  gmul a128 (gmul a64 (gmul a32 (gmul a16 (gmul a8 (gmul a4 a2))))).

Definition rotl8 (b : Z) (n : Z) : Z :=
  Z.land (Z.lor (Z.shiftl b n) (Z.shiftr b (8 - n))) 255.

(** The S-box: the inverse followed by the affine transformation. *)
Definition sbox_byte (a : Z) : Z :=
  let b := ginv a in
  Z.lxor (Z.lxor (Z.lxor (Z.lxor (Z.lxor b (rotl8 b 1)) (rotl8 b 2)) (rotl8 b 3)) (rotl8 b 4)) 99.

Definition sbox : list Z := Eval vm_compute in sbox_byte <$> seqZ 0 256.

Definition find_index (y : Z) (l : list Z) : Z :=
  from_option (λ ix, Z.of_nat ix.1) 0 (list_find (λ x, x = y) l).

Definition inv_sbox : list Z := Eval vm_compute in (λ y, find_index y sbox) <$> seqZ 0 256.

Definition SubBytes (s : list Z) : list Z := (λ b, sbox !!! Z.to_nat b) <$> s.
Definition InvSubBytes (s : list Z) : list Z := (λ b, inv_sbox !!! Z.to_nat b) <$> s.

(** The state is kept in the order of the input: the byte of row [r] and
    column [c] is at index [r + 4c]. *)
Definition ShiftRows (s : list Z) : list Z :=
  (λ i, s !!! (i mod 4 + 4 * ((i / 4 + i mod 4) mod 4))%nat) <$> seq 0 16.

Definition InvShiftRows (s : list Z) : list Z :=
  (λ i, s !!! (i mod 4 + 4 * ((i / 4 + 4 - i mod 4) mod 4))%nat) <$> seq 0 16.

Definition xor_bytes (a b : list Z) : list Z := zip_with Z.lxor a b.

Definition mix_column (a0 a1 a2 a3 : Z) : list Z :=
  let m2 := xtime in
  let m3 x := Z.lxor (xtime x) x in
  [ Z.lxor (Z.lxor (Z.lxor (m2 a0) (m3 a1)) a2) a3;
    Z.lxor (Z.lxor (Z.lxor a0 (m2 a1)) (m3 a2)) a3;
    Z.lxor (Z.lxor (Z.lxor a0 a1) (m2 a2)) (m3 a3);
    Z.lxor (Z.lxor (Z.lxor (m3 a0) a1) a2) (m2 a3) ].

Definition inv_mix_column (a0 a1 a2 a3 : Z) : list Z :=
  let m9 x := Z.lxor (xtime (xtime (xtime x))) x in
  let m11 x := Z.lxor (Z.lxor (xtime (xtime (xtime x))) (xtime x)) x in
  let m13 x := Z.lxor (Z.lxor (xtime (xtime (xtime x))) (xtime (xtime x))) x in
  let m14 x := Z.lxor (Z.lxor (xtime (xtime (xtime x))) (xtime (xtime x))) (xtime x) in
  [ Z.lxor (Z.lxor (Z.lxor (m14 a0) (m11 a1)) (m13 a2)) (m9 a3);
    Z.lxor (Z.lxor (Z.lxor (m9 a0) (m14 a1)) (m11 a2)) (m13 a3);
    Z.lxor (Z.lxor (Z.lxor (m13 a0) (m9 a1)) (m14 a2)) (m11 a3);
    Z.lxor (Z.lxor (Z.lxor (m11 a0) (m13 a1)) (m9 a2)) (m14 a3) ].

Definition columns (f : Z → Z → Z → Z → list Z) (s : list Z) : list Z :=
  c ← seq 0 4;
  f (s !!! (4 * c)%nat) (s !!! (4 * c + 1)%nat) (s !!! (4 * c + 2)%nat) (s !!! (4 * c + 3)%nat).

Definition MixColumns : list Z → list Z := columns mix_column.
Definition InvMixColumns : list Z → list Z := columns inv_mix_column.

(** The round constant [x^(j-1)]. *)
Definition Rcon (j : nat) : Z := Nat.iter (j - 1) xtime 1.

(** The key expansion: the list of the words [w[0] .. w[4(Nr+1) - 1]], each a
    list of four bytes; [w] is built at its end. *)
Fixpoint expand_loop (fuel i Nk : nat) (w : list (list Z)) : list (list Z) :=
  match fuel with
  | O => w
  | S fuel' =>
      let temp := w !!! (i - 1)%nat in
      let temp' :=
        if decide (i mod Nk = 0)%nat then
          xor_bytes (SubBytes (drop 1 temp ++ take 1 temp)) [Rcon (i / Nk); 0; 0; 0]
        else if decide (6 < Nk ∧ i mod Nk = 4)%nat then SubBytes temp
        else temp in
      expand_loop fuel' (S i) Nk (w ++ [xor_bytes (w !!! (i - Nk)%nat) temp'])
  end.

Definition KeyExpansion (key : list Z) : list (list Z) :=
  let Nk := (length key / 4)%nat in
  let Nr := (Nk + 6)%nat in
  let w0 := (λ i, take 4 (drop (4 * i) key)) <$> seq 0 Nk in
  expand_loop (4 * (Nr + 1) - Nk) Nk Nk w0.

Definition round_key (w : list (list Z)) (r : nat) : list Z :=
  mjoin (take 4 (drop (4 * r) w)).

Definition AddRoundKey (w : list (list Z)) (r : nat) (s : list Z) : list Z :=
  xor_bytes s (round_key w r).

Fixpoint rounds (n : nat) (w : list (list Z)) (r : nat) (s : list Z) : list Z :=
  match n with
  | O => s
  | S n' => rounds n' w (S r) (AddRoundKey w r (MixColumns (ShiftRows (SubBytes s))))
  end.

Definition Cipher (key input : list Z) : list Z :=
  let w := KeyExpansion key in
  let Nr := (length key / 4 + 6)%nat in
  let s := rounds (Nr - 1) w 1 (AddRoundKey w 0 input) in
  AddRoundKey w Nr (ShiftRows (SubBytes s)).

Fixpoint inv_rounds (n : nat) (w : list (list Z)) (s : list Z) : list Z :=
  match n with
  | O => s
  | S n' =>
      inv_rounds n' w (InvMixColumns (AddRoundKey w (S n') (InvSubBytes (InvShiftRows s))))
  end.

Definition InvCipher (key input : list Z) : list Z :=
  let w := KeyExpansion key in
  let Nr := (length key / 4 + 6)%nat in
  let s := inv_rounds (Nr - 1) w (AddRoundKey w Nr input) in
  AddRoundKey w 0 (InvSubBytes (InvShiftRows s)).

(** [aes.NewCipher] and the two methods of its block; both work on the
    first sixteen bytes of their source (and panic on a shorter one). *)
Definition cipher : BlockCipher := {|
  NewCipher k :=
    if decide (length k = 16 ∨ length k = 24 ∨ length k = 32)%nat then None
    else Some (ErrKeySize (length k));
  BlockEncrypt k src := Cipher k (take 16 src);
  BlockDecrypt k src := InvCipher k (take 16 src)
|}.

End aes.

(** ** Package goracler *)

Module goracler.

(** [Poracle]: [Do(c)] returns a positive integer for a valid pad, [0] for
    an invalid one, or an error.  The oracle is a function of its query. *)
Definition Poracle : Type := list Z → Z * option error.

(** The result of a driver or of the engine: the two values the Go function
    returns, and the queries it sent to the oracle on the way, in the order
    they were answered. *)
Record Run : Type := mkRun {
  ret : list Z;
  err : option error;
  queries : list (list Z)
}.

(** [buildPad]: the loop runs [i] from [CipherBlockLen - 1] down to [0], with
    [fill] counting the positions still to be filled.  [c[i]] and [m[i]]
    panic on slices shorter than the block. *)
Fixpoint buildPad_loop (n : nat) (fill pad p g : Z) (c m rg : list Z) : list Z :=
  match n with
  | O => rg
  | S i =>
      if decide (fill < 1) then
        buildPad_loop i fill pad p g c m (<[i := c !!! i]> rg)
      else
        let v := if decide (p = Z.of_nat i) then g
                 else Z.lxor (Z.lxor pad (m !!! i)) (c !!! i) in
        buildPad_loop i (byte (fill - 1)) pad p g c m (<[i := v]> rg)
  end.

Definition buildPad (p g : Z) (c m : list Z) : list Z :=
  let pad := byte (byte (Z.of_nat CipherBlockLen) - byte p) in
  buildPad_loop CipherBlockLen pad pad p g c m (make CipherBlockLen).

(** [checkValueRes]. *)
Record checkValueRes : Type := mkRes { Err : option error; Res : Z }.

(** *** The worker pool of one byte position *)

(** A worker of the pool is at its [select] ([Ready]), inside the call of
    the oracle with a guess it received ([Busy]), or has left its loop. *)
Inductive worker : Type := Ready | Busy (g : Z) | Exited.

#[global] Instance worker_eq_dec : EqDecision worker.
Proof. solve_decision. Defined.

(** What the workers of one position share: the channel [values] of guesses
    (filled and closed before they start, so a list), the context ([ctxDone]
    once [cancel] was called), the channel [done], and the queries answered
    so far. *)
Record pool : Type := mkPool {
  values : list Z;
  workers : list worker;
  ctxDone : bool;
  done : list checkValueRes;
  asked : list (list Z)
}.

(** One scheduling decision: the worker that moves next and, for a worker at
    its [select] with both cases ready, whether it takes [ctx.Done()]. *)
Definition event : Type := nat * bool.

Section Position.
Variables (p : nat) (prev current : list Z) (q : Poracle) (mi : list Z).

(** The ciphertext a worker sends for the guess [g]. *)
Definition try (g : Z) : list Z := buildPad (Z.of_nat p) g prev mi ++ current.

(** One move of [checkValuePad].  At the [select] the receive from the
    closed channel [values] is always ready and [ctx.Done()] is ready after a
    [cancel]; a worker that received a guess queries the oracle, and on an
    error or a positive answer writes to [done], cancels and leaves. *)
Definition checkValuePad_step (ev : event) (s : pool) : pool :=
  match workers s !! ev.1 with
  | Some Ready =>
      if ctxDone s && ev.2 then
        mkPool (values s) (<[ev.1 := Exited]> (workers s)) (ctxDone s) (done s) (asked s)
      else
        match values s with
        | [] =>
            mkPool [] (<[ev.1 := Exited]> (workers s)) (ctxDone s) (done s) (asked s)
        | g :: vs =>
            mkPool vs (<[ev.1 := Busy g]> (workers s)) (ctxDone s) (done s) (asked s)
        end
  | Some (Busy g) =>
      match q (try g) with
      | (_, Some e) =>
          mkPool (values s) (<[ev.1 := Exited]> (workers s)) true
            (done s ++ [mkRes (Some e) 0]) (asked s ++ [try g])
      | (res, None) =>
          if decide (res > 0) then
            mkPool (values s) (<[ev.1 := Exited]> (workers s)) true
              (done s ++ [mkRes None g]) (asked s ++ [try g])
          else
            mkPool (values s) (<[ev.1 := Ready]> (workers s)) (ctxDone s)
              (done s) (asked s ++ [try g])
      end
  | _ => s
  end.

(** The channel of guesses: [0 .. 255], without [prev[p]] at the last
    position. *)
Definition guesses : list Z :=
  filter (λ g, ¬ (byte g = prev !!! p ∧ p = (CipherBlockLen - 1)%nat)) (seqZ 0 256).

Definition start : pool :=
  mkPool guesses (replicate MaxGoroutines Ready) false [] [].

(** The index of a worker that has not left its loop. *)
Fixpoint running (ws : list worker) : option nat :=
  match ws with
  | [] => None
  | Exited :: ws' => S <$> running ws'
  | _ :: _ => Some O
  end.

(** The moves the pool can still make are bounded by [budget]. *)
Definition weight (w : worker) : nat :=
  match w with Ready => 1 | Busy _ => 2 | Exited => 0 end.

Definition budget (s : pool) : nat :=
  (2 * length (values s) + sum_list (weight <$> workers s))%nat.

(** [wg.Wait()]: the workers that have not finished are run to their end. *)
Fixpoint wait_loop (fuel : nat) (s : pool) : pool :=
  match fuel with
  | O => s
  | S fuel' =>
      match running (workers s) with
      | None => s
      | Some i => wait_loop fuel' (checkValuePad_step (i, true) s)
      end
  end.

Definition wait (s : pool) : pool := wait_loop (budget s) s.

(** The pool under a schedule: the moves of the schedule, then [wg.Wait()]. *)
Definition run_pool (sched : list event) : pool :=
  wait (foldl (λ s ev, checkValuePad_step ev s) start sched).

End Position.

(** The loop [for res := range done] of [decryptBlock]: the first error is
    returned, otherwise [val] is the last result. *)
Fixpoint range_done (rs : list checkValueRes) (val : Z) (found : bool)
  : error + Z * bool :=
  match rs with
  | [] => inr (val, found)
  | res :: rs' =>
      match Err res with
      | Some e => inl e
      | None => range_done rs' (Res res) true
      end
  end.

(** The schedules of the sixteen pools of one block, by position. *)
Definition block_schedule : Type := nat → list event.

(** The loop of [decryptBlock] from position [n - 1] down to [0]. *)
Fixpoint decryptBlock_loop (n : nat) (sched : block_schedule)
    (prev current : list Z) (q : Poracle) (mi : list Z) : Run :=
  match n with
  | O => mkRun mi None []
  | S p =>
      let s := run_pool p prev current q mi (sched p) in
      match range_done (done s) 0 false with
      | inl e => mkRun [] (Some e) (asked s)
      | inr (val, found) =>
          if negb found then mkRun [] (Some ErrNoByteFound) (asked s)
          else
            let v := Z.lxor (Z.lxor val (prev !!! p))
                       (byte (byte (Z.of_nat CipherBlockLen) - byte (Z.of_nat p))) in
            let r := decryptBlock_loop p sched prev current q (<[p := v]> mi) in
            mkRun (ret r) (err r) (asked s ++ queries r)
      end
  end.

Definition decryptBlock (sched : block_schedule) (prev current : list Z)
    (q : Poracle) : Run :=
  decryptBlock_loop CipherBlockLen sched prev current q (make CipherBlockLen).

(** The schedules of an attack, by block index. *)
Definition schedule : Type := nat → block_schedule.

(** The loop of [Decrypt] over the block indices [1 .. n-1]. *)
Fixpoint Decrypt_loop (blocks : list nat) (sched : schedule) (c : list Z)
    (q : Poracle) (m : list Z) : Run :=
  match blocks with
  | [] => mkRun m None []
  | i :: blocks' =>
      let c0 := slice c ((i - 1) * CipherBlockLen)
                  (CipherBlockLen * (i - 1) + CipherBlockLen) in
      let c1 := slice c (CipherBlockLen * i) (CipherBlockLen * i + CipherBlockLen) in
      let b := decryptBlock (sched i) c0 c1 q in
      match err b with
      | Some e => mkRun [] (Some e) (queries b)
      | None =>
          let r := Decrypt_loop blocks' sched c q (m ++ ret b) in
          mkRun (ret r) (err r) (queries b ++ queries r)
      end
  end.

Definition Decrypt (sched : schedule) (c : list Z) (q : Poracle) : Run :=
  let n := (length c / CipherBlockLen)%nat in
  if decide (n < 2)%nat then mkRun [] (Some ErrInvalidCiphertext) []
  else if decide ((length c mod CipherBlockLen)%nat ≠ 0%nat) then
    mkRun [] (Some ErrInvalidCiphertext) []
  else Decrypt_loop (seq 1 (n - 1)) sched c q [].

(** The loop of [Encrypt] for [i] from [n - 1] down to [0]; [c0] stays the
    zero block. *)
Fixpoint Encrypt_loop (n : nat) (sched : schedule) (ctext : list Z)
    (q : Poracle) (c0 c1 c : list Z) : Run :=
  match n with
  | O => mkRun c None []
  | S i =>
      let b := decryptBlock (sched i) c0 c1 q in
      match err b with
      | Some e => mkRun [] (Some e) (queries b)
      | None =>
          let mi := ret b in
          let ti := slice ctext (CipherBlockLen * i)
                      (CipherBlockLen * i + CipherBlockLen) in
          let c1' := crypto.BlockXOR ti mi in
          let r := Encrypt_loop i sched ctext q c0 c1' (c1' ++ c) in
          mkRun (ret r) (err r) (queries b ++ queries r)
      end
  end.

Definition Encrypt (sched : schedule) (txt : list Z) (q : Poracle) : Run :=
  let ctext := crypto.PCKCS5Pad txt in
  let n := (length ctext / CipherBlockLen)%nat in
  let c1 := make CipherBlockLen in
  let c0 := make CipherBlockLen in
  Encrypt_loop n sched ctext q c0 c1 c1.

(** [testOracle.Do] of the tests: the oracle that wraps [CBCDecrypt] under
    a key. *)
Definition testOracle (aes : BlockCipher) (key : string) : Poracle := λ c,
  let htry := hex.EncodeToString c in
  match (crypto.CBCDecrypt aes key htry).2 with
  | Some e => if decide (e = ErrInvalidPad) then (0, None) else (0, Some e)
  | None => (1, None)
  end.

End goracler.

(** * Specification vocabulary

    The notions the theorems are stated with: none of them is part of the
    source. *)

Import goracler.

(** The block [C'] that the specification of [buildPad] describes, for a
    pad of [16 - p]. *)
Definition crafted (p g : Z) (c m : list Z) (i : nat) : Z :=
  if decide (Z.of_nat i < p) then c !!! i
  else if decide (p = Z.of_nat i) then g
  else Z.lxor (Z.lxor (16 - p) (m !!! i)) (c !!! i).

(** A ciphertext that [Decrypt] is to reject. *)
Definition malformed (c : list Z) : Prop :=
  (length c < 2 * CipherBlockLen)%nat ∨ (length c mod CipherBlockLen)%nat ≠ 0%nat.

(** A plaintext whose last byte [t] is in [1, 16] and whose last [t] bytes
    are all [t]. *)
Definition valid_pad (m : list Z) : Prop :=
  let t := m !!! (length m - 1)%nat in
  1 ≤ t ≤ 16 ∧ ∀ j : nat, (j < Z.to_nat t)%nat → m !!! (length m - 1 - j)%nat = t.

#[global] Instance is_byte_dec x : Decision (is_byte x).
Proof. unfold is_byte. apply _. Defined.

#[global] Instance is_block_dec b : Decision (is_block b).
Proof. unfold is_block. apply _. Defined.

Section PoolDefs.
Context (p : nat) (prev current : list Z) (q : Poracle) (mi : list Z).

(** What a worker writes to [done] after its query for the guess [g]. *)
Definition answer (g : Z) : option checkValueRes :=
  match q (try p prev current mi g) with
  | (_, Some e) => Some (mkRes (Some e) 0)
  | (res, None) => if decide (res > 0) then Some (mkRes None g) else None
  end.

(** The answers to all the guesses of the channel, in its order. *)
Definition answers : list checkValueRes := omap answer (guesses p prev).

(** The guesses that are inside a call of the oracle. *)
Definition in_flight (w : worker) : option Z :=
  match w with Busy g => Some g | _ => None end.

Definition busy (ws : list worker) : list Z := omap in_flight ws.

(** The invariant of the pool: [fin] are the guesses whose query was
    answered, in the order of the answers. *)
Record pool_inv (s : pool) (fin : list Z) : Prop := {
  inv_asked : asked s = try p prev current mi <$> fin;
  inv_done : done s = omap answer fin;
  inv_taken : ∃ taken, guesses p prev = taken ++ values s ∧ fin ++ busy (workers s) ≡ₚ taken;
  inv_ctx : ctxDone s = true → done s ≠ [];
  inv_exited : Exited ∈ workers s → values s = [] ∨ ctxDone s = true;
  inv_workers : length (workers s) = MaxGoroutines
}.

End PoolDefs.



(** The blocks [c0] and [c1] of the iteration [i] of [Decrypt]. *)
Definition block_pair (c : list Z) (i : nat) : list Z * list Z :=
  (slice c ((i - 1) * CipherBlockLen) (CipherBlockLen * (i - 1) + CipherBlockLen),
   slice c (CipherBlockLen * i) (CipherBlockLen * i + CipherBlockLen)).


(** ** Schedules *)

(** The workers receive a guess each, in their order, and their queries are
    answered in the order [order]; a worker that finds the context
    cancelled at its [select] leaves. *)
Definition batch (order : list nat) : list event :=
  ((λ i, (i, true)) <$> seq 0 MaxGoroutines) ++ ((λ i, (i, true)) <$> order).

Definition batches (order : list nat) : list event :=
  mjoin (replicate 13 (batch order)).

(** The answers of a batch arrive in the order of the workers, or in the
    opposite order. *)
Definition in_order : schedule := λ _ _, batches (seq 0 MaxGoroutines).
Definition in_reverse : schedule := λ _ _, batches (reverse (seq 0 MaxGoroutines)).

(** No decision is taken: worker [0] runs alone until it leaves. *)
Definition sequential : schedule := λ _ _, [].

(** ** The data of the tests *)

Definition bytes (s : string) : list Z :=
  (λ a, Z.of_N (N_of_ascii a)) <$> String.list_ascii_of_string s.

Definition test_key : string := "ee581a043ac19191c7d551710bab13a9".
Definition test_iv : string := "91db4482c4ffa9858338ab0e98ddf96c".

(** The oracle of the tests, over AES. *)
Abbreviation test_oracle := (testOracle aes.cipher test_key).

Definition test_key_bytes : list Z := (hex.DecodeString test_key).1.
Definition test_iv_bytes : list Z := (hex.DecodeString test_iv).1.

(** [hex.DecodeString(ct)] for the result of [CBCEncrypt], as the tests
    compute it. *)
Abbreviation encrypted msg :=
  ((hex.DecodeString (crypto.CBCEncrypt aes.cipher test_iv test_key msg).1).1).

(** A text of two blocks for the encryption attack. *)
Definition msg_encrypt : list Z := bytes "padding oracles attack at 43".

(** The intermediate block of the block of zeros under the key of the
    tests, and the block [c1] that [Encrypt] derives from it for the last
    block of [msg_encrypt]. *)
Abbreviation zero_inter :=
  (BlockDecrypt aes.cipher test_key_bytes (make CipherBlockLen)).

Abbreviation encrypt_c1 :=
  (crypto.BlockXOR
    (slice (crypto.PCKCS5Pad msg_encrypt) (CipherBlockLen * 1)
       (CipherBlockLen * 1 + CipherBlockLen))
    (crypto.BlockXOR zero_inter (make CipherBlockLen))).


(** The texts of the examples: the one of the first test, one of fifteen
    bytes, and one whose first block ends in the bytes [02 5a]; and the
    ciphertexts of the first and of the last under the key and the IV of the
    tests. *)
Definition msg_hello : list Z := bytes "Hello world".
Definition hello_ct : list Z := Eval vm_compute in encrypted msg_hello.
Definition msg_pad1 : list Z := bytes "Hello world!!!!".
Definition msg_amb : list Z := bytes "padding oracle" ++ [2; 90].
Definition amb_ct : list Z := Eval vm_compute in encrypted msg_amb.
Abbreviation hello_c0 := (take 16 hello_ct).
Abbreviation hello_c1 := (drop 16 hello_ct).
Abbreviation amb_c0 := (take 16 amb_ct).
Abbreviation amb_c1 := (take 16 (drop 16 amb_ct)).
Abbreviation amb_c2 := (drop 32 amb_ct).

(** The ciphertext of [msg_pad1] under the key and the IV of the tests. *)
Definition pad1_ct : list Z := Eval vm_compute in encrypted msg_pad1.
Abbreviation pad1_c0 := (take 16 pad1_ct).
Abbreviation pad1_c1 := (drop 16 pad1_ct).

(** An oracle that accepts nothing, one whose every query fails, and one
    that accepts everything. *)
Definition never_valid : Poracle := λ _, (0, None).
Definition unreachable : Poracle := λ _, (0, Some (ErrTransport 7)).
Definition always_valid : Poracle := λ _, (1, None).

(** A toy block cipher for the examples that need a cipher with a proved
    inverse: the XOR with a key of sixteen bytes. *)
Definition xor_cipher : BlockCipher := {|
  NewCipher k := if decide (length k = 16%nat) then None else Some (ErrKeySize (length k));
  BlockEncrypt k src := crypto.BlockXOR (take 16 src) k;
  BlockDecrypt k src := crypto.BlockXOR (take 16 src) k
|}.

(** ** The blocks on which the attack succeeds *)

(** A block of plaintext whose last byte is not the pad [01] and whose byte
    before is no pad of another length: the attack of the last position
    finds one guess. *)
Definition rightmost_ok (b : list Z) : Prop :=
  b !!! 15%nat ≠ 1 ∧ (¬ (2 ≤ b !!! 14%nat ≤ 16) ∨ b !!! 14%nat = b !!! 15%nat).

#[global] Instance rightmost_ok_dec b : Decision (rightmost_ok b).
Proof. unfold rightmost_ok. apply _. Defined.

(** The ciphertexts in which the plaintext of every block after the IV is
    [rightmost_ok]. *)
Definition attackable (aes : BlockCipher) (k c : list Z) : Prop :=
  Forall (λ i, is_block (BlockDecrypt aes k (block_pair c i).2) ∧
               rightmost_ok (crypto.BlockXOR (BlockDecrypt aes k (block_pair c i).2)
                               (block_pair c i).1))
    (seq 1 (length c / CipherBlockLen - 1)).

#[global] Instance attackable_dec aes k c : Decision (attackable aes k c).
Proof. unfold attackable. apply _. Defined.

(** The padded texts whose blocks are all [rightmost_ok]. *)
Definition blocks_ok (m : list Z) : Prop :=
  Forall (λ i, rightmost_ok (slice m (i * 16) (i * 16 + 16))) (seq 0 (length m / 16)).

#[global] Instance blocks_ok_dec m : Decision (blocks_ok m).
Proof. unfold blocks_ok. apply _. Defined.

(** The runs of [Encrypt] in which every call of the engine succeeds: the
    intermediate block of each [c1] on the way is [rightmost_ok]. *)
Fixpoint forge_ok (aes : BlockCipher) (k : list Z) (n : nat) (ctext c1 : list Z) : Prop :=
  match n with
  | O => True
  | S i =>
      is_block (BlockDecrypt aes k c1) ∧
      rightmost_ok (crypto.BlockXOR (BlockDecrypt aes k c1) (make CipherBlockLen)) ∧
      forge_ok aes k i ctext
        (crypto.BlockXOR
           (slice ctext (CipherBlockLen * i) (CipherBlockLen * i + CipherBlockLen))
           (crypto.BlockXOR (BlockDecrypt aes k c1) (make CipherBlockLen)))
  end.

#[global] Instance forge_ok_dec aes k n ctext c1 : Decision (forge_ok aes k n ctext c1).
Proof. revert c1. induction n as [|i IH]; intros c1; cbn [forge_ok]; apply _. Defined.

(** What [CBCDecrypt] hands to [DecryptRemovePCKCS5Pad] for the decoded
    ciphertext [d]: the plaintext with its pad. *)
Definition cbc_raw (aes : BlockCipher) (k d : list Z) : list Z :=
  let iv := slice d 0 16 in
  let c := slice d 16 (length d) in
  crypto.CBCDecrypt_loop aes (seq 0 (length c / 16)) k c iv [].

(** The guess from which the engine derives the byte [m[p]]. *)
Definition guess_of (prev m : list Z) (p : nat) : Z :=
  Z.lxor (Z.lxor (m !!! p) (prev !!! p)) (16 - Z.of_nat p).

(** * Proofs *)

(** The engine is never unfolded by the tactics below: its properties are
    used through the lemmas about it. *)
Lemma decryptBlock_unfold sched prev current q :
  decryptBlock sched prev current q =
  decryptBlock_loop CipherBlockLen sched prev current q (make CipherBlockLen).
Proof. reflexivity. Qed.

#[local] Opaque decryptBlock.

Section BuildPad.

Lemma buildPad_loop_length n fill pad p g c m rg :
  length (buildPad_loop n fill pad p g c m rg) = length rg.
Proof.
  revert fill rg. induction n as [|i IH]; intros fill rg; simpl; [done|].
  case_decide; rewrite IH, length_insert; done.
Qed.

Lemma buildPad_loop_lookup n p g c m rg (j : nat) :
  0 ≤ p < 16 → (n ≤ 16)%nat → length rg = 16%nat → (j < 16)%nat →
  buildPad_loop n (Z.max 0 (Z.of_nat n - p)) (16 - p) p g c m rg !!! j =
  if decide (j < n)%nat then crafted p g c m j else rg !!! j.
Proof.
  intros Hp. revert rg.
  induction n as [|i IH]; intros rg Hn Hrg Hj; cbn [buildPad_loop].
  - rewrite decide_False by lia. done.
  - destruct (decide (0 `max` (Z.of_nat (S i) - p) < 1)) as [Hfill|Hfill].
    + replace (0 `max` (Z.of_nat (S i) - p)) with (0 `max` (Z.of_nat i - p)) by lia.
      rewrite IH by (rewrite ?length_insert; lia).
      destruct (decide (j < i)%nat), (decide (j < S i)%nat); try lia; try done.
      * assert (j = i) as -> by lia.
        rewrite list_lookup_total_insert_eq by lia.
        unfold crafted. rewrite decide_True by lia. done.
      * rewrite list_lookup_total_insert_ne by lia. done.
    + replace (byte (Z.max 0 (Z.of_nat (S i) - p) - 1)) with (Z.max 0 (Z.of_nat i - p))
        by (unfold byte; rewrite Z.mod_small; lia).
      rewrite IH by (rewrite ?length_insert; lia).
      destruct (decide (j < i)%nat), (decide (j < S i)%nat); try lia; try done.
      * assert (j = i) as -> by lia.
        rewrite list_lookup_total_insert_eq by lia.
        unfold crafted. rewrite (decide_False (P := Z.of_nat i < p)) by lia. done.
      * rewrite list_lookup_total_insert_ne by lia. done.
Qed.

Lemma buildPad_length p g c m : length (buildPad p g c m) = 16%nat.
Proof. unfold buildPad. rewrite buildPad_loop_length. done. Qed.

Lemma buildPad_lookup p g c m (j : nat) :
  0 ≤ p < 16 → (j < 16)%nat → buildPad p g c m !!! j = crafted p g c m j.
Proof.
  intros Hp Hj. unfold buildPad, CipherBlockLen.
  assert (byte (byte (Z.of_nat 16) - byte p) = 16 - p) as ->.
  { unfold byte. rewrite (Z.mod_small p), (Z.mod_small (Z.of_nat 16)) by lia.
    rewrite Z.mod_small; lia. }
  pose proof (buildPad_loop_lookup 16 p g c m (make 16) j Hp) as H.
  replace (0 `max` (Z.of_nat 16 - p)) with (16 - p) in H by lia.
  rewrite H by done. rewrite decide_True by lia. done.
Qed.

(** C5: for a position [p] in [0, 16) and blocks [c] and [m], [buildPad]
    returns a block of sixteen bytes: with the pad [16 - p], the byte at an
    index above [p] is [pad XOR m[i] XOR c[i]], the byte at [p] is the guess
    [g], and the bytes below [p] are those of [c]. *)
Theorem buildPad_spec (p g : Z) (c m : list Z) :
  0 ≤ p < 16 → length c = CipherBlockLen → length m = CipherBlockLen →
  length (buildPad p g c m) = CipherBlockLen ∧
  ∀ i : nat, (i < CipherBlockLen)%nat →
    (Z.of_nat i > p →
       buildPad p g c m !!! i = Z.lxor (Z.lxor (16 - p) (m !!! i)) (c !!! i)) ∧
    (Z.of_nat i = p → buildPad p g c m !!! i = g) ∧
    (Z.of_nat i < p → buildPad p g c m !!! i = c !!! i).
Proof.
  intros Hp _ _. split; [apply buildPad_length|].
  intros i Hi. rewrite buildPad_lookup by done. unfold crafted.
  repeat split; intros; repeat case_decide; done || lia.
Qed.

End BuildPad.

Section Workers.

Lemma insert_middle (ws : list worker) i w w' :
  ws !! i = Some w →
  ws = take i ws ++ w :: drop (S i) ws ∧ <[i:=w']> ws = take i ws ++ w' :: drop (S i) ws.
Proof.
  intros H. split.
  - symmetry. by apply take_drop_middle.
  - apply insert_take_drop. by eapply lookup_lt_Some.
Qed.

Lemma busy_insert ws i w w' :
  ws !! i = Some w →
  ∃ rest, busy ws ≡ₚ busy [w] ++ rest ∧ busy (<[i:=w']> ws) ≡ₚ busy [w'] ++ rest.
Proof.
  intros H. destruct (insert_middle ws i w w' H) as [E1 E2].
  exists (busy (take i ws) ++ busy (drop (S i) ws)). split.
  - rewrite E1 at 1. unfold busy. rewrite omap_app.
    change (w :: drop (S i) ws) with ([w] ++ drop (S i) ws). rewrite omap_app.
    solve_Permutation.
  - rewrite E2. unfold busy. rewrite omap_app.
    change (w' :: drop (S i) ws) with ([w'] ++ drop (S i) ws). rewrite omap_app.
    solve_Permutation.
Qed.

Lemma sum_list_app (l k : list nat) :
  sum_list (l ++ k) = (sum_list l + sum_list k)%nat.
Proof. induction l as [|x l IH]; simpl; lia. Qed.

Lemma weight_insert ws i w w' :
  ws !! i = Some w →
  (sum_list (weight <$> <[i:=w']> ws) + weight w = sum_list (weight <$> ws) + weight w')%nat.
Proof.
  intros H. destruct (insert_middle ws i w w' H) as [E1 E2].
  rewrite E2. rewrite E1 at 3.
  rewrite !fmap_app, !fmap_cons, !sum_list_app. simpl. lia.
Qed.

Lemma elem_of_insert_worker (ws : list worker) i w w' x :
  ws !! i = Some w → x ∈ <[i:=w']> ws → x = w' ∨ x ∈ ws.
Proof.
  intros H Hx. destruct (insert_middle ws i w w' H) as [E1 E2].
  rewrite E2 in Hx. rewrite E1.
  rewrite !elem_of_app, !elem_of_cons in Hx |- *. naive_solver.
Qed.

Lemma running_Some ws i :
  running ws = Some i → ∃ w, ws !! i = Some w ∧ w ≠ Exited.
Proof.
  revert i. induction ws as [|w ws IH]; intros i; simpl; [done|].
  destruct w; try (intros [= <-]; eexists; split; [done|done]).
  destruct (running ws) as [j|] eqn:E; simpl; [|done].
  intros [= <-]. destruct (IH j eq_refl) as (w & ? & ?). by exists w.
Qed.

Lemma running_None ws w : running ws = None → w ∈ ws → w = Exited.
Proof.
  induction ws as [|w' ws IH]; simpl; [by rewrite elem_of_nil|].
  destruct w'; try done.
  destruct (running ws); simpl; [done|].
  intros _. rewrite elem_of_cons. naive_solver.
Qed.

Lemma busy_exited ws : Forall (λ w, w = Exited) ws → busy ws = [].
Proof. induction 1 as [|w ws -> _ IH]; [done|]. simpl. done. Qed.

Lemma omap_submseteq {A B} (f : A → option B) (l k : list A) :
  l ⊆+ k → omap f l ⊆+ omap f k.
Proof.
  induction 1 as [|x l k _ IH|x y l|x l k _ IH|l k m _ IH1 _ IH2]; simpl.
  - done.
  - destruct (f x); [by constructor|done].
  - destruct (f x), (f y); try done. apply submseteq_swap.
  - destruct (f x); [by apply submseteq_cons|done].
  - by etrans.
Qed.

Lemma submseteq_short {A} (l k : list A) :
  l ⊆+ k → (length k ≤ 1)%nat → (l ≡ₚ k ∨ l ≠ []) → l = k.
Proof.
  intros Hs Hk Hl. destruct k as [|y [|??]]; simpl in Hk; [|clear Hk|lia].
  - by apply submseteq_nil_r.
  - destruct l as [|x [|x' l]].
    + destruct Hl as [Hl|Hl]; [|done]. by apply Permutation_nil_cons in Hl.
    + apply singleton_submseteq in Hs. by subst.
    + apply submseteq_length in Hs. simpl in Hs. lia.
Qed.

End Workers.

Section Pool.
Context (p : nat) (prev current : list Z) (q : Poracle) (mi : list Z).

#[local] Abbreviation step := (checkValuePad_step p prev current q mi).
#[local] Abbreviation inv := (pool_inv p prev current q mi).
#[local] Abbreviation ans := (answer p prev current q mi).

Lemma guesses_nonempty : length ([] : list Z) ≠ length (guesses p prev).
Proof.
  unfold guesses. intros H. symmetry in H. apply length_zero_iff_nil in H.
  destruct (decide (prev !!! p = 0)) as [E|E].
  - apply (filter_nil_not_elem_of _ _ 1 H); [|apply elem_of_seqZ; lia].
    intros [H1 _]. rewrite E in H1. done.
  - apply (filter_nil_not_elem_of _ _ 0 H); [|apply elem_of_seqZ; lia].
    intros [H1 _]. by rewrite <- H1 in E.
Qed.

Lemma start_inv : inv (start p prev) [].
Proof.
  split; [done|done|by exists []|done| |done].
  intros H. apply elem_of_replicate in H. naive_solver.
Qed.

Lemma omap_snoc_answer fin g :
  omap ans (fin ++ [g]) = omap ans fin ++ from_option (λ r, [r]) [] (ans g).
Proof. rewrite omap_app. simpl. destruct (ans g); done. Qed.

Lemma step_inv ev s fin :
  inv s fin → ∃ fin', inv (step ev s) fin'.
Proof.
  intros Hinv. pose proof Hinv as [Ha Hd (taken & Hg & Ht) Hc He Hw].
  unfold checkValuePad_step.
  destruct (workers s !! ev.1) as [w|] eqn:Hi; [|by exists fin].
  assert (∀ w', busy [w] ++ busy (<[ev.1:=w']> (workers s)) ≡ₚ busy [w'] ++ busy (workers s)) as Hb.
  { intros w'. destruct (busy_insert _ _ _ w' Hi) as (r & -> & ->). solve_Permutation. }
  assert (∀ w' x, x ∈ <[ev.1:=w']> (workers s) → x = w' ∨ x ∈ workers s) as Hin.
  { intros w' x. apply elem_of_insert_worker with w. done. }
  destruct w as [|g|]; [| |by exists fin].
  - (* at the select *)
    destruct (ctxDone s && ev.2) eqn:Hb1.
    { apply andb_true_iff in Hb1 as [Hb1 _]. exists fin.
      split; cbn [values workers ctxDone done asked]; [done|done| |done|by right|by rewrite length_insert].
      exists taken. split; [done|]. pose proof (Hb Exited) as H; simpl in H; by rewrite H. }
    destruct (values s) as [|g vs] eqn:Hv.
    { exists fin.
      split; cbn [values workers ctxDone done asked]; [done|done| |done|by left|by rewrite length_insert].
      exists taken. split; [done|]. pose proof (Hb Exited) as H; simpl in H; by rewrite H. }
    exists fin.
    split; cbn [values workers ctxDone done asked]; [done|done| |done| |by rewrite length_insert].
    + exists (taken ++ [g]). split; [by rewrite <- app_assoc|].
      pose proof (Hb (Busy g)) as H; simpl in H.
      rewrite H, <- Ht. solve_Permutation.
    + intros Hx. apply Hin in Hx as [?|Hx]; [done|].
      destruct (He Hx) as [?|?]; [done|by right].
  - (* inside the call of the oracle *)
    assert (ans g = match q (try p prev current mi g) with
                    | (_, Some e) => Some (mkRes (Some e) 0)
                    | (res, None) => if decide (res > 0) then Some (mkRes None g) else None
                    end) as Hans by done.
    assert (∀ w', w' = Exited ∨ w' = Ready →
              ∃ taken0, guesses p prev = taken0 ++ values s ∧
                (fin ++ [g]) ++ busy (<[ev.1:=w']> (workers s)) ≡ₚ taken0) as Htk.
    { intros w' Hw'. exists taken. split; [done|].
      rewrite <- Ht. destruct (busy_insert _ _ _ w' Hi) as (r & -> & ->).
      destruct Hw' as [-> | ->]; simpl; solve_Permutation. }
    exists (fin ++ [g]).
    destruct (q (try p prev current mi g)) as [res [e|]] eqn:Hq;
      [|destruct (decide (res > 0))];
      split; cbn [values workers ctxDone done asked];
      rewrite ?fmap_app, ?omap_snoc_answer, ?Hans, ?length_insert; simpl;
      rewrite ?app_nil_r; auto.
    all: try (by rewrite ?Ha, ?Hd).
    all: try (by intros _ ?%app_eq_nil; naive_solver).
    intros Hx. apply Hin in Hx as [?|Hx]; [done|]. auto.
Qed.

Lemma step_budget i b s w :
  workers s !! i = Some w → w ≠ Exited →
  (budget (step (i, b) s) < budget s)%nat.
Proof.
  intros Hi Hw. unfold checkValuePad_step, budget. cbn [fst snd]. rewrite Hi.
  pose proof (λ w', weight_insert _ _ _ w' Hi) as Hwt.
  destruct w as [|g|]; [| |done].
  - destruct (ctxDone s && b); [|destruct (values s) as [|g vs] eqn:Hv];
      cbn [values workers length];
      [specialize (Hwt Exited)|specialize (Hwt Exited)|specialize (Hwt (Busy g))];
      simpl in Hwt; lia.
  - destruct (q (try p prev current mi g)) as [res [e|]];
      [|destruct (decide (res > 0))]; cbn [values workers];
      [specialize (Hwt Exited)|specialize (Hwt Exited)|specialize (Hwt Ready)];
      simpl in Hwt; lia.
Qed.

Lemma wait_loop_finished fuel s :
  (budget s ≤ fuel)%nat → running (workers (wait_loop p prev current q mi fuel s)) = None.
Proof.
  revert s. induction fuel as [|fuel IH]; intros s Hs; cbn [wait_loop].
  - destruct (running (workers s)) as [i|] eqn:Hr; [|done].
    apply running_Some in Hr as (w & Hi & Hw).
    pose proof (step_budget i true s w Hi Hw). lia.
  - destruct (running (workers s)) as [i|] eqn:Hr; [|done].
    apply running_Some in Hr as (w & Hi & Hw).
    apply IH. pose proof (step_budget i true s w Hi Hw). lia.
Qed.

Lemma wait_loop_inv fuel s fin :
  inv s fin → ∃ fin', inv (wait_loop p prev current q mi fuel s) fin'.
Proof.
  revert s fin. induction fuel as [|fuel IH]; intros s fin Hs; cbn [wait_loop]; [by exists fin|].
  destruct (running (workers s)) as [i|]; [|by exists fin].
  destruct (step_inv (i, true) s fin Hs) as [fin' Hs']. by eapply IH.
Qed.

Lemma foldl_step_inv sched s fin :
  inv s fin → ∃ fin', inv (foldl (λ s ev, step ev s) s sched) fin'.
Proof.
  revert s fin. induction sched as [|ev sched IH]; intros s fin Hs; simpl; [by exists fin|].
  destruct (step_inv ev s fin Hs) as [fin' Hs']. by eapply IH.
Qed.

Lemma run_pool_inv sched :
  ∃ fin, inv (run_pool p prev current q mi sched) fin.
Proof.
  unfold run_pool, wait.
  destruct (foldl_step_inv sched _ _ start_inv) as [fin Hfin].
  by eapply wait_loop_inv.
Qed.

Lemma run_pool_finished sched w :
  w ∈ workers (run_pool p prev current q mi sched) → w = Exited.
Proof.
  apply running_None. unfold run_pool, wait. by apply wait_loop_finished.
Qed.

(** What the channel [done] holds when all workers have finished: the
    answers to a part [fin] of the guesses, which is all of them unless some
    answer was written. *)
Lemma run_pool_final sched :
  let s := run_pool p prev current q mi sched in
  ∃ fin, asked s = try p prev current mi <$> fin ∧ done s = omap ans fin ∧
         fin ⊆+ guesses p prev ∧ (fin ≡ₚ guesses p prev ∨ done s ≠ []).
Proof.
  intros s. destruct (run_pool_inv sched) as [fin [Ha Hd (taken & Hg & Ht) Hc He Hw]].
  fold s in Ha, Hd, Hg, Ht, Hc, He, Hw.
  assert (busy (workers s) = []) as Hbusy.
  { apply busy_exited, Forall_forall. intros w Hw'. by eapply run_pool_finished. }
  rewrite Hbusy, app_nil_r in Ht.
  exists fin. split_and!; [done|done|..].
  - rewrite Hg, Ht. by apply submseteq_inserts_r.
  - destruct (workers s) as [|w ws] eqn:Hws; [done|].
    assert (w = Exited) as ->.
    { apply (run_pool_finished sched). fold s. rewrite Hws. left. }
    destruct He as [Hv|Hx]; [left|..].
    + left; by rewrite Hg, Hv, app_nil_r.
    + right; auto.
Qed.

(** Every query of the pool is the candidate of a guess of the channel. *)
Lemma run_pool_asked sched c :
  c ∈ asked (run_pool p prev current q mi sched) →
  ∃ g, g ∈ guesses p prev ∧ c = try p prev current mi g.
Proof.
  destruct (run_pool_final sched) as (fin & Ha & _ & Hs & _).
  rewrite Ha. intros (g & -> & Hg)%list_elem_of_fmap.
  exists g. split; [|done]. by eapply elem_of_submseteq.
Qed.

(** Every result in [done] is the answer to a query of the pool. *)
Lemma run_pool_done sched r :
  r ∈ done (run_pool p prev current q mi sched) →
  ∃ g, g ∈ guesses p prev ∧ ans g = Some r ∧
       try p prev current mi g ∈ asked (run_pool p prev current q mi sched).
Proof.
  destruct (run_pool_final sched) as (fin & Ha & Hd & Hs & _).
  rewrite Hd, Ha. intros (g & Hg & Hr)%list_elem_of_omap.
  exists g. split_and!; [by eapply elem_of_submseteq|done|].
  apply list_elem_of_fmap. by exists g.
Qed.

(** With at most one guess answered by a success or an error, [done] holds
    exactly that answer under every schedule. *)
Lemma run_pool_unambiguous sched :
  (length (answers p prev current q mi) ≤ 1)%nat →
  done (run_pool p prev current q mi sched) = answers p prev current q mi.
Proof.
  intros Hlen. destruct (run_pool_final sched) as (fin & _ & Hd & Hs & Hf).
  apply submseteq_short; [|done|].
  - rewrite Hd. by apply omap_submseteq.
  - destruct Hf as [Hf|Hf]; [left|by right].
    rewrite Hd. unfold answers. by rewrite Hf.
Qed.

(** The pool asks the oracle at least once. *)
Lemma run_pool_asked_nonempty sched :
  asked (run_pool p prev current q mi sched) ≠ [].
Proof.
  destruct (run_pool_final sched) as (fin & Ha & Hd & Hs & Hf).
  rewrite Ha. intros ->%fmap_nil_inv. simpl in Hd.
  destruct Hf as [Hf|Hf]; [|done].
  apply Permutation_length in Hf. revert Hf. apply guesses_nonempty.
Qed.

(** An error the oracle returned to a query of the pool is in [done]. *)
Lemma run_pool_error sched c e :
  c ∈ asked (run_pool p prev current q mi sched) → (q c).2 = Some e →
  mkRes (Some e) 0 ∈ done (run_pool p prev current q mi sched).
Proof.
  destruct (run_pool_final sched) as (fin & Ha & Hd & _ & _).
  rewrite Ha, Hd. intros (g & -> & Hg)%list_elem_of_fmap He.
  apply list_elem_of_omap. exists g. split; [done|].
  unfold answer. destruct (q (try p prev current mi g)) as [res oe]. simpl in He. by subst.
Qed.

End Pool.

(** From here on the pool is used through the lemmas above. *)
#[local] Opaque run_pool.

Lemma ret_mkRun m e qs : ret (mkRun m e qs) = m.
Proof. reflexivity. Qed.
Lemma err_mkRun m e qs : err (mkRun m e qs) = e.
Proof. reflexivity. Qed.
Lemma queries_mkRun m e qs : queries (mkRun m e qs) = qs.
Proof. reflexivity. Qed.

Ltac run_simpl := rewrite ?ret_mkRun, ?err_mkRun, ?queries_mkRun.

Section Engine.
Context (sched : block_schedule) (prev current : list Z) (q : Poracle).

Lemma range_done_inl rs val found e :
  range_done rs val found = inl e → ∃ r, r ∈ rs ∧ Err r = Some e.
Proof.
  revert val found. induction rs as [|r rs IH]; intros val found; simpl; [done|].
  destruct (Err r) as [e'|] eqn:E.
  - intros [= <-]. exists r. split; [left|done].
  - intros (r' & ? & ?)%IH. exists r'. split; [by right|done].
Qed.

Lemma range_done_error rs val found r :
  r ∈ rs → is_Some (Err r) → ∃ e, range_done rs val found = inl e.
Proof.
  revert val found. induction rs as [|r' rs IH]; intros val found; simpl.
  - by intros ?%elem_of_nil.
  - intros [->|Hin]%elem_of_cons [e He].
    + rewrite He. by exists e.
    + destruct (Err r'); [by eexists|]. apply IH; [done|by exists e].
Qed.

Lemma range_done_nil val found : range_done [] val found = inr (val, found).
Proof. done. Qed.

Lemma range_done_last rs r val found :
  Forall (λ r, Err r = None) (rs ++ [r]) →
  range_done (rs ++ [r]) val found = inr (Res r, true).
Proof.
  revert val found. induction rs as [|r' rs IH]; intros val found; simpl.
  - intros [-> _]%Forall_cons. done.
  - intros [-> H]%Forall_cons. by apply IH.
Qed.

(** An error of the engine is the one for a byte that was not found, or an
    error the oracle returned to one of the queries of the run. *)
Lemma decryptBlock_loop_err n mi e :
  err (decryptBlock_loop n sched prev current q mi) = Some e →
  e = ErrNoByteFound ∨
  ∃ c, c ∈ queries (decryptBlock_loop n sched prev current q mi) ∧ (q c).2 = Some e.
Proof.
  revert mi. induction n as [|p IH]; intros mi; cbn [decryptBlock_loop]; [done|].
  destruct (range_done _ 0 false) as [e'|[val found]] eqn:Hr.
  - cbn [err queries]. intros [= ->]. right.
    apply range_done_inl in Hr as (r & Hin & He).
    apply run_pool_done in Hin as (g & _ & Hans & Hask).
    exists (try p prev current mi g). split; [done|].
    unfold answer in Hans. destruct (q (try p prev current mi g)) as [res [e1|]]; simpl.
    + injection Hans as <-. done.
    + destruct (decide (res > 0)); [|done]. injection Hans as <-. done.
  - destruct found; cbn [negb err queries].
    + intros [?|(c & Hc & He)]%IH; [by left|right].
      exists c. split; [|done]. apply elem_of_app. by right.
    + intros [= <-]. by left.
Qed.

(** The engine asks the oracle at least once. *)
Lemma decryptBlock_loop_queries p mi :
  queries (decryptBlock_loop (S p) sched prev current q mi) ≠ [].
Proof.
  cbn [decryptBlock_loop].
  pose proof (run_pool_asked_nonempty p prev current q mi (sched p)) as Hne.
  destruct (range_done _ 0 false) as [e'|[val [|]]]; cbn [negb queries]; try done.
  by intros [? _]%app_eq_nil.
Qed.

(** After an error the engine returns no bytes. *)
Lemma decryptBlock_loop_ret n mi e :
  err (decryptBlock_loop n sched prev current q mi) = Some e →
  ret (decryptBlock_loop n sched prev current q mi) = [].
Proof.
  revert mi. induction n as [|p IH]; intros mi; cbn [decryptBlock_loop]; [done|].
  destruct (range_done _ 0 false) as [e'|[val [|]]]; cbn [negb ret err]; try done.
  apply IH.
Qed.

Lemma decryptBlock_err e :
  err (decryptBlock sched prev current q) = Some e →
  e = ErrNoByteFound ∨
  ∃ c, c ∈ queries (decryptBlock sched prev current q) ∧ (q c).2 = Some e.
Proof. rewrite decryptBlock_unfold. apply decryptBlock_loop_err. Qed.

Lemma decryptBlock_queries : queries (decryptBlock sched prev current q) ≠ [].
Proof. rewrite decryptBlock_unfold. apply decryptBlock_loop_queries. Qed.

Lemma decryptBlock_ret e :
  err (decryptBlock sched prev current q) = Some e →
  ret (decryptBlock sched prev current q) = [].
Proof. rewrite decryptBlock_unfold. apply decryptBlock_loop_ret. Qed.

End Engine.



Section Drivers.
Context (sched : schedule) (q : Poracle).

Lemma Decrypt_loop_cons i blocks c m :
  Decrypt_loop (i :: blocks) sched c q m =
  let c0 := slice c ((i - 1) * CipherBlockLen) (CipherBlockLen * (i - 1) + CipherBlockLen) in
  let c1 := slice c (CipherBlockLen * i) (CipherBlockLen * i + CipherBlockLen) in
  let b := decryptBlock (sched i) c0 c1 q in
  match err b with
  | Some e => mkRun [] (Some e) (queries b)
  | None =>
      let r := Decrypt_loop blocks sched c q (m ++ ret b) in
      mkRun (ret r) (err r) (queries b ++ queries r)
  end.
Proof. reflexivity. Qed.

Lemma Encrypt_loop_S i ctext c0 c1 c :
  Encrypt_loop (S i) sched ctext q c0 c1 c =
  let b := decryptBlock (sched i) c0 c1 q in
  match err b with
  | Some e => mkRun [] (Some e) (queries b)
  | None =>
      let ti := slice ctext (CipherBlockLen * i) (CipherBlockLen * i + CipherBlockLen) in
      let c1' := crypto.BlockXOR ti (ret b) in
      let r := Encrypt_loop i sched ctext q c0 c1' (c1' ++ c) in
      mkRun (ret r) (err r) (queries b ++ queries r)
  end.
Proof. reflexivity. Qed.

Lemma Decrypt_loop_abort i blocks c m e :
  let c0 := slice c ((i - 1) * CipherBlockLen) (CipherBlockLen * (i - 1) + CipherBlockLen) in
  let c1 := slice c (CipherBlockLen * i) (CipherBlockLen * i + CipherBlockLen) in
  err (decryptBlock (sched i) c0 c1 q) = Some e →
  Decrypt_loop (i :: blocks) sched c q m =
  mkRun [] (Some e) (queries (decryptBlock (sched i) c0 c1 q)).
Proof. intros c0 c1 H. subst c0 c1. rewrite Decrypt_loop_cons. cbv zeta. by rewrite H. Qed.

Lemma Decrypt_loop_next i blocks c m :
  let c0 := slice c ((i - 1) * CipherBlockLen) (CipherBlockLen * (i - 1) + CipherBlockLen) in
  let c1 := slice c (CipherBlockLen * i) (CipherBlockLen * i + CipherBlockLen) in
  let b := decryptBlock (sched i) c0 c1 q in
  err b = None →
  Decrypt_loop (i :: blocks) sched c q m =
  let r := Decrypt_loop blocks sched c q (m ++ ret b) in
  mkRun (ret r) (err r) (queries b ++ queries r).
Proof. intros c0 c1 b H. subst c0 c1 b. rewrite Decrypt_loop_cons. cbv zeta. by rewrite H. Qed.

Lemma Encrypt_loop_abort i ctext c0 c1 c e :
  err (decryptBlock (sched i) c0 c1 q) = Some e →
  Encrypt_loop (S i) sched ctext q c0 c1 c =
  mkRun [] (Some e) (queries (decryptBlock (sched i) c0 c1 q)).
Proof. intros H. rewrite Encrypt_loop_S. cbv zeta. by rewrite H. Qed.

Lemma Encrypt_loop_next i ctext c0 c1 c :
  let b := decryptBlock (sched i) c0 c1 q in
  err b = None →
  Encrypt_loop (S i) sched ctext q c0 c1 c =
  let ti := slice ctext (CipherBlockLen * i) (CipherBlockLen * i + CipherBlockLen) in
  let c1' := crypto.BlockXOR ti (ret b) in
  let r := Encrypt_loop i sched ctext q c0 c1' (c1' ++ c) in
  mkRun (ret r) (err r) (queries b ++ queries r).
Proof. intros b H. subst b. rewrite Encrypt_loop_S. cbv zeta. by rewrite H. Qed.

Lemma Decrypt_loop_nil c m : Decrypt_loop [] sched c q m = mkRun m None [].
Proof. reflexivity. Qed.

Lemma Encrypt_loop_O ctext c0 c1 c : Encrypt_loop 0 sched ctext q c0 c1 c = mkRun c None [].
Proof. reflexivity. Qed.

Lemma Decrypt_loop_ret blocks c m e :
  err (Decrypt_loop blocks sched c q m) = Some e →
  ret (Decrypt_loop blocks sched c q m) = [].
Proof.
  revert m. induction blocks as [|i blocks IH]; intros m.
  { rewrite Decrypt_loop_nil. run_simpl. intros [=]. }
  destruct (err (decryptBlock (sched i)
    (slice c ((i - 1) * CipherBlockLen) (CipherBlockLen * (i - 1) + CipherBlockLen))
    (slice c (CipherBlockLen * i) (CipherBlockLen * i + CipherBlockLen)) q)) as [e'|] eqn:Hb.
  - rewrite (Decrypt_loop_abort _ _ _ _ _ Hb). by run_simpl.
  - rewrite (Decrypt_loop_next _ _ _ _ Hb). cbv zeta. run_simpl. apply IH.
Qed.

Lemma Encrypt_loop_ret n ctext c0 c1 c e :
  err (Encrypt_loop n sched ctext q c0 c1 c) = Some e →
  ret (Encrypt_loop n sched ctext q c0 c1 c) = [].
Proof.
  revert c1 c. induction n as [|i IH]; intros c1 c.
  { rewrite Encrypt_loop_O. run_simpl. intros [=]. }
  destruct (err (decryptBlock (sched i) c0 c1 q)) as [e'|] eqn:Hb.
  - rewrite (Encrypt_loop_abort _ _ _ _ _ _ Hb). by run_simpl.
  - rewrite (Encrypt_loop_next _ _ _ _ _ Hb). cbv zeta. run_simpl. apply IH.
Qed.

Lemma Decrypt_loop_err blocks c m e :
  err (Decrypt_loop blocks sched c q m) = Some e →
  e = ErrNoByteFound ∨
  ∃ x, x ∈ queries (Decrypt_loop blocks sched c q m) ∧ (q x).2 = Some e.
Proof.
  revert m. induction blocks as [|i blocks IH]; intros m.
  { rewrite Decrypt_loop_nil. run_simpl. intros [=]. }
  destruct (err (decryptBlock (sched i)
    (slice c ((i - 1) * CipherBlockLen) (CipherBlockLen * (i - 1) + CipherBlockLen))
    (slice c (CipherBlockLen * i) (CipherBlockLen * i + CipherBlockLen)) q)) as [e'|] eqn:Hb.
  - rewrite (Decrypt_loop_abort _ _ _ _ _ Hb). run_simpl.
    intros [= ->]. apply decryptBlock_err. exact Hb.
  - rewrite (Decrypt_loop_next _ _ _ _ Hb). cbv zeta. run_simpl.
    intros H. apply IH in H as [H|(x & Hx & He)]; [left; exact H|right].
    exists x. split; [|exact He]. apply elem_of_app. right. exact Hx.
Qed.

(** C10: whenever [Decrypt] returns an error its plaintext is the empty
    string, and whenever [Encrypt] returns an error its ciphertext is nil:
    the blocks recovered before the failing one are not returned. *)
Theorem driver_error_atomicity (c txt : list Z) (e : error) :
  (err (Decrypt sched c q) = Some e → ret (Decrypt sched c q) = []) ∧
  (err (Encrypt sched txt q) = Some e → ret (Encrypt sched txt q) = []).
Proof.
  split.
  - unfold Decrypt. repeat case_decide; run_simpl; try done.
    apply Decrypt_loop_ret.
  - unfold Encrypt. apply Encrypt_loop_ret.
Qed.

(** C6: [Decrypt] rejects a ciphertext of less than [2 * 16] bytes or whose
    length is no multiple of 16 with [ErrInvalidCiphertext], before any
    query.  For any other ciphertext the oracle is queried, and
    [ErrInvalidCiphertext] can only be an error that the oracle itself
    returned to a query: the rejection is that of the malformed inputs
    exactly.  Inputs of 15 and of 16 bytes are rejected. *)
Theorem Decrypt_rejects_malformed (c : list Z) :
  (malformed c → Decrypt sched c q = mkRun [] (Some ErrInvalidCiphertext) []) ∧
  (¬ malformed c →
     queries (Decrypt sched c q) ≠ [] ∧
     (err (Decrypt sched c q) = Some ErrInvalidCiphertext →
      ∃ x, x ∈ queries (Decrypt sched c q) ∧ (q x).2 = Some ErrInvalidCiphertext)) ∧
  (length c = 15%nat ∨ length c = 16%nat →
     Decrypt sched c q = mkRun [] (Some ErrInvalidCiphertext) []).
Proof.
  unfold malformed, CipherBlockLen.
  assert ((length c < 2 * 16)%nat ∨ (length c mod 16)%nat ≠ 0%nat →
          Decrypt sched c q = mkRun [] (Some ErrInvalidCiphertext) []) as Hbad.
  { intros Hm. unfold Decrypt, CipherBlockLen.
    destruct (decide (length c / 16 < 2)%nat) as [|Hn]; [done|].
    destruct (decide ((length c mod 16)%nat ≠ 0%nat)) as [|Hr]; [done|].
    destruct Hm as [Hm|Hm]; [|done].
    exfalso. apply Hn. apply Nat.Div0.div_lt_upper_bound. lia. }
  split_and!; [done| |].
  - intros Hm. unfold Decrypt, CipherBlockLen.
    destruct (decide (length c / 16 < 2)%nat) as [Hn|Hn].
    { exfalso. apply Hm. left. 
      pose proof (Nat.div_mod_eq (length c) 16). 
      pose proof (Nat.mod_upper_bound (length c) 16). lia. }
    destruct (decide ((length c mod 16)%nat ≠ 0%nat)) as [Hr|Hr]; [by destruct Hm; right|].
    destruct (length c / 16)%nat as [|[|n]] eqn:Hdiv; [lia|lia|].
    cbn [Nat.sub seq]. split.
    + pose proof (decryptBlock_queries (sched 1%nat)
        (slice c ((1 - 1) * CipherBlockLen) (CipherBlockLen * (1 - 1) + CipherBlockLen))
        (slice c (CipherBlockLen * 1) (CipherBlockLen * 1 + CipherBlockLen)) q) as Hq.
      destruct (err (decryptBlock (sched 1%nat)
        (slice c ((1 - 1) * CipherBlockLen) (CipherBlockLen * (1 - 1) + CipherBlockLen))
        (slice c (CipherBlockLen * 1) (CipherBlockLen * 1 + CipherBlockLen)) q)) as [e'|] eqn:Hb.
      * rewrite (Decrypt_loop_abort _ _ _ _ _ Hb). by run_simpl.
      * rewrite (Decrypt_loop_next _ _ _ _ Hb). cbv zeta. run_simpl.
        by intros [? _]%app_eq_nil.
    + intros H. apply Decrypt_loop_err in H as [?|?]; done.
  - intros Hl. apply Hbad. left. lia.
Qed.

End Drivers.

Lemma filter_all {A} (P : A → Prop) `{∀ x, Decision (P x)} (l : list A) :
  (∀ x, x ∈ l → P x) → filter P l = l.
Proof.
  induction l as [|x l IH]; intros Hl; [done|].
  rewrite filter_cons_True by (apply Hl; left).
  f_equal. apply IH. intros y Hy. apply Hl. by right.
Qed.

Section Positions.
Context (sched : block_schedule) (prev current : list Z) (q : Poracle).

Lemma elem_of_guesses p g :
  g ∈ guesses p prev ↔ 0 ≤ g < 256 ∧ ¬ (g = prev !!! p ∧ p = 15%nat).
Proof.
  unfold guesses, CipherBlockLen. rewrite list_elem_of_filter, elem_of_seqZ.
  split.
  - intros [Hg1 Hg2]. split; [lia|]. unfold byte in Hg1. rewrite Z.mod_small in Hg1 by lia. done.
  - intros [Hg1 Hg2]. split; [|lia]. unfold byte. rewrite Z.mod_small by lia. done.
Qed.

Lemma guesses_all p : p ≠ 15%nat → guesses p prev = seqZ 0 256.
Proof.
  intros Hp. unfold guesses, CipherBlockLen. apply filter_all.
  intros g _ [_ ?]. done.
Qed.

Lemma try_unfold p mi g :
  try p prev current mi g = buildPad (Z.of_nat p) g prev mi ++ current.
Proof. reflexivity. Qed.

Lemma try_lookup p mi g (i : nat) :
  (p < 16)%nat → (i < 16)%nat →
  try p prev current mi g !!! i = crafted (Z.of_nat p) g prev mi i.
Proof.
  intros Hp Hi. unfold try.
  rewrite lookup_total_app_l by (rewrite buildPad_length; lia).
  apply buildPad_lookup; lia.
Qed.

(** C7: the channel of guesses holds the bytes [0 .. 255], without
    [prev[15]] at the position 15; every query of the pool is the candidate
    of a guess of the channel, so that at the position 15 no query carries
    the guess [prev[15]]; at the positions below 15 the channel holds all
    256 bytes. *)
Theorem rightmost_exclusion (p : nat) (mi : list Z) (events : list event) :
  (∀ g, g ∈ guesses p prev ↔ 0 ≤ g < 256 ∧ ¬ (p = 15%nat ∧ g = prev !!! 15%nat)) ∧
  (∀ c, c ∈ asked (run_pool p prev current q mi events) →
        ∃ g, g ∈ guesses p prev ∧ c = buildPad (Z.of_nat p) g prev mi ++ current) ∧
  (p = 15%nat →
     ∀ c, c ∈ asked (run_pool p prev current q mi events) → c !!! 15%nat ≠ prev !!! 15%nat) ∧
  ((p < 15)%nat → guesses p prev = seqZ 0 256).
Proof.
  split_and!.
  - intros g. rewrite elem_of_guesses. split; intros [? Hg]; (split; [done|]);
      intros [? ?]; apply Hg; subst; done.
  - intros c (g & Hg & ->)%run_pool_asked. exists g. split; [exact Hg|]. apply try_unfold.
  - intros -> c (g & Hg & ->)%run_pool_asked.
    apply elem_of_guesses in Hg as [? Hg].
    rewrite try_lookup by lia. unfold crafted.
    rewrite decide_False, decide_True by lia. intros ->. by apply Hg.
  - intros Hp. apply guesses_all. lia.
Qed.

Lemma decryptBlock_loop_S p mi :
  decryptBlock_loop (S p) sched prev current q mi =
  let s := run_pool p prev current q mi (sched p) in
  match range_done (done s) 0 false with
  | inl e => mkRun [] (Some e) (asked s)
  | inr (val, found) =>
      if negb found then mkRun [] (Some ErrNoByteFound) (asked s)
      else
        let v := Z.lxor (Z.lxor val (prev !!! p))
                   (byte (byte (Z.of_nat CipherBlockLen) - byte (Z.of_nat p))) in
        let r := decryptBlock_loop p sched prev current q (<[p := v]> mi) in
        mkRun (ret r) (err r) (asked s ++ queries r)
  end.
Proof. reflexivity. Qed.

(** The two failures of the engine at one position. *)
Lemma decryptBlock_loop_failure (p : nat) (mi : list Z) :
  let s := run_pool p prev current q mi (sched p) in
  let r := decryptBlock_loop (S p) sched prev current q mi in
  ((∀ g, g ∈ guesses p prev →
      ∃ res, q (buildPad (Z.of_nat p) g prev mi ++ current) = (res, None) ∧ res ≤ 0) →
   r = mkRun [] (Some ErrNoByteFound) (asked s)) ∧
  (∀ c e, c ∈ asked s → (q c).2 = Some e →
     ∃ c' e', c' ∈ asked s ∧ (q c').2 = Some e' ∧ r = mkRun [] (Some e') (asked s)).
Proof.
  intros s r. subst r. rewrite decryptBlock_loop_S. cbv zeta. fold s. split.
  - intros Hno. assert (done s = []) as ->.
    { destruct (done s) as [|r rs] eqn:Hd; [done|]. exfalso.
      assert (r ∈ done s) as Hr by (rewrite Hd; left).
      apply run_pool_done in Hr as (g & Hg & Hans & _).
      destruct (Hno g Hg) as (res & Hq & Hres).
      rewrite <- try_unfold in Hq.
      unfold answer in Hans. rewrite Hq in Hans.
      rewrite decide_False in Hans by lia. done. }
    done.
  - intros c e Hc He.
    pose proof (run_pool_error _ _ _ _ _ _ _ _ Hc He) as Hin. fold s in Hin.
    destruct (range_done_error (done s) 0 false _ Hin) as [e' He']; [by eexists|].
    rewrite He'. pose proof He' as Hr.
    apply range_done_inl in Hr as (r & Hr & Herr).
    apply run_pool_done in Hr as (g & _ & Hans & Hask).
    exists (try p prev current mi g), e'. split_and!; [done| |done].
    unfold answer in Hans. destruct (q (try p prev current mi g)) as [res [e1|]]; simpl.
    + injection Hans as <-. done.
    + destruct (decide (res > 0)); [|done]. injection Hans as <-. done.
Qed.

(** C4, as amended: at the position 15 every query of the pool leaves the
    bytes [prev[0 .. 14]] as they are, [prev[14]] among them; and when
    [done] holds successes only, the engine confirms the byte from the one
    written last and goes on to the position 14, with no other query. *)
Theorem rightmost_last_write_wins :
  let s := run_pool 15 prev current q (make CipherBlockLen) (sched 15%nat) in
  (∀ c, c ∈ asked s → ∀ i : nat, (i < 15)%nat → c !!! i = prev !!! i) ∧
  (∀ rs r, done s = rs ++ [r] → Forall (λ r, Err r = None) (done s) →
     let v := Z.lxor (Z.lxor (Res r) (prev !!! 15%nat)) 1 in
     let r' := decryptBlock_loop 15 sched prev current q (<[15%nat := v]> (make CipherBlockLen)) in
     decryptBlock sched prev current q = mkRun (ret r') (err r') (asked s ++ queries r')).
Proof.
  intros s. split.
  - intros c (g & Hg & ->)%run_pool_asked i Hi.
    rewrite try_lookup by lia. unfold crafted. rewrite decide_True by lia. done.
  - intros rs r Hd Hok. cbv zeta. rewrite decryptBlock_unfold. unfold CipherBlockLen at 1.
    rewrite decryptBlock_loop_S. cbv zeta. fold s.
    rewrite Hd in Hok |- *. rewrite range_done_last by done. done.
Qed.

End Positions.

(** ** Bytes *)

Ltac xor_bits :=
  apply Z.bits_inj'; intros ? _; rewrite ?Z.lxor_spec;
  repeat match goal with
         | |- context [Z.testbit ?a ?n] => destruct (Z.testbit a n)
         end; reflexivity.

Lemma lxor_cancel_l a b : Z.lxor a (Z.lxor a b) = b.
Proof. xor_bits. Qed.

Lemma lxor_move a b c : Z.lxor a b = c ↔ b = Z.lxor a c.
Proof. split; intros; subst; [|rewrite lxor_cancel_l]; [xor_bits|done]. Qed.

Lemma is_byte_lxor a b : is_byte a → is_byte b → is_byte (Z.lxor a b).
Proof.
  unfold is_byte. intros Ha Hb.
  assert (0 ≤ Z.lxor a b) as H0 by (apply Z.lxor_nonneg; lia).
  split; [done|].
  destruct (decide (Z.lxor a b = 0)) as [->|Hne]; [lia|].
  change 256 with (2 ^ 8). apply Z.log2_lt_pow2; [lia|].
  pose proof (Z.log2_lxor a b) as Hl.
  assert (Z.log2 a < 8).
  { destruct (decide (a = 0)) as [->|?]; [done|]. apply Z.log2_lt_pow2; lia. }
  assert (Z.log2 b < 8).
  { destruct (decide (b = 0)) as [->|?]; [done|]. apply Z.log2_lt_pow2; lia. }
  lia.
Qed.

Lemma is_block_lookup b (i : nat) : is_block b → (i < 16)%nat → is_byte (b !!! i).
Proof.
  intros [Hl Hb] Hi. rewrite Forall_lookup in Hb.
  apply (Hb i). apply list_lookup_lookup_total_lt. rewrite Hl. done.
Qed.

(** ** encoding/hex *)

Lemma fromHexChar_hextable n :
  0 ≤ n < 16 → hex.fromHexChar (hex.hextable !!! Z.to_nat n) = Some n.
Proof.
  intros Hn.
  assert (n = 0 ∨ n = 1 ∨ n = 2 ∨ n = 3 ∨ n = 4 ∨ n = 5 ∨ n = 6 ∨ n = 7 ∨
          n = 8 ∨ n = 9 ∨ n = 10 ∨ n = 11 ∨ n = 12 ∨ n = 13 ∨ n = 14 ∨ n = 15) as H by lia.
  repeat destruct H as [->|H]; try subst n; reflexivity.
Qed.

Lemma DecodeString_EncodeToString bs :
  Forall is_byte bs → hex.DecodeString (hex.EncodeToString bs) = (bs, None).
Proof.
  induction 1 as [|b bs Hb _ IH]; [done|].
  cbn [hex.EncodeToString hex.DecodeString].
  unfold is_byte in Hb.
  rewrite !fromHexChar_hextable by (try apply Z.mod_pos_bound; try (split; [apply Z.div_pos|apply Z.div_lt_upper_bound]); lia).
  rewrite IH. f_equal. f_equal.
  pose proof (Z.div_mod b 16). lia.
Qed.

(** ** Package crypto *)

Lemma BlockXOR_length block key : length (crypto.BlockXOR block key) = length block.
Proof. unfold crypto.BlockXOR. apply length_imap. Qed.

Lemma BlockXOR_lookup block key (i : nat) :
  (i < length block)%nat → length key = length block →
  crypto.BlockXOR block key !!! i = Z.lxor (block !!! i) (key !!! i).
Proof.
  intros Hi Hk. unfold crypto.BlockXOR.
  apply list_lookup_total_correct. rewrite list_lookup_imap.
  rewrite (list_lookup_lookup_total_lt block i) by done. simpl.
  rewrite Hk, Nat.mod_small by done. done.
Qed.

Lemma is_block_BlockXOR a b : is_block a → is_block b → is_block (crypto.BlockXOR a b).
Proof.
  intros Ha Hb. split; [rewrite BlockXOR_length; apply Ha|].
  pose proof Ha as [Hla _]. pose proof Hb as [Hlb _]. unfold CipherBlockLen in Hla, Hlb.
  apply Forall_lookup. intros i x Hx.
  assert (i < 16)%nat as Hi.
  { apply lookup_lt_Some in Hx. rewrite BlockXOR_length in Hx. lia. }
  apply list_lookup_total_correct in Hx. subst x.
  rewrite BlockXOR_lookup by lia.
  apply is_byte_lxor; by apply is_block_lookup.
Qed.

Lemma remove_pad_loop_ok j p m :
  (j ≤ length m)%nat →
  (crypto.remove_pad_loop j p m).2 = None ↔
  ∀ i : nat, (i < j)%nat → m !!! (length m - 1 - i)%nat = byte p.
Proof.
  revert m. induction j as [|j IH]; intros m Hj; cbn [crypto.remove_pad_loop].
  - split; [intros _ i; lia|done].
  - destruct (decide (m !!! (length m - 1)%nat ≠ byte p)) as [Hne|Heq].
    + split; [done|]. intros H. exfalso. apply Hne.
      rewrite <- (H 0%nat) by lia. f_equal. lia.
    + apply dec_stable in Heq.
      rewrite IH by (rewrite length_take; lia).
      rewrite length_take, Nat.min_l by lia.
      split.
      * intros H [|i] Hi; [rewrite <- Heq; f_equal; lia|].
        rewrite <- (H i) by lia. rewrite lookup_total_take, decide_True by lia. f_equal. lia.
      * intros H i Hi. rewrite lookup_total_take, decide_True by lia.
        rewrite <- (H (S i)) by lia. f_equal. lia.
Qed.

Lemma DecryptRemovePCKCS5Pad_ok m :
  (16 ≤ length m)%nat → (crypto.DecryptRemovePCKCS5Pad m).2 = None ↔ valid_pad m.
Proof.
  intros Hm. unfold crypto.DecryptRemovePCKCS5Pad, valid_pad. cbv zeta.
  destruct (decide (m !!! (length m - 1)%nat > 16 ∨ m !!! (length m - 1)%nat < 1)) as [Hbad|Hok].
  - split; [done|]. intros [? _]. lia.
  - rewrite remove_pad_loop_ok by lia.
    unfold byte. rewrite Z.mod_small by lia. split; [intros H; split; [lia|done]|by intros [_ H]].
Qed.

Lemma omap_none {A B} (f : A → option B) (l : list A) :
  (∀ g, g ∈ l → f g = None) → omap f l = [].
Proof.
  induction l as [|x l IH]; intros Hf; [done|]. simpl.
  rewrite Hf by left. apply IH. intros g Hg. apply Hf. by right.
Qed.

Lemma omap_unique {A B} `{EqDecision A} (f : A → option B) (l : list A) (h : A) (r : B) :
  NoDup l → h ∈ l → f h = Some r → (∀ g, g ∈ l → g ≠ h → f g = None) →
  omap f l = [r].
Proof.
  induction 1 as [|x l Hx Hnd IH]; intros Hh Hfh Hf; [by apply elem_of_nil in Hh|].
  simpl. destruct (decide (x = h)) as [->|Hne].
  - rewrite Hfh. f_equal. apply omap_none.
    intros g Hg. apply Hf; [by right|]. intros ->. done.
  - rewrite (Hf x) by (done || left). apply IH.
    + apply elem_of_cons in Hh as [->|?]; done.
    + done.
    + intros g Hg. apply Hf. by right.
Qed.

Lemma is_block_buildPad p g prev mi :
  0 ≤ p < 16 → is_byte g → is_block prev → is_block mi → is_block (buildPad p g prev mi).
Proof.
  intros Hp Hg Hprev Hmi. split; [apply buildPad_length|].
  apply Forall_lookup. intros i x Hx.
  assert (i < 16)%nat as Hi by (apply lookup_lt_Some in Hx; by rewrite buildPad_length in Hx).
  apply list_lookup_total_correct in Hx. subst x.
  rewrite buildPad_lookup by done. unfold crafted.
  repeat case_decide; [by apply is_block_lookup|done|].
  repeat apply is_byte_lxor; [unfold is_byte; lia|by apply is_block_lookup..].
Qed.

Section TrueOracle.
Context (aes : BlockCipher) (key : string) (k : list Z).
Hypothesis Hkey : hex.DecodeString key = (k, None).
Hypothesis Hcipher : NewCipher aes k = None.

Lemma slice_app_l (a b : list Z) : length a = 16%nat → slice (a ++ b) 0 16 = a.
Proof.
  intros H. unfold slice. change (16 - 0)%nat with 16%nat.
  rewrite drop_0. by apply take_app_length'.
Qed.

Lemma slice_app_r (a b : list Z) :
  length a = 16%nat → slice (a ++ b) 16 (length (a ++ b)) = b.
Proof.
  intros H. unfold slice. rewrite drop_app_length' by done.
  rewrite length_app, H. apply take_ge. lia.
Qed.

Lemma slice_block (b : list Z) : length b = 16%nat → slice b (0 * 16) (16 * 0 + 16) = b.
Proof.
  intros H. unfold slice. change (0 * 16)%nat with 0%nat.
  rewrite drop_0. apply take_ge. lia.
Qed.

Lemma CBCDecrypt_two_blocks iv c :
  is_block iv → is_block c →
  crypto.CBCDecrypt aes key (hex.EncodeToString (iv ++ c)) =
  crypto.DecryptRemovePCKCS5Pad (crypto.BlockXOR (BlockDecrypt aes k c) iv).
Proof.
  intros [Hliv Hiv] [Hlc Hc]. unfold crypto.CBCDecrypt.
  rewrite DecodeString_EncodeToString by (by apply Forall_app).
  rewrite Hkey, Hcipher. cbv zeta.
  rewrite slice_app_l, slice_app_r by done.
  rewrite Hlc. change (CipherBlockLen / 16)%nat with 1%nat.
  cbn [seq crypto.CBCDecrypt_loop]. rewrite slice_block by done. done.
Qed.

Lemma remove_pad_loop_err j p m :
  (crypto.remove_pad_loop j p m).2 = None ∨ (crypto.remove_pad_loop j p m).2 = Some ErrInvalidPad.
Proof.
  revert m. induction j as [|j IH]; intros m; cbn [crypto.remove_pad_loop]; [by left|].
  case_decide; [by right|apply IH].
Qed.

Lemma DecryptRemovePCKCS5Pad_err m :
  (crypto.DecryptRemovePCKCS5Pad m).2 = None ∨
  (crypto.DecryptRemovePCKCS5Pad m).2 = Some ErrInvalidPad.
Proof.
  unfold crypto.DecryptRemovePCKCS5Pad. cbv zeta.
  case_decide; [by right|apply remove_pad_loop_err].
Qed.

(** The answer of the test oracle to a query of two blocks. *)
Lemma testOracle_two_blocks iv c :
  is_block iv → is_block c → is_block (BlockDecrypt aes k c) →
  (valid_pad (crypto.BlockXOR (BlockDecrypt aes k c) iv) →
     testOracle aes key (iv ++ c) = (1, None)) ∧
  (¬ valid_pad (crypto.BlockXOR (BlockDecrypt aes k c) iv) →
     testOracle aes key (iv ++ c) = (0, None)).
Proof.
  intros Hiv Hc Hd. unfold testOracle. cbv zeta.
  rewrite CBCDecrypt_two_blocks by done.
  pose proof (DecryptRemovePCKCS5Pad_ok (crypto.BlockXOR (BlockDecrypt aes k c) iv)) as Hok.
  rewrite BlockXOR_length in Hok. destruct Hd as [Hld _]. rewrite Hld in Hok.
  specialize (Hok (reflexivity _)).
  destruct (DecryptRemovePCKCS5Pad_err (crypto.BlockXOR (BlockDecrypt aes k c) iv)) as [E|E];
    rewrite E.
  - split; [done|]. intros Hv. destruct Hv. by apply Hok.
  - split; [|by rewrite decide_True].
    intros Hv. apply Hok in Hv. congruence.
Qed.

Section Block.
Context (prev current : list Z).
Hypothesis Hprev : is_block prev.
Hypothesis Hcurrent : is_block current.
Hypothesis Hinter : is_block (BlockDecrypt aes k current).

#[local] Abbreviation inter := (BlockDecrypt aes k current).
#[local] Abbreviation q := (testOracle aes key).

Lemma answer_true (p : nat) mi g :
  (p < 16)%nat → is_block mi → is_byte g →
  (valid_pad (crypto.BlockXOR inter (buildPad (Z.of_nat p) g prev mi)) →
     answer p prev current q mi g = Some (mkRes None g)) ∧
  (¬ valid_pad (crypto.BlockXOR inter (buildPad (Z.of_nat p) g prev mi)) →
     answer p prev current q mi g = None).
Proof.
  intros Hp Hmi Hg. unfold answer. rewrite try_unfold.
  destruct (testOracle_two_blocks (buildPad (Z.of_nat p) g prev mi) current) as [H1 H2];
    [try apply is_block_buildPad; done || lia..|].
  split; intros Hv.
  - rewrite (H1 Hv). rewrite decide_True by lia. done.
  - rewrite (H2 Hv). rewrite decide_False by lia. done.
Qed.

(** The plaintext the oracle computes for a candidate. *)
Lemma probe_lookup (p : nat) mi g (i : nat) :
  (p < 16)%nat → (i < 16)%nat → is_block mi →
  crypto.BlockXOR inter (buildPad (Z.of_nat p) g prev mi) !!! i =
  Z.lxor (inter !!! i) (crafted (Z.of_nat p) g prev mi i).
Proof.
  intros Hp Hi Hmi. destruct Hinter as [Hl _]. unfold CipherBlockLen in Hl.
  rewrite BlockXOR_lookup by (rewrite ?buildPad_length; lia).
  rewrite buildPad_lookup by lia. done.
Qed.

Lemma valid_pad_left (p : nat) mi g :
  (p < 15)%nat → is_block mi →
  (∀ i : nat, (p < i < 16)%nat → mi !!! i = Z.lxor (inter !!! i) (prev !!! i)) →
  valid_pad (crypto.BlockXOR inter (buildPad (Z.of_nat p) g prev mi)) ↔
  g = Z.lxor (inter !!! p) (16 - Z.of_nat p).
Proof.
  intros Hp Hmi Hrec. unfold valid_pad. cbv zeta.
  rewrite BlockXOR_length. destruct Hinter as [Hl _]. rewrite Hl.
  change (CipherBlockLen - 1)%nat with 15%nat.
  assert (∀ i : nat, (p < i < 16)%nat →
    crypto.BlockXOR inter (buildPad (Z.of_nat p) g prev mi) !!! i = 16 - Z.of_nat p) as Hright.
  { intros i Hi. rewrite probe_lookup by (done || lia). unfold crafted.
    rewrite decide_False, decide_False by lia. rewrite Hrec by done. xor_bits. }
  assert (crypto.BlockXOR inter (buildPad (Z.of_nat p) g prev mi) !!! p = Z.lxor (inter !!! p) g) as Hat.
  { rewrite probe_lookup by (done || lia). unfold crafted.
    rewrite decide_False, decide_True by lia. done. }
  rewrite (Hright 15%nat) by lia.
  split.
  - intros [_ H]. specialize (H (15 - p)%nat).
    replace (15 - (15 - p))%nat with p in H by lia.
    rewrite Hat in H. apply lxor_move. apply H. lia.
  - intros ->. split; [lia|]. intros j Hj.
    destruct (decide (j = 15 - p)%nat) as [->|Hne].
    + replace (15 - (15 - p))%nat with p by lia. rewrite Hat. by rewrite lxor_cancel_l.
    + apply Hright. lia.
Qed.

Lemma answers_left (p : nat) mi :
  (p < 15)%nat → is_block mi →
  (∀ i : nat, (p < i < 16)%nat → mi !!! i = Z.lxor (inter !!! i) (prev !!! i)) →
  answers p prev current q mi = [mkRes None (Z.lxor (inter !!! p) (16 - Z.of_nat p))].
Proof.
  intros Hp Hmi Hrec. unfold answers. rewrite guesses_all by lia.
  assert (is_byte (Z.lxor (inter !!! p) (16 - Z.of_nat p))) as Hh.
  { apply is_byte_lxor; [apply is_block_lookup; done || lia|unfold is_byte; lia]. }
  apply omap_unique with (Z.lxor (inter !!! p) (16 - Z.of_nat p)).
  - apply NoDup_seqZ.
  - apply elem_of_seqZ. unfold is_byte in Hh. lia.
  - apply answer_true; [lia|done|done|]. by apply valid_pad_left.
  - intros g Hg Hne. apply elem_of_seqZ in Hg.
    apply answer_true; [lia|done|unfold is_byte; lia|]. by rewrite valid_pad_left.
Qed.

End Block.
End TrueOracle.

Section Unambiguous.
Context (prev current : list Z) (q : Poracle).



End Unambiguous.


Section Idempotence.
Context (q : Poracle).



End Idempotence.

Section Soundness.
Context (aes : BlockCipher) (key : string) (k : list Z).
Hypothesis Hkey : hex.DecodeString key = (k, None).
Hypothesis Hcipher : NewCipher aes k = None.
Context (prev current : list Z).
Hypothesis Hprev : is_block prev.
Hypothesis Hcurrent : is_block current.
Hypothesis Hinter : is_block (BlockDecrypt aes k current).

#[local] Abbreviation inter := (BlockDecrypt aes k current).
#[local] Abbreviation q := (testOracle aes key).

Lemma is_block_insert mi (p : nat) v : is_block mi → is_byte v → is_block (<[p:=v]> mi).
Proof.
  intros [Hl Hb] Hv. split; [by rewrite length_insert|]. by apply Forall_insert.
Qed.

Lemma is_block_make : is_block (make CipherBlockLen).
Proof. split; [apply length_replicate|]. apply Forall_replicate. unfold is_byte. lia. Qed.

Lemma pad_byte (p : nat) :
  (p < 16)%nat → byte (byte (Z.of_nat CipherBlockLen) - byte (Z.of_nat p)) = 16 - Z.of_nat p.
Proof.
  intros Hp. unfold byte, CipherBlockLen.
  rewrite (Z.mod_small (Z.of_nat p)), (Z.mod_small (Z.of_nat 16)) by lia.
  rewrite Z.mod_small; lia.
Qed.

(** The step of the engine at a position where the only answer is the
    success of the guess that forces the pad [16 - p] on the true
    intermediate byte. *)
Lemma decryptBlock_loop_confirm sched (p : nat) mi :
  (p < 16)%nat →
  answers p prev current q mi = [mkRes None (Z.lxor (inter !!! p) (16 - Z.of_nat p))] →
  decryptBlock_loop (S p) sched prev current q mi =
  let s := run_pool p prev current q mi (sched p) in
  let r := decryptBlock_loop p sched prev current q
             (<[p := Z.lxor (inter !!! p) (prev !!! p)]> mi) in
  mkRun (ret r) (err r) (asked s ++ queries r).
Proof.
  intros Hp Hans. rewrite decryptBlock_loop_S. cbv zeta.
  rewrite run_pool_unambiguous by (by rewrite Hans).
  rewrite Hans. cbn [range_done Err Res negb]. rewrite pad_byte by done.
  replace (Z.lxor (Z.lxor (Z.lxor (inter !!! p) (16 - Z.of_nat p)) (prev !!! p)) (16 - Z.of_nat p))
    with (Z.lxor (inter !!! p) (prev !!! p)) by xor_bits.
  done.
Qed.

Lemma decryptBlock_loop_sound sched (n : nat) mi :
  (n ≤ 15)%nat → is_block mi →
  (∀ i : nat, (n ≤ i < 16)%nat → mi !!! i = Z.lxor (inter !!! i) (prev !!! i)) →
  let r := decryptBlock_loop n sched prev current q mi in
  err r = None ∧ ret r = crypto.BlockXOR inter prev.
Proof.
  revert mi. induction n as [|p IH]; intros mi Hn Hmi Hrec.
  - split; [done|]. cbn [decryptBlock_loop ret].
    pose proof Hmi as [Hl _]. pose proof Hinter as [HlI _]. pose proof Hprev as [Hlp _].
    unfold CipherBlockLen in *.
    apply list_eq_same_length with 16%nat; [by rewrite BlockXOR_length|done|].
    intros i x y Hi Hx Hy.
    apply list_lookup_total_correct in Hx, Hy. subst x y.
    rewrite BlockXOR_lookup by lia. apply Hrec. lia.
  - rewrite decryptBlock_loop_confirm; [|lia|apply answers_left; done || lia].
    cbv zeta. run_simpl. apply IH; [lia| |].
    + apply is_block_insert; [done|].
      apply is_byte_lxor; apply is_block_lookup; done || lia.
    + pose proof Hmi as [Hl _]. unfold CipherBlockLen in Hl.
      intros i Hi. destruct (decide (i = p)) as [->|Hne].
      * rewrite list_lookup_total_insert_eq by lia. done.
      * rewrite list_lookup_total_insert_ne by done. apply Hrec. lia.
Qed.

(** The engine returns the plaintext of the block when, at the last
    position, the only guess of the channel that the oracle accepts is the
    one that forces the pad [01]. *)
Lemma decryptBlock_sound (sched : block_schedule) :
  answers 15 prev current q (make CipherBlockLen) =
    [mkRes None (Z.lxor (inter !!! 15%nat) 1)] →
  err (decryptBlock sched prev current q) = None ∧
  ret (decryptBlock sched prev current q) = crypto.BlockXOR inter prev.
Proof.
  intros H15. rewrite decryptBlock_unfold. unfold CipherBlockLen at 1 3.
  rewrite decryptBlock_loop_confirm; [|lia|exact H15].
  cbv zeta. run_simpl. apply decryptBlock_loop_sound; [lia| |].
  - apply is_block_insert; [apply is_block_make|].
    apply is_byte_lxor; apply is_block_lookup; done || lia.
  - intros i Hi. assert (i = 15%nat) as -> by lia.
    rewrite list_lookup_total_insert_eq; [done|]. unfold make. rewrite length_replicate.
    unfold CipherBlockLen. lia.
Qed.

End Soundness.

Section Rightmost.
Context (aes : BlockCipher) (key : string) (k : list Z).
Hypothesis Hkey : hex.DecodeString key = (k, None).
Hypothesis Hcipher : NewCipher aes k = None.
Context (prev current : list Z).
Hypothesis Hprev : is_block prev.
Hypothesis Hcurrent : is_block current.
Hypothesis Hinter : is_block (BlockDecrypt aes k current).

#[local] Abbreviation inter := (BlockDecrypt aes k current).
#[local] Abbreviation q := (testOracle aes key).

(** When the plaintext of the block ends in [01] and its byte before is no
    pad of a length from 2 to 16, no guess of the channel of the last
    position is accepted: the one that gives the pad [01] is [prev[15]]. *)
Lemma rightmost_rejected g :
  Z.lxor (inter !!! 15%nat) (prev !!! 15%nat) = 1 →
  ¬ (2 ≤ Z.lxor (inter !!! 14%nat) (prev !!! 14%nat) ≤ 16) →
  g ∈ guesses 15 prev →
  q (buildPad 15 g prev (make CipherBlockLen) ++ current) = (0, None).
Proof.
  intros H15 H14 [Hg Hne]%elem_of_guesses.
  apply (testOracle_two_blocks aes key k Hkey Hcipher); try done.
  { apply is_block_buildPad; [lia|done|done|apply is_block_make]. }
  unfold valid_pad. cbv zeta. rewrite BlockXOR_length.
  destruct Hinter as [Hl _]. rewrite Hl. change (CipherBlockLen - 1)%nat with 15%nat.
  pose proof (probe_lookup aes k prev current Hinter 15 (make CipherBlockLen) g) as Hprobe.
  change (Z.of_nat 15) with 15 in Hprobe.
  rewrite (Hprobe 15%nat) by (lia || apply is_block_make).
  unfold crafted. rewrite decide_False, decide_True by lia.
  intros [Ht Hall].
  assert (Z.lxor (inter !!! 15%nat) g ≠ 1) as Hne1.
  { intros E. apply Hne. split; [|done]. apply lxor_move in E. apply lxor_move in H15.
    rewrite E, H15. done. }
  specialize (Hall 1%nat). change (15 - 1)%nat with 14%nat in Hall.
  rewrite (Hprobe 14%nat) in Hall by (lia || apply is_block_make).
  unfold crafted in Hall. rewrite decide_True in Hall by lia.
  apply H14. rewrite Hall by lia. lia.
Qed.

Lemma decryptBlock_rightmost_NoByteFound sched :
  Z.lxor (inter !!! 15%nat) (prev !!! 15%nat) = 1 →
  ¬ (2 ≤ Z.lxor (inter !!! 14%nat) (prev !!! 14%nat) ≤ 16) →
  let r := decryptBlock sched prev current q in
  ret r = [] ∧ err r = Some ErrNoByteFound.
Proof.
  intros H15 H14. cbv zeta. rewrite decryptBlock_unfold. unfold CipherBlockLen at 1 3.
  pose proof (decryptBlock_loop_failure sched prev current q 15 (make CipherBlockLen)) as [Hf _].
  cbv zeta in Hf. rewrite Hf; [by run_simpl|].
  intros g Hg. exists 0. split; [|done]. by apply rightmost_rejected.
Qed.

End Rightmost.

(** ** The last position under the oracle of the tests *)


Section RightmostUnique.
Context (aes : BlockCipher) (key : string) (k : list Z).
Hypothesis Hkey : hex.DecodeString key = (k, None).
Hypothesis Hcipher : NewCipher aes k = None.
Context (prev current : list Z).
Hypothesis Hprev : is_block prev.
Hypothesis Hcurrent : is_block current.
Hypothesis Hinter : is_block (BlockDecrypt aes k current).

#[local] Abbreviation inter := (BlockDecrypt aes k current).
#[local] Abbreviation q := (testOracle aes key).

Lemma valid_pad_rightmost g :
  is_byte g →
  valid_pad (crypto.BlockXOR inter (buildPad 15 g prev (make CipherBlockLen))) ↔
  Z.lxor (inter !!! 15%nat) g = 1 ∨
  ∃ t : nat, (2 ≤ t ≤ 16)%nat ∧ Z.lxor (inter !!! 15%nat) g = Z.of_nat t ∧
    ∀ j : nat, (1 ≤ j < t)%nat →
      Z.lxor (inter !!! (15 - j)%nat) (prev !!! (15 - j)%nat) = Z.of_nat t.
Proof.
  intros Hg. unfold valid_pad. cbv zeta. rewrite BlockXOR_length.
  destruct Hinter as [Hl _]. rewrite Hl. change (CipherBlockLen - 1)%nat with 15%nat.
  pose proof (probe_lookup aes k prev current Hinter 15 (make CipherBlockLen) g) as Hprobe.
  change (Z.of_nat 15) with 15 in Hprobe.
  assert (crypto.BlockXOR inter (buildPad 15 g prev (make CipherBlockLen)) !!! 15%nat =
          Z.lxor (inter !!! 15%nat) g) as H15.
  { rewrite Hprobe by (lia || apply is_block_make).
    unfold crafted. rewrite decide_False, decide_True by lia. done. }
  assert (∀ j : nat, (1 ≤ j ≤ 15)%nat →
          crypto.BlockXOR inter (buildPad 15 g prev (make CipherBlockLen)) !!! (15 - j)%nat =
          Z.lxor (inter !!! (15 - j)%nat) (prev !!! (15 - j)%nat)) as Hleft.
  { intros j Hj. rewrite Hprobe by (lia || apply is_block_make).
    unfold crafted. rewrite decide_True by lia. done. }
  rewrite H15. split.
  - intros [Ht Hall].
    destruct (decide (Z.lxor (inter !!! 15%nat) g = 1)) as [|Hne]; [by left|right].
    exists (Z.to_nat (Z.lxor (inter !!! 15%nat) g)). split; [lia|split; [lia|]].
    intros j Hj. rewrite <- Hleft by lia. rewrite Hall by lia. lia.
  - intros [E|(t & Ht & E & Hall)]; rewrite E.
    + split; [lia|]. intros j Hj. assert (j = 0%nat) as -> by lia.
      change (15 - 0)%nat with 15%nat. by rewrite H15.
    + split; [lia|]. intros j Hj.
      destruct (decide (j = 0%nat)) as [->|Hne].
      * change (15 - 0)%nat with 15%nat. by rewrite H15.
      * rewrite Hleft by lia. apply Hall. lia.
Qed.

Lemma answers_rightmost :
  rightmost_ok (crypto.BlockXOR inter prev) →
  answers 15 prev current q (make CipherBlockLen) =
    [mkRes None (Z.lxor (inter !!! 15%nat) 1)].
Proof.
  intros [H15 H14].
  pose proof Hinter as [HlI _]. pose proof Hprev as [Hlp _]. unfold CipherBlockLen in HlI, Hlp.
  rewrite (BlockXOR_lookup inter prev 15) in H15, H14 by lia.
  rewrite (BlockXOR_lookup inter prev 14) in H14 by lia.
  assert (is_byte (Z.lxor (inter !!! 15%nat) 1)) as Hh.
  { apply is_byte_lxor; [apply is_block_lookup; done || lia|unfold is_byte; lia]. }
  unfold answers. apply omap_unique with (Z.lxor (inter !!! 15%nat) 1).
  - apply NoDup_filter, NoDup_seqZ.
  - apply elem_of_guesses. split; [exact Hh|]. intros [E _]. apply H15.
    rewrite <- E. apply lxor_cancel_l.
  - apply (answer_true aes key k Hkey Hcipher prev current Hprev Hcurrent Hinter);
      [lia|apply is_block_make|done|].
    apply valid_pad_rightmost; [done|]. left. apply lxor_cancel_l.
  - intros g [Hg Hex]%elem_of_guesses Hne.
    apply (answer_true aes key k Hkey Hcipher prev current Hprev Hcurrent Hinter);
      [lia|apply is_block_make|done|].
    rewrite valid_pad_rightmost by done. intros [E|(t & Ht & E & Hall)].
    + apply Hne. by apply lxor_move in E.
    + specialize (Hall 1%nat). change (15 - 1)%nat with 14%nat in Hall.
      rewrite Hall in H14 by lia. destruct H14 as [H14|H14]; [lia|].
      apply Hex. split; [|done]. rewrite H14 in E.
      rewrite <- (lxor_cancel_l (inter !!! 15%nat) g), E. apply lxor_cancel_l.
Qed.



End RightmostUnique.

Lemma lxor_cancel_r a b : Z.lxor (Z.lxor a b) b = a.
Proof. xor_bits. Qed.

Lemma block_pair_first (a b : list Z) :
  length a = 16%nat → length b = 16%nat →
  slice (a ++ b) ((1 - 1) * CipherBlockLen) (CipherBlockLen * (1 - 1) + CipherBlockLen) = a ∧
  slice (a ++ b) (CipherBlockLen * 1) (CipherBlockLen * 1 + CipherBlockLen) = b.
Proof.
  intros Ha Hb. unfold slice, CipherBlockLen.
  change ((1 - 1) * 16)%nat with 0%nat. change (16 * (1 - 1) + 16 - 0)%nat with 16%nat.
  change (16 * 1 + 16 - 16 * 1)%nat with 16%nat. change (16 * 1)%nat with 16%nat.
  rewrite drop_0. split.
  - by apply take_app_length'.
  - rewrite drop_app_length' by done. apply take_ge. lia.
Qed.

Section Pad1.
Context (aes : BlockCipher) (hiv key : string) (iv k msg : list Z) (sched : schedule).
Hypothesis Hkey : hex.DecodeString key = (k, None).
Hypothesis Hcipher : NewCipher aes k = None.
Hypothesis Hhiv : hex.DecodeString hiv = (iv, None).
Hypothesis Hiv : is_block iv.
Hypothesis Hlen : length msg = 15%nat.
Hypothesis Hmsg : Forall is_byte msg.

Lemma PCKCS5Pad_15 : crypto.PCKCS5Pad msg = msg ++ [1].
Proof. unfold crypto.PCKCS5Pad. rewrite Hlen. done. Qed.

Lemma is_block_padded : is_block (crypto.PCKCS5Pad msg).
Proof.
  rewrite PCKCS5Pad_15. split.
  - rewrite length_app, Hlen. done.
  - apply Forall_app. split; [done|]. repeat constructor; unfold is_byte; lia.
Qed.

Lemma CBCEncrypt_one_block :
  crypto.CBCEncrypt aes hiv key msg =
  (hex.EncodeToString
     (iv ++ BlockEncrypt aes k (crypto.BlockXOR (crypto.PCKCS5Pad msg) iv)), None).
Proof.
  unfold crypto.CBCEncrypt. rewrite Hkey, Hcipher, Hhiv. cbv zeta.
  destruct is_block_padded as [Hl _]. rewrite Hl.
  change (CipherBlockLen / 16)%nat with 1%nat. cbn [seq crypto.CBCEncrypt_loop].
  rewrite slice_block by done. done.
Qed.

End Pad1.

(** C1, where the code fails it: for a text of fifteen bytes whose last
    byte is not in [2, 16], under any key and IV and any block cipher that
    decrypts what it encrypted, [Decrypt] on the result of [CBCEncrypt]
    with the oracle of the tests returns the empty string and the error for
    a byte not found, and not the padded text. *)
Theorem Decrypt_pad1_NoByteFound (aes : BlockCipher) (hiv key : string)
    (iv k msg : list Z) (sched : schedule) :
  hex.DecodeString key = (k, None) → NewCipher aes k = None →
  hex.DecodeString hiv = (iv, None) → is_block iv →
  length msg = 15%nat → Forall is_byte msg → ¬ (2 ≤ msg !!! 14%nat ≤ 16) →
  let x := BlockEncrypt aes k (crypto.BlockXOR (crypto.PCKCS5Pad msg) iv) in
  is_block x → BlockDecrypt aes k x = crypto.BlockXOR (crypto.PCKCS5Pad msg) iv →
  let c := (hex.DecodeString (crypto.CBCEncrypt aes hiv key msg).1).1 in
  let r := Decrypt sched c (testOracle aes key) in
  (crypto.CBCEncrypt aes hiv key msg).2 = None ∧ ¬ malformed c ∧
  ret r = [] ∧ err r = Some ErrNoByteFound ∧ ret r ≠ crypto.PCKCS5Pad msg.
Proof.
  intros Hkey Hcipher Hhiv Hiv Hlen Hmsg H14 x Hx Hdec c r.
  assert (c = iv ++ x) as Hc.
  { subst c. rewrite (CBCEncrypt_one_block aes hiv key iv k msg) by done.
    cbn [fst]. rewrite DecodeString_EncodeToString; [done|].
    apply Forall_app. split; [apply Hiv|apply Hx]. }
  pose proof Hiv as [Hliv _]. pose proof Hx as [Hlx _]. unfold CipherBlockLen in Hliv, Hlx.
  assert (length c = 32%nat) as Hlc by (rewrite Hc, length_app; lia).
  assert (ret r = [] ∧ err r = Some ErrNoByteFound) as [Hret Herr].
  { subst r. unfold Decrypt. cbv zeta. rewrite Hlc.
    change (32 / CipherBlockLen)%nat with 2%nat.
    change (32 mod CipherBlockLen)%nat with 0%nat.
    rewrite decide_False by lia. rewrite decide_False by (intros H; by apply H).
    change (seq 1 (2 - 1)) with [1%nat].
    destruct (block_pair_first iv x Hliv Hlx) as [Hc0 Hc1].
    destruct (decryptBlock_rightmost_NoByteFound aes key k Hkey Hcipher iv x Hiv Hx)
      with (sched := sched 1%nat) as [Hr He].
    - rewrite Hdec. by apply is_block_BlockXOR, Hiv; apply is_block_padded.
    - rewrite Hdec. pose proof (is_block_padded msg Hlen Hmsg) as [Hlp _].
      rewrite BlockXOR_lookup by (rewrite ?Hlp; unfold CipherBlockLen; lia).
      rewrite lxor_cancel_r. rewrite PCKCS5Pad_15 by done.
      rewrite lookup_total_app_r by lia. rewrite Hlen. done.
    - rewrite Hdec. pose proof (is_block_padded msg Hlen Hmsg) as [Hlp _].
      rewrite BlockXOR_lookup by (rewrite ?Hlp; unfold CipherBlockLen; lia).
      rewrite lxor_cancel_r. rewrite PCKCS5Pad_15 by done.
      rewrite lookup_total_app_l by lia. done.
    - rewrite Hc. rewrite <- Hc0 in He at 1. rewrite <- Hc1 in He at 2.
      rewrite (Decrypt_loop_abort _ _ _ _ _ _ _ He). by run_simpl. }
  split_and!; [|intros [Hm|Hm]; unfold CipherBlockLen in Hm; rewrite Hlc in Hm; [lia|done]|done|done|].
  - by rewrite (CBCEncrypt_one_block aes hiv key iv k msg).
  - rewrite Hret, PCKCS5Pad_15 by done. by destruct msg.
Qed.


Ltac by_compute := vm_compute; reflexivity.
Ltac decide_compute := apply (bool_decide_unpack _); vm_compute; exact I.

Lemma test_key_ok :
  hex.DecodeString test_key = (test_key_bytes, None) ∧ NewCipher aes.cipher test_key_bytes = None.
Proof. split; by_compute. Qed.

Lemma Encrypt_unfold sched txt q :
  Encrypt sched txt q =
  Encrypt_loop (length (crypto.PCKCS5Pad txt) / CipherBlockLen) sched (crypto.PCKCS5Pad txt) q
    (make CipherBlockLen) (make CipherBlockLen) (make CipherBlockLen).
Proof. reflexivity. Qed.

Lemma zero_block_facts :
  is_block zero_inter ∧
  answers 15 (make CipherBlockLen) (make CipherBlockLen) test_oracle (make CipherBlockLen) =
    [mkRes None (Z.lxor (zero_inter !!! 15%nat) 1)].
Proof. split; [decide_compute|by_compute]. Qed.

Lemma encrypt_c1_facts :
  (length (crypto.PCKCS5Pad msg_encrypt) / CipherBlockLen)%nat = 2%nat ∧
  is_block encrypt_c1 ∧
  is_block (BlockDecrypt aes.cipher test_key_bytes encrypt_c1) ∧
  Z.lxor (BlockDecrypt aes.cipher test_key_bytes encrypt_c1 !!! 15%nat)
    (make CipherBlockLen !!! 15%nat) = 1 ∧
  ¬ (2 ≤ Z.lxor (BlockDecrypt aes.cipher test_key_bytes encrypt_c1 !!! 14%nat)
           (make CipherBlockLen !!! 14%nat) ≤ 16).
Proof.
  split_and!; [by_compute|decide_compute|decide_compute|by_compute|].
  vm_compute. intros [H1 H2]. by apply H2.
Qed.

(** C2, where the code fails it: under AES with the key of the tests,
    [Encrypt] on the text [msg_encrypt] returns nil and the error for a byte
    not found, under every schedule, and so no ciphertext that decrypts to
    the text. *)
Theorem Encrypt_second_block_NoByteFound (sched : schedule) :
  let r := Encrypt sched msg_encrypt test_oracle in
  ret r = [] ∧ err r = Some ErrNoByteFound.
Proof.
  destruct test_key_ok as [Hkey Hcipher].
  destruct zero_block_facts as [Hi0 Hans].
  destruct encrypt_c1_facts as (Hn & Hc1 & Hi1 & H15 & H14).
  pose proof is_block_make as Hz.
  destruct (decryptBlock_sound aes.cipher test_key test_key_bytes Hkey Hcipher
              _ _ Hz Hz Hi0 (sched 1%nat) Hans) as [He1 Hr1].
  destruct (decryptBlock_rightmost_NoByteFound aes.cipher test_key test_key_bytes Hkey Hcipher
              _ _ Hz Hc1 Hi1 (sched 0%nat) H15 H14) as [Hr2 He2].
  clear Hans Hi0 Hi1 H15 H14 Hc1.
  cbv zeta. rewrite Encrypt_unfold, Hn.
  rewrite (Encrypt_loop_next _ _ _ _ _ _ _ He1). cbv zeta.
  rewrite Hr1.
  rewrite (Encrypt_loop_abort _ _ _ _ _ _ _ _ He2).
  rewrite !ret_mkRun.
  rewrite !err_mkRun.
  split.
  reflexivity.
  reflexivity.
Qed.

Lemma hello_ct_encrypted : encrypted msg_hello = hello_ct.
Proof. by_compute. Qed.

Lemma amb_ct_encrypted : encrypted msg_amb = amb_ct.
Proof. by_compute. Qed.

(** C3, as amended: for blocks [prev] and [current] and the oracle that
    wraps the decryptor, when the only guess of the channel that the oracle
    accepts at the position 15 is the one that forces the pad [01], the
    engine returns without error the sixteen bytes
    [I(current)[j] XOR prev[j]]: the plaintext of the block, from which the
    intermediate block is the XOR with [prev]. *)
Theorem decryptBlock_recovers_plaintext (aes : BlockCipher) (key : string)
    (k prev current : list Z) (sched : block_schedule) :
  hex.DecodeString key = (k, None) → NewCipher aes k = None →
  is_block prev → is_block current → is_block (BlockDecrypt aes k current) →
  answers 15 prev current (testOracle aes key) (make CipherBlockLen) =
    [mkRes None (Z.lxor (BlockDecrypt aes k current !!! 15%nat) 1)] →
  let r := decryptBlock sched prev current (testOracle aes key) in
  err r = None ∧ ret r = crypto.BlockXOR (BlockDecrypt aes k current) prev ∧
  ∀ j : nat, (j < CipherBlockLen)%nat →
    ret r !!! j = Z.lxor (BlockDecrypt aes k current !!! j) (prev !!! j).
Proof.
  intros Hkey Hcipher Hprev Hcurrent Hinter H15. cbv zeta.
  destruct (decryptBlock_sound aes key k Hkey Hcipher prev current Hprev Hcurrent Hinter
              sched H15) as [He Hr].
  split_and!; [done|done|].
  intros j Hj. rewrite Hr. apply BlockXOR_lookup.
  - destruct Hinter as [-> _]. done.
  - destruct Hinter as [-> _], Hprev as [-> _]. done.
Qed.

Lemma hello_facts :
  is_block hello_c0 ∧ is_block hello_c1 ∧
  is_block (BlockDecrypt aes.cipher test_key_bytes hello_c1) ∧
  answers 15 hello_c0 hello_c1 test_oracle (make CipherBlockLen) =
    [mkRes None (Z.lxor (BlockDecrypt aes.cipher test_key_bytes hello_c1 !!! 15%nat) 1)].
Proof. split_and!; [decide_compute..|by_compute]. Qed.

Lemma decryptBlock_recovers_plaintext_witness :
  err (decryptBlock (sequential 1%nat) hello_c0 hello_c1 test_oracle) = None ∧
  ret (decryptBlock (sequential 1%nat) hello_c0 hello_c1 test_oracle) =
    crypto.BlockXOR (BlockDecrypt aes.cipher test_key_bytes hello_c1) hello_c0 ∧
  ∀ j : nat, (j < CipherBlockLen)%nat →
    ret (decryptBlock (sequential 1%nat) hello_c0 hello_c1 test_oracle) !!! j =
    Z.lxor (BlockDecrypt aes.cipher test_key_bytes hello_c1 !!! j) (hello_c0 !!! j).
Proof.
  apply (decryptBlock_recovers_plaintext aes.cipher test_key test_key_bytes
           hello_c0 hello_c1 (sequential 1%nat)).
  - by_compute.
  - by_compute.
  - decide_compute.
  - decide_compute.
  - decide_compute.
  - by_compute.
Defined.

(** The engine returns the plaintext of the block of the first test, which
    is not the intermediate block. *)
Lemma decryptBlock_returns_plaintext_cex :
  ret (decryptBlock (sequential 1%nat) hello_c0 hello_c1 test_oracle) =
    crypto.PCKCS5Pad msg_hello ∧
  ret (decryptBlock (sequential 1%nat) hello_c0 hello_c1 test_oracle) !!! 0%nat ≠
    BlockDecrypt aes.cipher test_key_bytes hello_c1 !!! 0%nat.
Proof.
  destruct test_key_ok as [Hkey Hcipher].
  destruct hello_facts as (H0 & H1 & Hi & Hans).
  destruct (decryptBlock_sound aes.cipher test_key test_key_bytes Hkey Hcipher
              _ _ H0 H1 Hi (sequential 1%nat) Hans) as [_ Hr].
  rewrite Hr. split; [by_compute|]. vm_compute. discriminate.
Qed.

(** ** Instances *)

Lemma buildPad_spec_witness :
  length (buildPad 13 7 (seqZ 100 16) (seqZ 200 16)) = CipherBlockLen ∧
  ∀ i : nat, (i < CipherBlockLen)%nat →
    (Z.of_nat i > 13 →
       buildPad 13 7 (seqZ 100 16) (seqZ 200 16) !!! i =
       Z.lxor (Z.lxor (16 - 13) (seqZ 200 16 !!! i)) (seqZ 100 16 !!! i)) ∧
    (Z.of_nat i = 13 → buildPad 13 7 (seqZ 100 16) (seqZ 200 16) !!! i = 7) ∧
    (Z.of_nat i < 13 → buildPad 13 7 (seqZ 100 16) (seqZ 200 16) !!! i = seqZ 100 16 !!! i).
Proof.
  apply (buildPad_spec 13 7 (seqZ 100 16) (seqZ 200 16)).
  - lia.
  - reflexivity.
  - reflexivity.
Defined.

Lemma Decrypt_rejects_malformed_witness :
  Decrypt sequential (make 15) test_oracle = mkRun [] (Some ErrInvalidCiphertext) [] ∧
  Decrypt sequential (make 16) test_oracle = mkRun [] (Some ErrInvalidCiphertext) [] ∧
  queries (Decrypt sequential hello_ct test_oracle) ≠ [].
Proof.
  split_and!.
  - apply (Decrypt_rejects_malformed sequential test_oracle (make 15)).
    left. vm_compute. lia.
  - apply (Decrypt_rejects_malformed sequential test_oracle (make 16)).
    right. reflexivity.
  - apply (Decrypt_rejects_malformed sequential test_oracle hello_ct).
    intros [H|H]; vm_compute in H; [lia|by apply H].
Defined.

Lemma rightmost_exclusion_witness :
  Forall (λ c, c !!! 15%nat ≠ hello_c0 !!! 15%nat)
    (asked (run_pool 15 hello_c0 hello_c1 test_oracle (make CipherBlockLen)
              (in_order 1%nat 15%nat))).
Proof.
  apply Forall_forall.
  apply (rightmost_exclusion hello_c0 hello_c1 test_oracle 15 (make CipherBlockLen)
           (in_order 1%nat 15%nat)).
  reflexivity.
Defined.

Lemma driver_error_atomicity_witness :
  ret (Decrypt sequential (make 32) never_valid) = [] ∧
  ret (Encrypt sequential msg_hello never_valid) = [].
Proof.
  split.
  - apply (driver_error_atomicity sequential never_valid (make 32) msg_hello ErrNoByteFound).
    by_compute.
  - apply (driver_error_atomicity sequential never_valid (make 32) msg_hello ErrNoByteFound).
    by_compute.
Defined.


(** At the last position of the first block of [amb_ct] two guesses are
    reported valid, and no query before the byte is confirmed has another
    byte than [C0[14]] at index 14. *)
Lemma no_disambiguation_cex :
  done (run_pool 15 amb_c0 amb_c1 test_oracle (make CipherBlockLen) (in_order 1%nat 15%nat)) =
    [mkRes None 52; mkRes None 55] ∧
  ¬ Exists (λ c, c !!! 14%nat ≠ amb_c0 !!! 14%nat)
      (asked (run_pool 15 amb_c0 amb_c1 test_oracle (make CipherBlockLen)
                (in_order 1%nat 15%nat))).
Proof. split; [by_compute|decide_compute]. Qed.

Lemma rightmost_last_write_wins_witness :
  decryptBlock (in_order 1%nat) amb_c0 amb_c1 test_oracle =
  mkRun
    (ret (decryptBlock_loop 15 (in_order 1%nat) amb_c0 amb_c1 test_oracle
            (<[15%nat := Z.lxor (Z.lxor 55 (amb_c0 !!! 15%nat)) 1]> (make CipherBlockLen))))
    (err (decryptBlock_loop 15 (in_order 1%nat) amb_c0 amb_c1 test_oracle
            (<[15%nat := Z.lxor (Z.lxor 55 (amb_c0 !!! 15%nat)) 1]> (make CipherBlockLen))))
    (asked (run_pool 15 amb_c0 amb_c1 test_oracle (make CipherBlockLen) (in_order 1%nat 15%nat))
     ++ queries (decryptBlock_loop 15 (in_order 1%nat) amb_c0 amb_c1 test_oracle
            (<[15%nat := Z.lxor (Z.lxor 55 (amb_c0 !!! 15%nat)) 1]> (make CipherBlockLen)))).
Proof.
  apply (proj2 (rightmost_last_write_wins (in_order 1%nat) amb_c0 amb_c1 test_oracle)
           [mkRes None 52] (mkRes None 55)).
  - by_compute.
  - decide_compute.
Defined.
















Lemma Decrypt_pad1_NoByteFound_witness :
  (crypto.CBCEncrypt aes.cipher test_iv test_key msg_pad1).2 = None ∧
  ¬ malformed (encrypted msg_pad1) ∧
  ret (Decrypt sequential (encrypted msg_pad1) test_oracle) = [] ∧
  err (Decrypt sequential (encrypted msg_pad1) test_oracle) = Some ErrNoByteFound ∧
  ret (Decrypt sequential (encrypted msg_pad1) test_oracle) ≠ crypto.PCKCS5Pad msg_pad1.
Proof.
  apply (Decrypt_pad1_NoByteFound aes.cipher test_iv test_key test_iv_bytes test_key_bytes
           msg_pad1 sequential).
  - by_compute.
  - by_compute.
  - by_compute.
  - decide_compute.
  - reflexivity.
  - decide_compute.
  - vm_compute. intros [_ H]. by apply H.
  - decide_compute.
  - by_compute.
Defined.

(** * Further properties of the two packages *)

(** ** Padding *)

Lemma pad_count (n : nat) : (1 ≤ 16 - n mod 16 ≤ 16)%nat.
Proof. pose proof (Nat.mod_upper_bound n 16). lia. Qed.

(** X1: [PCKCS5Pad] appends to the text [r] bytes of value [r], where [r],
    the number of bytes it adds, is from 1 to 16, and the length of the
    result is a multiple of 16. *)
Theorem PCKCS5Pad_shape (m : list Z) :
  let r := (length (crypto.PCKCS5Pad m) - length m)%nat in
  crypto.PCKCS5Pad m = m ++ replicate r (Z.of_nat r) ∧
  (1 ≤ r ≤ 16)%nat ∧
  (length (crypto.PCKCS5Pad m) mod 16 = 0)%nat.
Proof.
  cbv zeta. unfold crypto.PCKCS5Pad. cbv zeta.
  pose proof (pad_count (length m)) as Hr.
  rewrite length_app, length_replicate.
  replace (length m + (16 - length m mod 16) - length m)%nat
    with (16 - length m mod 16)%nat by lia.
  split; [|split; [lia|]].
  - f_equal. f_equal. unfold byte. apply Z.mod_small. lia.
  - pose proof (Nat.div_mod_eq (length m) 16) as Hd.
    replace (length m + (16 - length m mod 16))%nat
      with ((length m / 16 + 1) * 16)%nat by lia.
    apply Nat.Div0.mod_mul.
Qed.

Lemma remove_pad_loop_replicate (j : nat) (p : Z) (m : list Z) :
  crypto.remove_pad_loop j p (m ++ replicate j (byte p)) = (m, None).
Proof.
  induction j as [|j IH]; cbn [crypto.remove_pad_loop].
  - by rewrite app_nil_r.
  - rewrite replicate_S_end, app_assoc.
    rewrite length_app. cbn [length].
    replace (length (m ++ replicate j (byte p)) + 1 - 1)%nat
      with (length (m ++ replicate j (byte p))) by lia.
    rewrite lookup_total_app_r by lia. rewrite Nat.sub_diag. cbn.
    rewrite decide_False by (intros H; by apply H).
    rewrite take_app_length. apply IH.
Qed.

(** X2: on the result of [PCKCS5Pad], for any text,
    [DecryptRemovePCKCS5Pad] and [RemovePCKCS5Pad] return the text and no
    error. *)
Theorem PCKCS5Pad_removed (m : list Z) :
  crypto.DecryptRemovePCKCS5Pad (crypto.PCKCS5Pad m) = (m, None) ∧
  crypto.RemovePCKCS5Pad (crypto.PCKCS5Pad m) = (m, None).
Proof.
  assert (crypto.DecryptRemovePCKCS5Pad (crypto.PCKCS5Pad m) = (m, None)) as H; [|done].
  unfold crypto.DecryptRemovePCKCS5Pad, crypto.PCKCS5Pad. cbv zeta.
  pose proof (pad_count (length m)) as Hr.
  set (r := (16 - length m mod 16)%nat) in *.
  assert (byte (Z.of_nat r) = Z.of_nat r) as Hb by (unfold byte; apply Z.mod_small; lia).
  rewrite Hb.
  assert ((m ++ replicate r (Z.of_nat r)) !!! (length (m ++ replicate r (Z.of_nat r)) - 1)%nat
          = Z.of_nat r) as ->.
  { rewrite length_app, length_replicate. rewrite lookup_total_app_r by lia.
    apply list_lookup_total_correct. apply lookup_replicate_2. lia. }
  rewrite decide_False by lia. rewrite Nat2Z.id.
  rewrite <- Hb at 2. rewrite <- Hb at 2. rewrite Hb at 1.
  pose proof (remove_pad_loop_replicate r (Z.of_nat r) m) as H. rewrite Hb in H.
  rewrite Hb. exact H.
Qed.

(** ** Removing the pad *)

Lemma remove_pad_loop_value j p m :
  crypto.remove_pad_loop j p m = (take (length m - j) m, None) ∨
  crypto.remove_pad_loop j p m = ([], Some ErrInvalidPad).
Proof.
  revert m. induction j as [|j IH]; intros m; cbn [crypto.remove_pad_loop].
  - left. rewrite Nat.sub_0_r, take_ge by lia. done.
  - case_decide; [by right|].
    destruct (IH (take (length m - 1) m)) as [E|E]; [left|by right].
    rewrite E. f_equal. rewrite length_take, take_take. f_equal. lia.
Qed.

(** X3: on a text [m] of at least sixteen bytes whose last byte is [t],
    [DecryptRemovePCKCS5Pad] returns [m] without its last [t] bytes and no
    error when the pad is valid ([t] is in [1, 16] and the last [t] bytes
    are [t]), and nil with [ErrInvalidPad] when it is not. *)
Theorem DecryptRemovePCKCS5Pad_spec (m : list Z) :
  (16 ≤ length m)%nat →
  (valid_pad m →
     crypto.DecryptRemovePCKCS5Pad m =
     (take (length m - Z.to_nat (m !!! (length m - 1)%nat)) m, None)) ∧
  (¬ valid_pad m → crypto.DecryptRemovePCKCS5Pad m = ([], Some ErrInvalidPad)).
Proof.
  intros Hm. pose proof (DecryptRemovePCKCS5Pad_ok m Hm) as Hok.
  unfold crypto.DecryptRemovePCKCS5Pad in *. cbv zeta in *.
  destruct (decide (m !!! (length m - 1)%nat > 16 ∨ m !!! (length m - 1)%nat < 1)) as [Hbad|Hgood].
  - split; [|done]. intros Hv. apply Hok in Hv. done.
  - destruct (remove_pad_loop_value (Z.to_nat (m !!! (length m - 1)%nat))
                (m !!! (length m - 1)%nat) m) as [E|E]; rewrite E in Hok |- *.
    + split; [done|]. intros Hv. destruct Hv. by apply Hok.
    + split; [|done]. intros Hv. apply Hok in Hv. done.
Qed.

Lemma DecryptRemovePCKCS5Pad_spec_witness :
  crypto.DecryptRemovePCKCS5Pad (replicate 13 65 ++ [3; 3; 3]) = (replicate 13 65, None) ∧
  crypto.DecryptRemovePCKCS5Pad (replicate 13 65 ++ [3; 2; 3]) = ([], Some ErrInvalidPad) ∧
  crypto.DecryptRemovePCKCS5Pad (replicate 15 65 ++ [0]) = ([], Some ErrInvalidPad).
Proof.
  split_and!.
  - apply (DecryptRemovePCKCS5Pad_spec (replicate 13 65 ++ [3; 3; 3])).
    + vm_compute. lia.
    + split; [vm_compute; split; discriminate|].
      intros [|[|[|j]]] Hj; try reflexivity. vm_compute in Hj. lia.
  - apply (DecryptRemovePCKCS5Pad_spec (replicate 13 65 ++ [3; 2; 3])).
    + vm_compute. lia.
    + intros [_ H]. specialize (H 1%nat). vm_compute in H. discriminate H. lia.
  - apply (DecryptRemovePCKCS5Pad_spec (replicate 15 65 ++ [0])).
    + vm_compute. lia.
    + intros [H _]. vm_compute in H. destruct H as [H _]. by apply H.
Defined.

(** ** BlockXOR *)

Lemma BlockXOR_twice block key :
  crypto.BlockXOR (crypto.BlockXOR block key) key = block.
Proof.
  apply list_eq. intros i. unfold crypto.BlockXOR.
  rewrite !list_lookup_imap.
  destruct (block !! i) as [x|]; [|done]. simpl. f_equal. apply lxor_cancel_r.
Qed.

(** X4: for a key that is not empty, [BlockXOR] returns as many bytes as
    the block has, the byte [i] being [block[i] XOR key[i mod len(key)]],
    and applied to its own result with the same key it gives the block
    back. *)
Theorem BlockXOR_involutive (block key : list Z) :
  key ≠ [] →
  length (crypto.BlockXOR block key) = length block ∧
  (∀ i : nat, (i < length block)%nat →
     crypto.BlockXOR block key !!! i = Z.lxor (block !!! i) (key !!! (i mod length key)%nat)) ∧
  crypto.BlockXOR (crypto.BlockXOR block key) key = block.
Proof.
  intros _. split_and!; [apply BlockXOR_length| |apply BlockXOR_twice].
  intros i Hi. unfold crypto.BlockXOR.
  apply list_lookup_total_correct. rewrite list_lookup_imap.
  rewrite (list_lookup_lookup_total_lt block i) by done. done.
Qed.

Lemma BlockXOR_involutive_witness :
  length (crypto.BlockXOR (seqZ 0 16) [7; 9]) = length (seqZ 0 16) ∧
  (∀ i : nat, (i < length (seqZ 0 16))%nat →
     crypto.BlockXOR (seqZ 0 16) [7; 9] !!! i =
     Z.lxor (seqZ 0 16 !!! i) ([7; 9] !!! (i mod length [7; 9])%nat)) ∧
  crypto.BlockXOR (crypto.BlockXOR (seqZ 0 16) [7; 9]) [7; 9] = seqZ 0 16.
Proof. apply (BlockXOR_involutive (seqZ 0 16) [7; 9]). discriminate. Defined.

(** ** The toy cipher *)

Lemma xor_cipher_inverse (k : list Z) :
  is_block k →
  ∀ b, is_block b →
    is_block (BlockEncrypt xor_cipher k b) ∧
    BlockDecrypt xor_cipher k (BlockEncrypt xor_cipher k b) = b.
Proof.
  intros Hk b Hb. cbn [BlockEncrypt BlockDecrypt xor_cipher].
  pose proof Hb as [Hl _]. unfold CipherBlockLen in Hl.
  rewrite (take_ge b) by lia.
  rewrite (take_ge (crypto.BlockXOR b k)) by (rewrite BlockXOR_length; lia).
  split; [by apply is_block_BlockXOR|apply BlockXOR_twice].
Qed.

(** ** CBC *)

Lemma is_block_slice (m : list Z) (i : nat) :
  Forall is_byte m → (16 * (i + 1) ≤ length m)%nat → is_block (slice m (i * 16) (i * 16 + 16)).
Proof.
  intros Hm Hi. unfold slice. split.
  - rewrite length_take, length_drop. unfold CipherBlockLen. lia.
  - apply Forall_take, Forall_drop, Hm.
Qed.

Section CBCLoops.
Context (aes : BlockCipher) (k : list Z).

Lemma CBCEncrypt_loop_blocks (n j : nat) (m prev ct : list Z) :
  (∀ b, is_block b → is_block (BlockEncrypt aes k b)) →
  Forall is_byte m → is_block prev → (16 * (j + n) ≤ length m)%nat →
  ∃ xs, crypto.CBCEncrypt_loop aes (seq j n) k m prev ct = ct ++ xs ∧
        length xs = (16 * n)%nat ∧ Forall is_byte xs.
Proof.
  intros Henc Hm. revert j prev ct. induction n as [|n IH]; intros j prev ct Hprev Hj.
  { exists []. by rewrite app_nil_r. }
  cbn [seq crypto.CBCEncrypt_loop]. cbv zeta.
  assert (is_block (BlockEncrypt aes k
            (crypto.BlockXOR (slice m (j * 16) (j * 16 + 16)) prev))) as Hx.
  { apply Henc, is_block_BlockXOR; [apply is_block_slice; [done|lia]|done]. }
  destruct (IH (S j) _ (ct ++ BlockEncrypt aes k
              (crypto.BlockXOR (slice m (j * 16) (j * 16 + 16)) prev)) Hx)
    as (xs & -> & Hl & Hb); [lia|].
  exists (BlockEncrypt aes k (crypto.BlockXOR (slice m (j * 16) (j * 16 + 16)) prev) ++ xs).
  split_and!.
  - by rewrite <- app_assoc.
  - rewrite length_app, Hl. destruct Hx as [-> _]. unfold CipherBlockLen. lia.
  - apply Forall_app. split; [apply Hx|done].
Qed.

Hypothesis Hinv : ∀ b, is_block b →
  is_block (BlockEncrypt aes k b) ∧ BlockDecrypt aes k (BlockEncrypt aes k b) = b.

Lemma CBC_loops (n j : nat) (m prev ct pre acc : list Z) :
  Forall is_byte m → is_block prev → length pre = (16 * j)%nat →
  (16 * (j + n) ≤ length m)%nat →
  ∃ xs, crypto.CBCEncrypt_loop aes (seq j n) k m prev ct = ct ++ xs ∧
        length xs = (16 * n)%nat ∧ Forall is_byte xs ∧
        ∀ suf, crypto.CBCDecrypt_loop aes (seq j n) k (pre ++ xs ++ suf) prev acc =
               acc ++ take (16 * n) (drop (16 * j) m).
Proof.
  intros Hm. revert j prev ct pre acc.
  induction n as [|n IH]; intros j prev ct pre acc Hprev Hpre Hj.
  { exists []. split_and!; [by rewrite app_nil_r|done|done|].
    intros suf. cbn [seq crypto.CBCDecrypt_loop]. by rewrite Nat.mul_0_r, take_0, app_nil_r. }
  cbn [seq crypto.CBCEncrypt_loop]. cbv zeta.
  assert (is_block (slice m (j * 16) (j * 16 + 16))) as Hb
    by (apply is_block_slice; [done|lia]).
  assert (is_block (crypto.BlockXOR (slice m (j * 16) (j * 16 + 16)) prev)) as Hbx
    by (by apply is_block_BlockXOR).
  destruct (Hinv _ Hbx) as [Hx Hdx].
  pose proof Hx as [Hlx _]. unfold CipherBlockLen in Hlx.
  destruct (IH (S j) _ (ct ++ BlockEncrypt aes k
              (crypto.BlockXOR (slice m (j * 16) (j * 16 + 16)) prev))
              (pre ++ BlockEncrypt aes k
                 (crypto.BlockXOR (slice m (j * 16) (j * 16 + 16)) prev))
              (acc ++ slice m (j * 16) (j * 16 + 16)) Hx)
    as (xs & -> & Hl & Hbs & Hdec); [rewrite length_app; lia|lia|].
  exists (BlockEncrypt aes k (crypto.BlockXOR (slice m (j * 16) (j * 16 + 16)) prev) ++ xs).
  split_and!.
  - by rewrite <- app_assoc.
  - rewrite length_app, Hl. lia.
  - apply Forall_app. split; [apply Hx|done].
  - intros suf. cbn [crypto.CBCDecrypt_loop]. cbv zeta.
    assert (slice (pre ++ (BlockEncrypt aes k
               (crypto.BlockXOR (slice m (j * 16) (j * 16 + 16)) prev) ++ xs) ++ suf)
              (j * 16) (16 * j + 16) =
            BlockEncrypt aes k (crypto.BlockXOR (slice m (j * 16) (j * 16 + 16)) prev)) as ->.
    { unfold slice. rewrite drop_app_length' by lia.
      replace (16 * j + 16 - j * 16)%nat with 16%nat by lia.
      rewrite <- !app_assoc. by apply take_app_length'. }
    rewrite Hdx, BlockXOR_twice.
    replace (pre ++ (BlockEncrypt aes k
               (crypto.BlockXOR (slice m (j * 16) (j * 16 + 16)) prev) ++ xs) ++ suf)
      with ((pre ++ BlockEncrypt aes k
               (crypto.BlockXOR (slice m (j * 16) (j * 16 + 16)) prev)) ++ xs ++ suf)
      by (by rewrite <- !app_assoc).
    rewrite Hdec, <- app_assoc. f_equal.
    unfold slice. replace (j * 16 + 16 - j * 16)%nat with 16%nat by lia.
    replace (16 * S j)%nat with (j * 16 + 16)%nat by lia.
    replace (16 * j)%nat with (j * 16)%nat by lia.
    rewrite <- drop_drop. replace (16 * S n)%nat with (16 + 16 * n)%nat by lia.
    by rewrite take_take_drop.
Qed.

End CBCLoops.

Lemma PCKCS5Pad_blocks (msg : list Z) :
  Forall is_byte msg →
  Forall is_byte (crypto.PCKCS5Pad msg) ∧
  (16 * (length (crypto.PCKCS5Pad msg) / 16) = length (crypto.PCKCS5Pad msg))%nat.
Proof.
  intros Hmsg. destruct (PCKCS5Pad_shape msg) as (_ & _ & Hmod). split.
  - unfold crypto.PCKCS5Pad. cbv zeta. apply Forall_app. split; [done|].
    apply Forall_replicate. unfold is_byte, byte. apply Z.mod_pos_bound. lia.
  - pose proof (Nat.div_mod_eq (length (crypto.PCKCS5Pad msg)) 16). lia.
Qed.

(** X5: for a key and an IV that decode, an IV of one block, a block cipher
    that accepts the key and whose decryption undoes its encryption on
    blocks, and any text of bytes, [CBCEncrypt] returns no error, and
    [CBCDecrypt] under the same key returns the text, and no error, on its
    result. *)
Theorem CBCDecrypt_CBCEncrypt (aes : BlockCipher) (hiv key : string) (iv k msg : list Z) :
  hex.DecodeString key = (k, None) → NewCipher aes k = None →
  hex.DecodeString hiv = (iv, None) → is_block iv → Forall is_byte msg →
  (∀ b, is_block b →
     is_block (BlockEncrypt aes k b) ∧ BlockDecrypt aes k (BlockEncrypt aes k b) = b) →
  (crypto.CBCEncrypt aes hiv key msg).2 = None ∧
  crypto.CBCDecrypt aes key (crypto.CBCEncrypt aes hiv key msg).1 = (msg, None).
Proof.
  intros Hkey Hcipher Hhiv Hiv Hmsg Hinv.
  destruct (PCKCS5Pad_blocks msg Hmsg) as [Hpb Hpl].
  destruct (CBC_loops aes k Hinv (length (crypto.PCKCS5Pad msg) / 16) 0
              (crypto.PCKCS5Pad msg) iv iv [] [] Hpb Hiv) as (xs & Henc & Hl & Hb & Hdec);
    [done|lia|].
  unfold crypto.CBCEncrypt. rewrite Hkey, Hcipher, Hhiv. cbv zeta. split; [done|].
  cbn [fst]. rewrite Henc. unfold crypto.CBCDecrypt.
  rewrite DecodeString_EncodeToString by (apply Forall_app; split; [apply Hiv|done]).
  rewrite Hkey, Hcipher. cbv zeta.
  destruct Hiv as [Hliv _]. unfold CipherBlockLen in Hliv.
  rewrite slice_app_l, slice_app_r by done.
  rewrite Hl, Nat.mul_comm, Nat.div_mul by lia.
  specialize (Hdec []). rewrite app_nil_r in Hdec. cbn [app] in Hdec.
  rewrite Hdec, drop_0, Hpl, take_ge by lia.
  apply PCKCS5Pad_removed.
Qed.

Lemma CBCDecrypt_CBCEncrypt_witness :
  (crypto.CBCEncrypt xor_cipher test_iv test_key msg_hello).2 = None ∧
  crypto.CBCDecrypt xor_cipher test_key
    (crypto.CBCEncrypt xor_cipher test_iv test_key msg_hello).1 = (msg_hello, None).
Proof.
  apply (CBCDecrypt_CBCEncrypt xor_cipher test_iv test_key test_iv_bytes test_key_bytes
           msg_hello).
  - reflexivity.
  - reflexivity.
  - reflexivity.
  - decide_compute.
  - decide_compute.
  - apply xor_cipher_inverse. decide_compute.
Defined.

(** X6: for a key and an IV that decode, an IV of one block and a block
    cipher that accepts the key and encrypts blocks to blocks, the result of
    [CBCEncrypt] decodes to the IV followed by as many bytes as the padded
    text has: [16 + len(PCKCS5Pad(msg))] bytes, which [Decrypt] does not
    reject as malformed. *)
Theorem CBCEncrypt_layout (aes : BlockCipher) (hiv key : string) (iv k msg : list Z) :
  hex.DecodeString key = (k, None) → NewCipher aes k = None →
  hex.DecodeString hiv = (iv, None) → is_block iv → Forall is_byte msg →
  (∀ b, is_block b → is_block (BlockEncrypt aes k b)) →
  let c := (hex.DecodeString (crypto.CBCEncrypt aes hiv key msg).1).1 in
  (crypto.CBCEncrypt aes hiv key msg).2 = None ∧
  take 16 c = iv ∧
  length c = (16 + length (crypto.PCKCS5Pad msg))%nat ∧
  Forall is_byte c ∧ ¬ malformed c.
Proof.
  intros Hkey Hcipher Hhiv Hiv Hmsg Henc.
  destruct (PCKCS5Pad_blocks msg Hmsg) as [Hpb Hpl].
  destruct (PCKCS5Pad_shape msg) as (_ & Hr & Hmod). cbv zeta in Hr.
  destruct (CBCEncrypt_loop_blocks aes k (length (crypto.PCKCS5Pad msg) / 16) 0
              (crypto.PCKCS5Pad msg) iv iv Henc Hpb Hiv) as (xs & Hxs & Hl & Hb); [lia|].
  unfold crypto.CBCEncrypt. rewrite Hkey, Hcipher, Hhiv. cbv zeta. cbn [fst snd].
  rewrite Hxs.
  assert (Forall is_byte (iv ++ xs)) as Hall by (apply Forall_app; split; [apply Hiv|done]).
  rewrite DecodeString_EncodeToString by done. cbn [fst].
  destruct Hiv as [Hliv _]. unfold CipherBlockLen in Hliv.
  assert (length (iv ++ xs) = (16 + length (crypto.PCKCS5Pad msg))%nat) as Hlen
    by (rewrite length_app; lia).
  split_and!; [done|by apply take_app_length'|done|done|].
  unfold malformed, CipherBlockLen. rewrite Hlen. intros [H|H]; [lia|].
  apply H. rewrite <- Hpl.
  replace (16 + 16 * (length (crypto.PCKCS5Pad msg) / 16))%nat
    with ((1 + length (crypto.PCKCS5Pad msg) / 16) * 16)%nat by lia.
  apply Nat.Div0.mod_mul.
Qed.

Lemma CBCEncrypt_layout_witness :
  (crypto.CBCEncrypt xor_cipher test_iv test_key msg_hello).2 = None ∧
  take 16 (hex.DecodeString (crypto.CBCEncrypt xor_cipher test_iv test_key msg_hello).1).1 =
    test_iv_bytes ∧
  length (hex.DecodeString (crypto.CBCEncrypt xor_cipher test_iv test_key msg_hello).1).1 =
    (16 + length (crypto.PCKCS5Pad msg_hello))%nat ∧
  Forall is_byte (hex.DecodeString (crypto.CBCEncrypt xor_cipher test_iv test_key msg_hello).1).1 ∧
  ¬ malformed (hex.DecodeString (crypto.CBCEncrypt xor_cipher test_iv test_key msg_hello).1).1.
Proof.
  apply (CBCEncrypt_layout xor_cipher test_iv test_key test_iv_bytes test_key_bytes msg_hello).
  - reflexivity.
  - reflexivity.
  - reflexivity.
  - decide_compute.
  - decide_compute.
  - intros b Hb. apply xor_cipher_inverse; [|exact Hb].
    decide_compute.
Defined.




(** ** The worker pool *)

Lemma length_omap_le {A B} (f : A → option B) (l : list A) :
  (length (omap f l) ≤ length l)%nat.
Proof.
  induction l as [|x l IH]; [done|].
  change (omap f (x :: l)) with (match f x with Some y => y :: omap f l | None => omap f l end).
  destruct (f x); cbn [length]; lia.
Qed.

Lemma NoDup_submseteq_l {A} (l k : list A) : l ⊆+ k → NoDup k → NoDup l.
Proof.
  intros [k' Hk]%submseteq_Permutation Hnd. rewrite Hk in Hnd.
  by apply NoDup_app in Hnd as [? _].
Qed.

Lemma guesses_length p prev : (length (guesses p prev) ≤ 256)%nat.
Proof.
  unfold guesses. etrans; [apply length_filter|]. by rewrite length_seqZ.
Qed.

Lemma guesses_NoDup p prev : NoDup (guesses p prev).
Proof. apply NoDup_filter, NoDup_seqZ. Qed.

(** X8: after any sequence of moves of the workers of a position, the
    channel [values] was filled with at most 256 guesses, [done] holds at
    most as many results as queries were answered, the queries answered and
    the guesses left in [values] are at most 256 together, and the pool has
    [MaxGoroutines] workers: no send on the two channels of capacity 256
    blocks. *)
Theorem pool_channels_bounded (p : nat) (prev current : list Z) (q : Poracle)
    (mi : list Z) (events : list event) :
  let s := foldl (λ s ev, checkValuePad_step p prev current q mi ev s) (start p prev) events in
  (length (guesses p prev) ≤ 256)%nat ∧
  (length (done s) ≤ length (asked s))%nat ∧
  (length (asked s) + length (values s) ≤ 256)%nat ∧
  length (workers s) = MaxGoroutines.
Proof.
  intros s.
  destruct (foldl_step_inv p prev current q mi events _ _ (start_inv p prev current q mi))
    as [fin [Ha Hd (taken & Hg & Ht) _ _ Hw]].
  fold s in Ha, Hd, Hg, Ht, Hw.
  pose proof (guesses_length p prev) as Hlen.
  split_and!; [done| | |done].
  - rewrite Ha, Hd, length_fmap. apply length_omap_le.
  - rewrite Ha, length_fmap. rewrite Hg, length_app in Hlen.
    apply Permutation_length in Ht. rewrite length_app in Ht. lia.
Qed.

(** X9: under every schedule the pool ends with all its [MaxGoroutines]
    workers out of their loop, so that [wg.Wait()] returns; every move of a
    worker that has not left lowers the bound [budget] on the moves that
    remain. *)
Theorem pool_terminates (p : nat) (prev current : list Z) (q : Poracle)
    (mi : list Z) (events : list event) :
  workers (run_pool p prev current q mi events) = replicate MaxGoroutines Exited ∧
  ∀ s i b w, workers s !! i = Some w → w ≠ Exited →
    (budget (checkValuePad_step p prev current q mi (i, b) s) < budget s)%nat.
Proof.
  split.
  - symmetry. apply replicate_as_Forall. split.
    + destruct (run_pool_inv p prev current q mi events) as [fin Hinv]. apply Hinv.
    + apply Forall_forall. intros w Hw. symmetry. by eapply run_pool_finished.
  - intros s i b w. apply step_budget.
Qed.

Lemma try_inj p prev current mi g g' :
  (p < 16)%nat → try p prev current mi g = try p prev current mi g' → g = g'.
Proof.
  intros Hp H. apply (f_equal (λ l, l !!! p)) in H.
  rewrite !try_lookup in H by lia. unfold crafted in H.
  rewrite !(decide_False (P := Z.of_nat p < Z.of_nat p)) in H by lia.
  rewrite !(decide_True (P := Z.of_nat p = Z.of_nat p)) in H by lia. done.
Qed.

Section Cost.
Context (q : Poracle).

Lemma run_pool_cost p prev current mi events :
  (1 ≤ length (asked (run_pool p prev current q mi events)) ≤ 256)%nat ∧
  ((p < 16)%nat → NoDup (asked (run_pool p prev current q mi events))).
Proof.
  pose proof (run_pool_asked_nonempty p prev current q mi events) as Hne.
  destruct (run_pool_final p prev current q mi events) as (fin & Ha & _ & Hs & _).
  rewrite Ha in Hne |- *. split_and!.
  - destruct fin; simpl in *; [done|lia].
  - rewrite length_fmap. apply submseteq_length in Hs.
    pose proof (guesses_length p prev). lia.
  - intros Hp. apply NoDup_fmap_2_strong.
    + intros g g' _ _. by apply try_inj.
    + eapply NoDup_submseteq_l; [exact Hs|apply guesses_NoDup].
Qed.

Lemma decryptBlock_loop_cost sched prev current n mi :
  (length (queries (decryptBlock_loop n sched prev current q mi)) ≤ 256 * n)%nat.
Proof.
  revert mi. induction n as [|p IH]; intros mi; [done|].
  rewrite decryptBlock_loop_S. cbv zeta.
  destruct (run_pool_cost p prev current mi (sched p)) as [[_ Hle] _].
  destruct (range_done _ 0 false) as [e|[val [|]]]; cbn [negb]; run_simpl; [lia| |lia].
  rewrite length_app. specialize (IH (<[p := Z.lxor (Z.lxor val (prev !!! p))
    (byte (byte (Z.of_nat CipherBlockLen) - byte (Z.of_nat p)))]> mi)). lia.
Qed.

Lemma decryptBlock_cost sched prev current :
  (1 ≤ length (queries (decryptBlock sched prev current q)) ≤ 4096)%nat.
Proof.
  pose proof (decryptBlock_queries sched prev current q) as Hne.
  split; [destruct (queries _); simpl; [done|lia]|].
  rewrite decryptBlock_unfold.
  pose proof (decryptBlock_loop_cost sched prev current CipherBlockLen (make CipherBlockLen)).
  unfold CipherBlockLen in *. lia.
Qed.

Lemma Decrypt_loop_cost sched blocks c m :
  (length (queries (Decrypt_loop blocks sched c q m)) ≤ 4096 * length blocks)%nat.
Proof.
  revert m. induction blocks as [|i blocks IH]; intros m; [done|].
  rewrite Decrypt_loop_cons. cbv zeta.
  pose proof (decryptBlock_cost (sched i)
    (slice c ((i - 1) * CipherBlockLen) (CipherBlockLen * (i - 1) + CipherBlockLen))
    (slice c (CipherBlockLen * i) (CipherBlockLen * i + CipherBlockLen))) as [_ Hb].
  destruct (err _); run_simpl; cbn [length]; [lia|].
  rewrite length_app.
  specialize (IH (m ++ ret (decryptBlock (sched i)
    (slice c ((i - 1) * CipherBlockLen) (CipherBlockLen * (i - 1) + CipherBlockLen))
    (slice c (CipherBlockLen * i) (CipherBlockLen * i + CipherBlockLen)) q))). lia.
Qed.

Lemma Encrypt_loop_cost sched n ctext c0 c1 c :
  (length (queries (Encrypt_loop n sched ctext q c0 c1 c)) ≤ 4096 * n)%nat.
Proof.
  revert c1 c. induction n as [|i IH]; intros c1 c; [done|].
  rewrite Encrypt_loop_S. cbv zeta.
  pose proof (decryptBlock_cost (sched i) c0 c1) as [_ Hb].
  destruct (err _); run_simpl; [lia|].
  rewrite length_app.
  specialize (IH (crypto.BlockXOR
    (slice ctext (CipherBlockLen * i) (CipherBlockLen * i + CipherBlockLen))
    (ret (decryptBlock (sched i) c0 c1 q)))
    (crypto.BlockXOR
    (slice ctext (CipherBlockLen * i) (CipherBlockLen * i + CipherBlockLen))
    (ret (decryptBlock (sched i) c0 c1 q)) ++ c)). lia.
Qed.

End Cost.

(** X10: under every schedule and with any oracle, [Decrypt] sends at most
    4096 queries for each block after the first, and [Encrypt] at most 4096
    for each block of the padded text. *)
Theorem attack_cost (sched : schedule) (q : Poracle) (c txt : list Z) :
  (length (queries (Decrypt sched c q)) ≤ 4096 * (length c / CipherBlockLen - 1))%nat ∧
  (length (queries (Encrypt sched txt q)) ≤ 4096 * (length txt / CipherBlockLen + 1))%nat.
Proof.
  split.
  - unfold Decrypt. cbv zeta. repeat case_decide; run_simpl; cbn [length]; [lia|lia|].
    etrans; [apply Decrypt_loop_cost|]. by rewrite length_seq.
  - rewrite Encrypt_unfold. etrans; [apply Encrypt_loop_cost|].
    destruct (PCKCS5Pad_shape txt) as (Hs & Hr & Hmod). cbv zeta in Hs, Hr.
    unfold CipherBlockLen.
    pose proof (Nat.div_mod_eq (length (crypto.PCKCS5Pad txt)) 16) as H1.
    pose proof (Nat.div_mod_eq (length txt) 16) as H2.
    pose proof (Nat.mod_upper_bound (length txt) 16) as H3.
    assert (length (crypto.PCKCS5Pad txt) = (length txt + (16 - length txt mod 16))%nat) as Hl.
    { unfold crypto.PCKCS5Pad. cbv zeta. by rewrite length_app, length_replicate. }
    assert (length (crypto.PCKCS5Pad txt) / 16 = length txt / 16 + 1)%nat as ->; [|done].
    apply (Nat.mul_cancel_l _ _ 16); lia.
Qed.

(** X11: at a position [p < 16], under every schedule, the pool sends at
    least one and at most 256 queries and no query twice; every query is
    sixteen bytes followed by the block [current], and its bytes before
    [p] are those of [prev]. *)
Theorem pool_queries_distinct (p : nat) (prev current : list Z) (q : Poracle)
    (mi : list Z) (events : list event) :
  (p < 16)%nat →
  NoDup (asked (run_pool p prev current q mi events)) ∧
  (1 ≤ length (asked (run_pool p prev current q mi events)) ≤ 256)%nat ∧
  ∀ x, x ∈ asked (run_pool p prev current q mi events) →
    length x = (16 + length current)%nat ∧ drop 16 x = current ∧
    ∀ i : nat, (i < p)%nat → x !!! i = prev !!! i.
Proof.
  intros Hp. destruct (run_pool_cost q p prev current mi events) as [Hlen Hnd].
  split; [by apply Hnd|split; [done|]].
  intros x (g & Hg & ->)%run_pool_asked. rewrite try_unfold. split_and!.
  - by rewrite length_app, buildPad_length.
  - apply drop_app_length'. symmetry. apply buildPad_length.
  - intros i Hi. rewrite <- try_unfold, try_lookup by lia.
    unfold crafted. rewrite decide_True by lia. done.
Qed.

Lemma pool_queries_distinct_witness :
  NoDup (asked (run_pool 3 (seqZ 0 16) (seqZ 16 16) never_valid (make 16) [])) ∧
  (1 ≤ length (asked (run_pool 3 (seqZ 0 16) (seqZ 16 16) never_valid (make 16) [])) ≤ 256)%nat ∧
  ∀ x, x ∈ asked (run_pool 3 (seqZ 0 16) (seqZ 16 16) never_valid (make 16) []) →
    length x = (16 + length (seqZ 16 16))%nat ∧ drop 16 x = seqZ 16 16 ∧
    ∀ i : nat, (i < 3)%nat → x !!! i = seqZ 0 16 !!! i.
Proof. apply (pool_queries_distinct 3 (seqZ 0 16) (seqZ 16 16) never_valid (make 16) []). lia. Defined.

(** ** What the engine confirms *)

Lemma range_done_inr rs v f val found :
  range_done rs v f = inr (val, found) →
  (rs = [] ∧ val = v ∧ found = f) ∨
  (∃ r, r ∈ rs ∧ Err r = None ∧ Res r = val ∧ found = true).
Proof.
  revert v f. induction rs as [|r rs IH]; intros v f; cbn [range_done].
  - intros [= <- <-]. by left.
  - destruct (Err r) as [e|] eqn:He; [done|]. intros H. right.
    apply IH in H as [(-> & -> & ->)|(r' & Hr' & ? & ? & ?)].
    + exists r. split_and!; [left|done..].
    + exists r'. split_and!; [by right|done..].
Qed.

Lemma buildPad_ext p g c m m' :
  0 ≤ p < 16 → (∀ i : nat, (Z.to_nat p < i < 16)%nat → m !!! i = m' !!! i) →
  buildPad p g c m = buildPad p g c m'.
Proof.
  intros Hp Hm. apply list_eq_same_length with 16%nat; [apply buildPad_length..|].
  intros i x y Hi Hx Hy. apply list_lookup_total_correct in Hx, Hy. subst x y.
  rewrite !buildPad_lookup by done. unfold crafted.
  repeat case_decide; try done. rewrite Hm by lia. done.
Qed.

Section Certified.
Context (sched : block_schedule) (prev current : list Z) (q : Poracle).

Lemma decryptBlock_loop_step (p : nat) mi :
  err (decryptBlock_loop (S p) sched prev current q mi) = None →
  ∃ g res, g ∈ guesses p prev ∧
    q (buildPad (Z.of_nat p) g prev mi ++ current) = (res, None) ∧ res > 0 ∧
    buildPad (Z.of_nat p) g prev mi ++ current ∈
      asked (run_pool p prev current q mi (sched p)) ∧
    decryptBlock_loop (S p) sched prev current q mi =
    mkRun
      (ret (decryptBlock_loop p sched prev current q
              (<[p := Z.lxor (Z.lxor g (prev !!! p))
                        (byte (byte (Z.of_nat CipherBlockLen) - byte (Z.of_nat p)))]> mi)))
      (err (decryptBlock_loop p sched prev current q
              (<[p := Z.lxor (Z.lxor g (prev !!! p))
                        (byte (byte (Z.of_nat CipherBlockLen) - byte (Z.of_nat p)))]> mi)))
      (asked (run_pool p prev current q mi (sched p)) ++
       queries (decryptBlock_loop p sched prev current q
              (<[p := Z.lxor (Z.lxor g (prev !!! p))
                        (byte (byte (Z.of_nat CipherBlockLen) - byte (Z.of_nat p)))]> mi))).
Proof.
  rewrite decryptBlock_loop_S. cbv zeta.
  destruct (range_done _ 0 false) as [e|[val found]] eqn:Hr; run_simpl; [done|].
  apply range_done_inr in Hr as [(_ & _ & ->)|(r & Hin & He & Hv & ->)];
    cbn [negb]; run_simpl; [done|].
  intros _. apply run_pool_done in Hin as (g & Hg & Hans & Hask).
  unfold answer in Hans. rewrite try_unfold in Hans, Hask.
  destruct (q (buildPad (Z.of_nat p) g prev mi ++ current)) as [res [e|]] eqn:Hq.
  { injection Hans as <-. done. }
  destruct (decide (res > 0)) as [Hres|]; [|done]. injection Hans as <-.
  cbn [Res] in Hv. subst val. exists g, res. done.
Qed.

Lemma decryptBlock_loop_certified (n : nat) mi :
  (n ≤ 16)%nat → length mi = 16%nat →
  err (decryptBlock_loop n sched prev current q mi) = None →
  let r := decryptBlock_loop n sched prev current q mi in
  length (ret r) = 16%nat ∧
  (∀ i : nat, (n ≤ i < 16)%nat → ret r !!! i = mi !!! i) ∧
  ∀ p : nat, (p < n)%nat →
    buildPad (Z.of_nat p) (guess_of prev (ret r) p) prev (ret r) ++ current ∈ queries r ∧
    ∃ res, q (buildPad (Z.of_nat p) (guess_of prev (ret r) p) prev (ret r) ++ current) = (res, None) ∧
           res > 0.
Proof.
  revert mi. induction n as [|n IH]; intros mi Hn Hmi He; cbv zeta.
  { split_and!; [done|done|]. intros p Hp. lia. }
  destruct (decryptBlock_loop_step n mi He) as (g & res & Hg & Hq & Hres & Hask & Heq).
  rewrite Heq in He |- *. revert He. run_simpl. intros He.
  rewrite pad_byte in He |- * by lia.
  destruct (IH _ ltac:(lia) ltac:(by rewrite length_insert) He) as (Hl & Hkeep & Hcert).
  set (m := ret (decryptBlock_loop n sched prev current q
                   (<[n:=Z.lxor (Z.lxor g (prev !!! n)) (16 - Z.of_nat n)]> mi))) in *.
  split_and!; [done| |].
  - intros i Hi. rewrite Hkeep by lia. rewrite list_lookup_total_insert_ne by lia. done.
  - intros p Hp. destruct (decide (p = n)) as [->|Hne].
    + assert (guess_of prev m n = g) as ->.
      { unfold guess_of. rewrite Hkeep by lia.
        rewrite list_lookup_total_insert_eq by lia. xor_bits. }
      assert (buildPad (Z.of_nat n) g prev m = buildPad (Z.of_nat n) g prev mi) as ->.
      { apply buildPad_ext; [lia|]. intros i Hi. rewrite Hkeep by lia.
        rewrite list_lookup_total_insert_ne by lia. done. }
      split; [|by exists res]. apply elem_of_app. by left.
    + destruct (Hcert p ltac:(lia)) as [Hin Hacc]. split; [|done].
      apply elem_of_app. by right.
Qed.

End Certified.

(** X12: with any oracle and under every schedule, when the engine returns
    without error it returns sixteen bytes [m], and for every position [p]
    the candidate that [buildPad] builds from [m] for the guess
    [m[p] XOR prev[p] XOR (16 - p)] is a query of the run that the oracle
    answered with a positive result and no error: no byte is returned that
    the oracle did not confirm. *)
Theorem decryptBlock_certified (sched : block_schedule) (prev current : list Z)
    (q : Poracle) :
  err (decryptBlock sched prev current q) = None →
  let m := ret (decryptBlock sched prev current q) in
  length m = CipherBlockLen ∧
  ∀ p : nat, (p < CipherBlockLen)%nat →
    buildPad (Z.of_nat p) (guess_of prev m p) prev m ++ current ∈
      queries (decryptBlock sched prev current q) ∧
    ∃ res, q (buildPad (Z.of_nat p) (guess_of prev m p) prev m ++ current) = (res, None) ∧
           res > 0.
Proof.
  rewrite decryptBlock_unfold. intros He.
  destruct (decryptBlock_loop_certified sched prev current q CipherBlockLen
              (make CipherBlockLen)) as (Hl & _ & Hc); [done|done|done|].
  split; [exact Hl|exact Hc].
Qed.

Lemma decryptBlock_certified_witness :
  length (ret (decryptBlock (sequential 1%nat) (seqZ 0 16) (seqZ 16 16) always_valid)) =
    CipherBlockLen ∧
  ∀ p : nat, (p < CipherBlockLen)%nat →
    buildPad (Z.of_nat p)
      (guess_of (seqZ 0 16)
         (ret (decryptBlock (sequential 1%nat) (seqZ 0 16) (seqZ 16 16) always_valid)) p)
      (seqZ 0 16)
      (ret (decryptBlock (sequential 1%nat) (seqZ 0 16) (seqZ 16 16) always_valid))
      ++ seqZ 16 16 ∈
      queries (decryptBlock (sequential 1%nat) (seqZ 0 16) (seqZ 16 16) always_valid) ∧
    ∃ res, always_valid
             (buildPad (Z.of_nat p)
                (guess_of (seqZ 0 16)
                   (ret (decryptBlock (sequential 1%nat) (seqZ 0 16) (seqZ 16 16)
                           always_valid)) p)
                (seqZ 0 16)
                (ret (decryptBlock (sequential 1%nat) (seqZ 0 16) (seqZ 16 16)
                        always_valid))
              ++ seqZ 16 16) = (res, None) ∧ res > 0.
Proof.
  apply (decryptBlock_certified (sequential 1%nat) (seqZ 0 16) (seqZ 16 16) always_valid).
  by_compute.
Defined.

(** ** Lengths *)

Section Lengths.
Context (sched : schedule) (q : Poracle).

Lemma decryptBlock_length s prev current :
  err (decryptBlock s prev current q) = None →
  length (ret (decryptBlock s prev current q)) = 16%nat.
Proof. intros He. by destruct (decryptBlock_certified s prev current q He) as [? _]. Qed.

Lemma Decrypt_loop_length blocks c m :
  err (Decrypt_loop blocks sched c q m) = None →
  length (ret (Decrypt_loop blocks sched c q m)) = (length m + 16 * length blocks)%nat.
Proof.
  revert m. induction blocks as [|i blocks IH]; intros m.
  { rewrite Decrypt_loop_nil. run_simpl. intros _. cbn [length]. lia. }
  rewrite Decrypt_loop_cons. cbv zeta.
  destruct (err (decryptBlock _ _ _ _)) as [e|] eqn:Hb; run_simpl; [done|].
  intros He. rewrite IH by done. rewrite length_app, decryptBlock_length by done.
  cbn [length]. lia.
Qed.

Lemma Encrypt_loop_length n ctext c0 c1 c :
  (16 * n ≤ length ctext)%nat →
  err (Encrypt_loop n sched ctext q c0 c1 c) = None →
  length (ret (Encrypt_loop n sched ctext q c0 c1 c)) = (16 * n + length c)%nat.
Proof.
  revert c1 c. induction n as [|i IH]; intros c1 c Hn.
  { rewrite Encrypt_loop_O. by run_simpl. }
  rewrite Encrypt_loop_S. cbv zeta.
  destruct (err (decryptBlock _ _ _ _)) as [e|] eqn:Hb; run_simpl; [done|].
  intros He. rewrite IH by (done || lia).
  rewrite length_app, BlockXOR_length. unfold slice, CipherBlockLen.
  rewrite length_take, length_drop. lia.
Qed.

End Lengths.

(** X13: when [Decrypt] returns no error its plaintext has the length of
    the ciphertext less one block; when [Encrypt] returns no error its
    ciphertext has the length of the padded text and one block more, and
    [Decrypt] does not reject it as malformed. *)
Theorem attack_lengths (sched : schedule) (q : Poracle) (c txt : list Z) :
  (err (Decrypt sched c q) = None →
     length (ret (Decrypt sched c q)) = (length c - CipherBlockLen)%nat) ∧
  (err (Encrypt sched txt q) = None →
     length (ret (Encrypt sched txt q)) = (length (crypto.PCKCS5Pad txt) + CipherBlockLen)%nat ∧
     ¬ malformed (ret (Encrypt sched txt q))).
Proof.
  split.
  - unfold Decrypt. cbv zeta.
    destruct (decide (length c / CipherBlockLen < 2)%nat) as [|Hn]; run_simpl; [done|].
    destruct (decide ((length c mod CipherBlockLen)%nat ≠ 0%nat)) as [|Hr]; run_simpl; [done|].
    intros He. rewrite Decrypt_loop_length by done. rewrite length_seq. cbn [length].
    unfold CipherBlockLen in *. pose proof (Nat.div_mod_eq (length c) 16). lia.
  - rewrite Encrypt_unfold. intros He.
    destruct (PCKCS5Pad_shape txt) as (_ & Hr & Hmod). cbv zeta in Hr.
    pose proof (Nat.div_mod_eq (length (crypto.PCKCS5Pad txt)) 16) as Hd.
    unfold CipherBlockLen in *.
    unfold malformed, CipherBlockLen.
    rewrite Encrypt_loop_length by (done || lia).
    unfold make. rewrite length_replicate.
    split; [lia|]. intros [H|H]; [lia|]. apply H.
    replace (16 * (length (crypto.PCKCS5Pad txt) / 16) + 16)%nat
      with ((length (crypto.PCKCS5Pad txt) / 16 + 1) * 16)%nat by lia.
    apply Nat.Div0.mod_mul.
Qed.

Lemma attack_lengths_witness :
  length (ret (Decrypt sequential (make 48) always_valid)) =
    (length (make 48) - CipherBlockLen)%nat ∧
  length (ret (Encrypt sequential msg_hello always_valid)) =
    (length (crypto.PCKCS5Pad msg_hello) + CipherBlockLen)%nat ∧
  ¬ malformed (ret (Encrypt sequential msg_hello always_valid)).
Proof.
  split.
  - apply (attack_lengths sequential always_valid (make 48) msg_hello).
    by_compute.
  - apply (attack_lengths sequential always_valid (make 48) msg_hello).
    by_compute.
Defined.

(** ** Errors *)

Section Provenance.
Context (sched : schedule) (q : Poracle).

Lemma Encrypt_loop_err n ctext c0 c1 c e :
  err (Encrypt_loop n sched ctext q c0 c1 c) = Some e →
  e = ErrNoByteFound ∨
  ∃ x, x ∈ queries (Encrypt_loop n sched ctext q c0 c1 c) ∧ (q x).2 = Some e.
Proof.
  revert c1 c. induction n as [|i IH]; intros c1 c.
  { rewrite Encrypt_loop_O. run_simpl. intros [=]. }
  destruct (err (decryptBlock (sched i) c0 c1 q)) as [e'|] eqn:Hb.
  - rewrite (Encrypt_loop_abort _ _ _ _ _ _ _ _ Hb). run_simpl.
    intros [= ->]. apply decryptBlock_err. exact Hb.
  - rewrite (Encrypt_loop_next _ _ _ _ _ _ _ Hb). cbv zeta. run_simpl.
    intros H. apply IH in H as [H|(x & Hx & He)]; [left; exact H|right].
    exists x. split; [|exact He]. apply elem_of_app. right. exact Hx.
Qed.

End Provenance.

(** X14: an error that [Decrypt] returns is [ErrInvalidCiphertext] for a
    malformed ciphertext, or the error for a byte not found, or an error
    that the oracle returned to a query of the run; an error that [Encrypt]
    returns is one of the last two. *)
Theorem attack_errors (sched : schedule) (q : Poracle) (c txt : list Z) (e : error) :
  (err (Decrypt sched c q) = Some e →
     (e = ErrInvalidCiphertext ∧ malformed c) ∨ e = ErrNoByteFound ∨
     ∃ x, x ∈ queries (Decrypt sched c q) ∧ (q x).2 = Some e) ∧
  (err (Encrypt sched txt q) = Some e →
     e = ErrNoByteFound ∨ ∃ x, x ∈ queries (Encrypt sched txt q) ∧ (q x).2 = Some e).
Proof.
  split.
  - unfold Decrypt, malformed. cbv zeta.
    destruct (decide (length c / CipherBlockLen < 2)%nat) as [Hn|Hn]; run_simpl.
    { intros [= <-]. left. split; [done|]. left. unfold CipherBlockLen in *.
      pose proof (Nat.div_mod_eq (length c) 16).
      pose proof (Nat.mod_upper_bound (length c) 16). lia. }
    destruct (decide ((length c mod CipherBlockLen)%nat ≠ 0%nat)) as [Hr|Hr]; run_simpl.
    { intros [= <-]. left. split; [done|]. by right. }
    intros H. right. by apply Decrypt_loop_err.
  - rewrite Encrypt_unfold. apply Encrypt_loop_err.
Qed.

Lemma attack_errors_witness :
  ((ErrTransport 7 = ErrInvalidCiphertext ∧ malformed (make 32)) ∨
   ErrTransport 7 = ErrNoByteFound ∨
   ∃ x, x ∈ queries (Decrypt sequential (make 32) unreachable) ∧
        (unreachable x).2 = Some (ErrTransport 7)) ∧
  (ErrTransport 7 = ErrNoByteFound ∨
   ∃ x, x ∈ queries (Encrypt sequential msg_hello unreachable) ∧
        (unreachable x).2 = Some (ErrTransport 7)).
Proof.
  split.
  - apply (attack_errors sequential unreachable (make 32) msg_hello (ErrTransport 7)).
    by_compute.
  - apply (attack_errors sequential unreachable (make 32) msg_hello (ErrTransport 7)).
    by_compute.
Defined.

(** ** An oracle that fails *)

Section Failing.
Context (q : Poracle) (e : error).
Hypothesis Hq : ∀ x, Forall is_byte x → (q x).2 = Some e.

Lemma decryptBlock_failing sched prev current :
  is_block prev → is_block current →
  ret (decryptBlock sched prev current q) = [] ∧
  err (decryptBlock sched prev current q) = Some e.
Proof.
  intros Hprev Hcurrent. rewrite decryptBlock_unfold. unfold CipherBlockLen at 1 3.
  assert (∀ x, x ∈ asked (run_pool 15 prev current q (make CipherBlockLen) (sched 15%nat)) →
               (q x).2 = Some e) as Hall.
  { intros x (g & [Hg _]%elem_of_guesses & ->)%run_pool_asked. apply Hq.
    rewrite try_unfold. apply Forall_app. split; [|apply Hcurrent].
    apply is_block_buildPad; [lia|done|done|apply is_block_make]. }
  pose proof (run_pool_asked_nonempty 15 prev current q (make CipherBlockLen) (sched 15%nat))
    as Hne.
  destruct (asked (run_pool 15 prev current q (make CipherBlockLen) (sched 15%nat)))
    as [|x xs] eqn:Hasked; [done|].
  destruct (decryptBlock_loop_failure sched prev current q 15 (make CipherBlockLen))
    as [_ Hf]. cbv zeta in Hf.
  destruct (Hf x e) as (x' & e' & Hx' & He' & ->).
  - rewrite Hasked. left.
  - apply Hall. left.
  - rewrite Hasked in Hx'. rewrite (Hall x' Hx') in He'. injection He' as <-. by run_simpl.
Qed.

End Failing.

Lemma failing_oracle (sched : schedule) (q : Poracle) (e : error) (c txt : list Z) :
  (∀ x, Forall is_byte x → (q x).2 = Some e) →
  (¬ malformed c → Forall is_byte c →
     ret (Decrypt sched c q) = [] ∧ err (Decrypt sched c q) = Some e) ∧
  ret (Encrypt sched txt q) = [] ∧ err (Encrypt sched txt q) = Some e.
Proof.
  intros Hq. split.
  - intros Hm Hc. unfold malformed, CipherBlockLen in Hm. unfold Decrypt, CipherBlockLen.
    pose proof (Nat.div_mod_eq (length c) 16) as Hd.
    pose proof (Nat.mod_upper_bound (length c) 16) as Hu.
    destruct (decide (length c / 16 < 2)%nat) as [Hn|Hn].
    { exfalso. apply Hm. left. lia. }
    destruct (decide ((length c mod 16)%nat ≠ 0%nat)) as [Hr|Hr].
    { exfalso. apply Hm. by right. }
    destruct (length c / 16)%nat as [|[|n]] eqn:Hdiv; [lia|lia|].
    cbn [Nat.sub seq].
    destruct (decryptBlock_failing q e Hq (sched 1%nat)
      (slice c ((1 - 1) * CipherBlockLen) (CipherBlockLen * (1 - 1) + CipherBlockLen))
      (slice c (CipherBlockLen * 1) (CipherBlockLen * 1 + CipherBlockLen))) as [_ He].
    + split; unfold slice, CipherBlockLen.
      * rewrite length_take, length_drop. lia.
      * apply Forall_take, Forall_drop, Hc.
    + split; unfold slice, CipherBlockLen.
      * rewrite length_take, length_drop. lia.
      * apply Forall_take, Forall_drop, Hc.
    + rewrite (Decrypt_loop_abort _ _ _ _ _ _ _ He). by run_simpl.
  - rewrite Encrypt_unfold.
    destruct (PCKCS5Pad_shape txt) as (_ & Hr & Hmod). cbv zeta in Hr.
    pose proof (Nat.div_mod_eq (length (crypto.PCKCS5Pad txt)) 16) as Hd.
    change (length (crypto.PCKCS5Pad txt) / CipherBlockLen)%nat
      with (length (crypto.PCKCS5Pad txt) / 16)%nat.
    destruct (length (crypto.PCKCS5Pad txt) / 16)%nat as [|n] eqn:Hdiv; [lia|].
    destruct (decryptBlock_failing q e Hq (sched n) (make CipherBlockLen) (make CipherBlockLen))
      as [_ He]; [apply is_block_make..|].
    rewrite (Encrypt_loop_abort _ _ _ _ _ _ _ _ He). by run_simpl.
Qed.

(** X15: when the oracle answers every query of bytes with the error [e],
    [Decrypt] on a well-formed ciphertext of bytes and [Encrypt] on any text
    return [e] and an empty result, under every schedule. *)
Theorem oracle_error_returned (sched : schedule) (q : Poracle) (e : error) (c txt : list Z) :
  (∀ x, Forall is_byte x → (q x).2 = Some e) →
  (¬ malformed c → Forall is_byte c →
     ret (Decrypt sched c q) = [] ∧ err (Decrypt sched c q) = Some e) ∧
  ret (Encrypt sched txt q) = [] ∧ err (Encrypt sched txt q) = Some e.
Proof. apply failing_oracle. Qed.

Lemma oracle_error_returned_witness :
  (¬ malformed (make 32) → Forall is_byte (make 32) →
     ret (Decrypt sequential (make 32) unreachable) = [] ∧
     err (Decrypt sequential (make 32) unreachable) = Some (ErrTransport 7)) ∧
  ret (Encrypt sequential msg_hello unreachable) = [] ∧
  err (Encrypt sequential msg_hello unreachable) = Some (ErrTransport 7).
Proof.
  apply (oracle_error_returned sequential unreachable (ErrTransport 7) (make 32) msg_hello).
  intros x _. reflexivity.
Defined.

(** ** The oracle of the tests *)

Lemma testOracle_bad_key (aes : BlockCipher) (key : string) (k : list Z) (e : error)
    (x : list Z) :
  hex.DecodeString key = (k, Some e) ∨
    (hex.DecodeString key = (k, None) ∧ NewCipher aes k = Some e) →
  e ≠ ErrInvalidPad → Forall is_byte x →
  testOracle aes key x = (0, Some e).
Proof.
  intros Hk He Hx. unfold testOracle, crypto.CBCDecrypt. cbv zeta.
  rewrite DecodeString_EncodeToString by done.
  destruct Hk as [->|[-> ->]]; cbn [snd]; by rewrite decide_False.
Qed.

(** X16: with a key that decodes and that the cipher accepts, the oracle of
    the tests answers a query of two blocks [iv || c] with [(1, nil)] when
    [I(c) XOR iv] ends in a valid pad and with [(0, nil)] when it does not,
    and in no case with an error. *)
Theorem testOracle_answers (aes : BlockCipher) (key : string) (k iv c : list Z) :
  hex.DecodeString key = (k, None) → NewCipher aes k = None →
  is_block iv → is_block c → is_block (BlockDecrypt aes k c) →
  (valid_pad (crypto.BlockXOR (BlockDecrypt aes k c) iv) →
     testOracle aes key (iv ++ c) = (1, None)) ∧
  (¬ valid_pad (crypto.BlockXOR (BlockDecrypt aes k c) iv) →
     testOracle aes key (iv ++ c) = (0, None)) ∧
  (testOracle aes key (iv ++ c)).2 = None.
Proof.
  intros Hkey Hcipher Hiv Hc Hd.
  destruct (testOracle_two_blocks aes key k Hkey Hcipher iv c Hiv Hc Hd) as [H1 H2].
  split_and!; [done|done|].
  unfold testOracle. cbv zeta.
  rewrite (CBCDecrypt_two_blocks aes key k Hkey Hcipher) by done.
  destruct (DecryptRemovePCKCS5Pad_err (crypto.BlockXOR (BlockDecrypt aes k c) iv)) as [E|E];
    rewrite E; [done|]. by rewrite decide_True.
Qed.

Lemma testOracle_answers_witness :
  (valid_pad (crypto.BlockXOR (BlockDecrypt aes.cipher test_key_bytes hello_c1) hello_c0) →
     test_oracle (hello_c0 ++ hello_c1) = (1, None)) ∧
  (¬ valid_pad (crypto.BlockXOR (BlockDecrypt aes.cipher test_key_bytes hello_c1) hello_c0) →
     test_oracle (hello_c0 ++ hello_c1) = (0, None)) ∧
  (test_oracle (hello_c0 ++ hello_c1)).2 = None.
Proof.
  apply (testOracle_answers aes.cipher test_key test_key_bytes hello_c0 hello_c1).
  - by_compute.
  - by_compute.
  - decide_compute.
  - decide_compute.
  - decide_compute.
Defined.

(** X17: with a key that does not decode, or that the cipher refuses, the
    oracle of the tests answers every query of bytes with that error, and
    [Decrypt] on a well-formed ciphertext of bytes and [Encrypt] on any text
    return it with an empty result. *)
Theorem testOracle_key_error (aes : BlockCipher) (key : string) (k : list Z) (e : error)
    (sched : schedule) (c txt : list Z) :
  hex.DecodeString key = (k, Some e) ∨
    (hex.DecodeString key = (k, None) ∧ NewCipher aes k = Some e) →
  e ≠ ErrInvalidPad →
  (∀ x, Forall is_byte x → testOracle aes key x = (0, Some e)) ∧
  (¬ malformed c → Forall is_byte c →
     ret (Decrypt sched c (testOracle aes key)) = [] ∧
     err (Decrypt sched c (testOracle aes key)) = Some e) ∧
  ret (Encrypt sched txt (testOracle aes key)) = [] ∧
  err (Encrypt sched txt (testOracle aes key)) = Some e.
Proof.
  intros Hk He.
  assert (∀ x, Forall is_byte x → testOracle aes key x = (0, Some e)) as Hq.
  { intros x Hx. by apply testOracle_bad_key with k. }
  split; [exact Hq|].
  apply failing_oracle. intros x Hx. by rewrite Hq.
Qed.

Lemma testOracle_key_error_witness :
  (∀ x, Forall is_byte x →
     testOracle aes.cipher "zz" x = (0, Some (ErrHexInvalidByte "z"))) ∧
  (¬ malformed (make 32) → Forall is_byte (make 32) →
     ret (Decrypt sequential (make 32) (testOracle aes.cipher "zz")) = [] ∧
     err (Decrypt sequential (make 32) (testOracle aes.cipher "zz")) =
       Some (ErrHexInvalidByte "z")) ∧
  ret (Encrypt sequential msg_hello (testOracle aes.cipher "zz")) = [] ∧
  err (Encrypt sequential msg_hello (testOracle aes.cipher "zz")) =
    Some (ErrHexInvalidByte "z").
Proof.
  apply (testOracle_key_error aes.cipher "zz" [] (ErrHexInvalidByte "z") sequential
           (make 32) msg_hello).
  - left. reflexivity.
  - discriminate.
Defined.

(** ** The attack under the oracle of the tests *)

Section RightmostOk.
Context (aes : BlockCipher) (key : string) (k : list Z).
Hypothesis Hkey : hex.DecodeString key = (k, None).
Hypothesis Hcipher : NewCipher aes k = None.

Lemma decryptBlock_ok (sched : block_schedule) (prev current : list Z) :
  is_block prev → is_block current → is_block (BlockDecrypt aes k current) →
  rightmost_ok (crypto.BlockXOR (BlockDecrypt aes k current) prev) →
  err (decryptBlock sched prev current (testOracle aes key)) = None ∧
  ret (decryptBlock sched prev current (testOracle aes key)) =
    crypto.BlockXOR (BlockDecrypt aes k current) prev.
Proof.
  intros Hprev Hcurrent Hinter Hok.
  apply (decryptBlock_sound aes key k Hkey Hcipher prev current Hprev Hcurrent Hinter).
  by apply answers_rightmost.
Qed.

Lemma CBCDecrypt_raw (d : list Z) :
  Forall is_byte d →
  crypto.CBCDecrypt aes key (hex.EncodeToString d) =
  crypto.DecryptRemovePCKCS5Pad (cbc_raw aes k d).
Proof.
  intros Hd. unfold crypto.CBCDecrypt.
  rewrite DecodeString_EncodeToString by done. rewrite Hkey, Hcipher. done.
Qed.

End RightmostOk.

(** X18: for the oracle of the tests, when the plaintext
    [I(current) XOR prev] of the block does not end in [01] and its byte 14
    is not in [2, 16] or equals its byte 15, the engine returns this
    plaintext and no error, under every schedule. *)
Theorem decryptBlock_plaintext (aes : BlockCipher) (key : string)
    (k prev current : list Z) (sched : block_schedule) :
  hex.DecodeString key = (k, None) → NewCipher aes k = None →
  is_block prev → is_block current → is_block (BlockDecrypt aes k current) →
  rightmost_ok (crypto.BlockXOR (BlockDecrypt aes k current) prev) →
  err (decryptBlock sched prev current (testOracle aes key)) = None ∧
  ret (decryptBlock sched prev current (testOracle aes key)) =
    crypto.BlockXOR (BlockDecrypt aes k current) prev.
Proof. intros. by apply decryptBlock_ok. Qed.

Lemma decryptBlock_plaintext_witness :
  err (decryptBlock (in_reverse 1%nat) hello_c0 hello_c1 test_oracle) = None ∧
  ret (decryptBlock (in_reverse 1%nat) hello_c0 hello_c1 test_oracle) =
    crypto.BlockXOR (BlockDecrypt aes.cipher test_key_bytes hello_c1) hello_c0.
Proof.
  apply (decryptBlock_plaintext aes.cipher test_key test_key_bytes hello_c0 hello_c1
           (in_reverse 1%nat)).
  - by_compute.
  - by_compute.
  - decide_compute.
  - decide_compute.
  - decide_compute.
  - decide_compute.
Defined.

(** ** [Decrypt] and [CBCDecrypt] *)

Lemma slice_shift (c : list Z) (j : nat) :
  slice (slice c 16 (length c)) (j * 16) (16 * j + 16) =
  slice c (CipherBlockLen * S j) (CipherBlockLen * S j + CipherBlockLen).
Proof.
  unfold slice, CipherBlockLen. rewrite (take_ge (drop 16 c)) by (rewrite length_drop; lia).
  rewrite drop_drop. f_equal; [lia|]. f_equal. lia.
Qed.

Lemma slice_prev (c : list Z) (j : nat) :
  slice c ((S j - 1) * CipherBlockLen) (CipherBlockLen * (S j - 1) + CipherBlockLen) =
  slice c (CipherBlockLen * j) (CipherBlockLen * j + CipherBlockLen).
Proof. unfold slice, CipherBlockLen. f_equal; [lia|]. f_equal. lia. Qed.

Lemma is_block_slice' (c : list Z) (a b : nat) :
  Forall is_byte c → (b ≤ length c)%nat → (b = a + 16)%nat → is_block (slice c a b).
Proof.
  intros Hc Hb ->. unfold slice. split.
  - rewrite length_take, length_drop. unfold CipherBlockLen. lia.
  - apply Forall_take, Forall_drop, Hc.
Qed.

Section DecryptCBC.
Context (aes : BlockCipher) (key : string) (k : list Z).
Hypothesis Hkey : hex.DecodeString key = (k, None).
Hypothesis Hcipher : NewCipher aes k = None.
Context (sched : schedule) (c : list Z).
Hypothesis Hc : Forall is_byte c.

#[local] Abbreviation q := (testOracle aes key).

Lemma Decrypt_loop_CBC (n j : nat) (m : list Z) :
  (16 * (S j + n) ≤ length c)%nat →
  Forall (λ i, is_block (BlockDecrypt aes k (block_pair c i).2) ∧
               rightmost_ok (crypto.BlockXOR (BlockDecrypt aes k (block_pair c i).2)
                               (block_pair c i).1)) (seq (S j) n) →
  err (Decrypt_loop (seq (S j) n) sched c q m) = None ∧
  ret (Decrypt_loop (seq (S j) n) sched c q m) =
    crypto.CBCDecrypt_loop aes (seq j n) k (slice c 16 (length c))
      (slice c (CipherBlockLen * j) (CipherBlockLen * j + CipherBlockLen)) m.
Proof.
  revert j m. induction n as [|n IH]; intros j m Hlen Hok.
  { cbn [seq]. rewrite Decrypt_loop_nil. by run_simpl. }
  cbn [seq] in Hok |- *. apply Forall_cons in Hok as [[Hi Hr] Hok].
  unfold block_pair in Hi, Hr. cbn [fst snd] in Hi, Hr. rewrite slice_prev in Hr.
  rewrite Decrypt_loop_cons. cbv zeta. rewrite slice_prev.
  destruct (decryptBlock_ok aes key k Hkey Hcipher (sched (S j))
              (slice c (CipherBlockLen * j) (CipherBlockLen * j + CipherBlockLen))
              (slice c (CipherBlockLen * S j) (CipherBlockLen * S j + CipherBlockLen)))
    as [He Hret]; [apply is_block_slice'; (done || unfold CipherBlockLen; lia)..|done|done|].
  rewrite He. run_simpl. rewrite Hret.
  cbn [crypto.CBCDecrypt_loop]. cbv zeta. rewrite slice_shift.
  apply IH; [lia|done].
Qed.

End DecryptCBC.

(** X19: for the oracle of the tests, on a well-formed ciphertext of bytes
    in which the plaintext of every block is [rightmost_ok], [Decrypt]
    returns no error and the bytes that [CBCDecrypt] computes before it
    removes the pad, under every schedule: the result of [CBCDecrypt] on the
    ciphertext is that of [DecryptRemovePCKCS5Pad] on the result of
    [Decrypt]. *)
Theorem Decrypt_recovers_CBC (aes : BlockCipher) (key : string) (k c : list Z)
    (sched : schedule) :
  hex.DecodeString key = (k, None) → NewCipher aes k = None →
  ¬ malformed c → Forall is_byte c → attackable aes k c →
  err (Decrypt sched c (testOracle aes key)) = None ∧
  ret (Decrypt sched c (testOracle aes key)) = cbc_raw aes k c ∧
  crypto.CBCDecrypt aes key (hex.EncodeToString c) =
    crypto.DecryptRemovePCKCS5Pad (ret (Decrypt sched c (testOracle aes key))).
Proof.
  intros Hkey Hcipher Hm Hc Hok.
  assert (err (Decrypt sched c (testOracle aes key)) = None ∧
          ret (Decrypt sched c (testOracle aes key)) = cbc_raw aes k c) as [He Hr].
  { unfold malformed, CipherBlockLen in Hm. unfold attackable in Hok.
    unfold Decrypt, cbc_raw. cbv zeta.
    pose proof (Nat.div_mod_eq (length c) 16) as Hd.
    pose proof (Nat.mod_upper_bound (length c) 16) as Hu.
    rewrite decide_False by (unfold CipherBlockLen; lia).
    rewrite decide_False by (unfold CipherBlockLen; intros H; apply Hm; by right).
    assert (length (slice c 16 (length c)) / 16 = length c / CipherBlockLen - 1)%nat as ->.
    { unfold slice, CipherBlockLen. rewrite length_take, length_drop.
      replace ((length c - 16) `min` (length c - 16))%nat with (length c - 16)%nat by lia.
      apply (Nat.mul_cancel_l _ _ 16); [lia|].
      pose proof (Nat.div_mod_eq (length c - 16) 16) as Hd'.
      assert ((length c - 16) mod 16 = 0)%nat as Hz; [|lia].
      replace (length c - 16)%nat with ((length c / 16 - 1) * 16)%nat by lia.
      apply Nat.Div0.mod_mul. }
    apply (Decrypt_loop_CBC aes key k Hkey Hcipher sched c Hc
             (length c / CipherBlockLen - 1) 0 []); [|done].
    unfold CipherBlockLen. lia. }
  split_and!; [done|done|]. rewrite Hr. by apply CBCDecrypt_raw.
Qed.

Lemma Decrypt_recovers_CBC_witness :
  err (Decrypt in_order hello_ct test_oracle) = None ∧
  ret (Decrypt in_order hello_ct test_oracle) = cbc_raw aes.cipher test_key_bytes hello_ct ∧
  crypto.CBCDecrypt aes.cipher test_key (hex.EncodeToString hello_ct) =
    crypto.DecryptRemovePCKCS5Pad (ret (Decrypt in_order hello_ct test_oracle)).
Proof.
  apply (Decrypt_recovers_CBC aes.cipher test_key test_key_bytes hello_ct in_order).
  - by_compute.
  - by_compute.
  - vm_compute. intros [H|H]; [lia|by apply H].
  - decide_compute.
  - decide_compute.
Defined.

(** ** [Decrypt] after [CBCEncrypt] *)

Lemma block_pair_at (pre a b rest : list Z) (j : nat) :
  length pre = (16 * j)%nat → length a = 16%nat → length b = 16%nat →
  slice (pre ++ a ++ b ++ rest) ((S j - 1) * CipherBlockLen)
    (CipherBlockLen * (S j - 1) + CipherBlockLen) = a ∧
  slice (pre ++ a ++ b ++ rest) (CipherBlockLen * S j)
    (CipherBlockLen * S j + CipherBlockLen) = b.
Proof.
  intros Hpre Ha Hb. unfold slice, CipherBlockLen. split.
  - rewrite drop_app_length' by lia.
    replace (16 * (S j - 1) + 16 - (S j - 1) * 16)%nat with 16%nat by lia.
    by apply take_app_length'.
  - rewrite (app_assoc pre a). rewrite drop_app_length' by (rewrite length_app; lia).
    replace (16 * S j + 16 - 16 * S j)%nat with 16%nat by lia.
    by apply take_app_length'.
Qed.

Section AttackCBC.
Context (aes : BlockCipher) (key : string) (k : list Z).
Hypothesis Hkey : hex.DecodeString key = (k, None).
Hypothesis Hcipher : NewCipher aes k = None.
Hypothesis Hinv : ∀ b, is_block b →
  is_block (BlockEncrypt aes k b) ∧ BlockDecrypt aes k (BlockEncrypt aes k b) = b.
Context (sched : schedule).

#[local] Abbreviation q := (testOracle aes key).

Lemma CBC_attack_loops (n j : nat) (m prev ct pre acc : list Z) :
  Forall is_byte m → is_block prev → length pre = (16 * j)%nat →
  (16 * (j + n) ≤ length m)%nat →
  Forall (λ i, rightmost_ok (slice m (i * 16) (i * 16 + 16))) (seq j n) →
  ∃ xs, crypto.CBCEncrypt_loop aes (seq j n) k m prev ct = ct ++ xs ∧
        length xs = (16 * n)%nat ∧ Forall is_byte xs ∧
        ∀ suf,
          err (Decrypt_loop (seq (S j) n) sched (pre ++ prev ++ xs ++ suf) q acc) = None ∧
          ret (Decrypt_loop (seq (S j) n) sched (pre ++ prev ++ xs ++ suf) q acc) =
            acc ++ take (16 * n) (drop (16 * j) m).
Proof.
  intros Hm. revert j prev ct pre acc.
  induction n as [|n IH]; intros j prev ct pre acc Hprev Hpre Hj Hok.
  { exists []. split_and!; [by rewrite app_nil_r|done|done|].
    intros suf. cbn [seq]. rewrite Decrypt_loop_nil. run_simpl.
    by rewrite Nat.mul_0_r, take_0, app_nil_r. }
  cbn [seq] in Hok. apply Forall_cons in Hok as [Hr Hok].
  cbn [seq crypto.CBCEncrypt_loop]. cbv zeta.
  assert (is_block (slice m (j * 16) (j * 16 + 16))) as Hb
    by (apply is_block_slice; [done|lia]).
  assert (is_block (crypto.BlockXOR (slice m (j * 16) (j * 16 + 16)) prev)) as Hbx
    by (by apply is_block_BlockXOR).
  destruct (Hinv _ Hbx) as [Hx Hdx].
  pose proof Hx as [Hlx _]. pose proof Hprev as [Hlp _]. unfold CipherBlockLen in Hlx, Hlp.
  destruct (IH (S j) _ (ct ++ BlockEncrypt aes k
              (crypto.BlockXOR (slice m (j * 16) (j * 16 + 16)) prev))
              (pre ++ prev) (acc ++ slice m (j * 16) (j * 16 + 16)) Hx)
    as (xs & -> & Hl & Hbs & Hdec); [rewrite length_app; lia|lia|done|].
  exists (BlockEncrypt aes k (crypto.BlockXOR (slice m (j * 16) (j * 16 + 16)) prev) ++ xs).
  split_and!.
  - by rewrite <- app_assoc.
  - rewrite length_app, Hl. lia.
  - apply Forall_app. split; [apply Hx|done].
  - intros suf. rewrite Decrypt_loop_cons. cbv zeta.
    rewrite <- (app_assoc _ xs suf).
    destruct (block_pair_at pre prev
                (BlockEncrypt aes k (crypto.BlockXOR (slice m (j * 16) (j * 16 + 16)) prev))
                (xs ++ suf) j Hpre Hlp Hlx) as [-> ->].
    destruct (decryptBlock_ok aes key k Hkey Hcipher (sched (S j)) prev
                (BlockEncrypt aes k (crypto.BlockXOR (slice m (j * 16) (j * 16 + 16)) prev)))
      as [He Hret]; [done|done|by rewrite Hdx|by rewrite Hdx, BlockXOR_twice|].
    rewrite He. run_simpl. rewrite Hret, Hdx, BlockXOR_twice.
    specialize (Hdec suf). rewrite <- (app_assoc pre prev) in Hdec.
    destruct Hdec as [-> ->]. split; [done|].
    rewrite <- app_assoc. f_equal.
    unfold slice. replace (j * 16 + 16 - j * 16)%nat with 16%nat by lia.
    replace (16 * S j)%nat with (j * 16 + 16)%nat by lia.
    replace (16 * j)%nat with (j * 16)%nat by lia.
    rewrite <- drop_drop. replace (16 * S n)%nat with (16 + 16 * n)%nat by lia.
    by rewrite take_take_drop.
Qed.

End AttackCBC.

(** X20: for a key and an IV that decode, an IV of one block, a block
    cipher that accepts the key and whose decryption undoes its encryption
    on blocks, and a text of bytes whose padded blocks are all
    [rightmost_ok], [Decrypt] on the decoded result of [CBCEncrypt], with
    the oracle of the tests, returns the padded text and no error, under
    every schedule, and [RemovePCKCS5Pad] gives the text back from it. *)
Theorem Decrypt_CBCEncrypt (aes : BlockCipher) (hiv key : string) (iv k msg : list Z)
    (sched : schedule) :
  hex.DecodeString key = (k, None) → NewCipher aes k = None →
  hex.DecodeString hiv = (iv, None) → is_block iv → Forall is_byte msg →
  (∀ b, is_block b →
     is_block (BlockEncrypt aes k b) ∧ BlockDecrypt aes k (BlockEncrypt aes k b) = b) →
  blocks_ok (crypto.PCKCS5Pad msg) →
  let c := (hex.DecodeString (crypto.CBCEncrypt aes hiv key msg).1).1 in
  err (Decrypt sched c (testOracle aes key)) = None ∧
  ret (Decrypt sched c (testOracle aes key)) = crypto.PCKCS5Pad msg ∧
  crypto.RemovePCKCS5Pad (ret (Decrypt sched c (testOracle aes key))) = (msg, None).
Proof.
  intros Hkey Hcipher Hhiv Hiv Hmsg Hinv Hok.
  destruct (PCKCS5Pad_blocks msg Hmsg) as [Hpb Hpl].
  destruct (PCKCS5Pad_shape msg) as (_ & Hr & Hmod). cbv zeta in Hr.
  destruct (CBC_attack_loops aes key k Hkey Hcipher Hinv sched
              (length (crypto.PCKCS5Pad msg) / 16) 0 (crypto.PCKCS5Pad msg) iv iv [] []
              Hpb Hiv) as (xs & Henc & Hl & Hb & Hdec); [done|lia|exact Hok|].
  specialize (Hdec []). rewrite app_nil_r in Hdec. cbn [app] in Hdec.
  rewrite drop_0, Hpl, take_ge in Hdec by lia.
  unfold crypto.CBCEncrypt. rewrite Hkey, Hcipher, Hhiv. cbv zeta. cbn [fst].
  rewrite Henc.
  rewrite DecodeString_EncodeToString by (apply Forall_app; split; [apply Hiv|done]).
  cbn [fst].
  assert (err (Decrypt sched (iv ++ xs) (testOracle aes key)) = None ∧
          ret (Decrypt sched (iv ++ xs) (testOracle aes key)) = crypto.PCKCS5Pad msg)
    as [He Hret].
  { destruct Hiv as [Hliv _]. unfold CipherBlockLen in Hliv.
    assert (length (iv ++ xs) = (16 * (length (crypto.PCKCS5Pad msg) / 16 + 1))%nat) as Hlen
      by (rewrite length_app; lia).
    unfold Decrypt. cbv zeta. rewrite Hlen. unfold CipherBlockLen.
    rewrite (Nat.mul_comm 16), Nat.div_mul, Nat.Div0.mod_mul by lia.
    rewrite decide_False by lia. rewrite decide_False by (intros H; by apply H).
    replace (length (crypto.PCKCS5Pad msg) / 16 + 1 - 1)%nat
      with (length (crypto.PCKCS5Pad msg) / 16)%nat by lia.
    exact Hdec. }
  split_and!; [done|done|]. rewrite Hret. apply PCKCS5Pad_removed.
Qed.

Lemma Decrypt_CBCEncrypt_witness :
  err (Decrypt in_reverse
         (hex.DecodeString (crypto.CBCEncrypt xor_cipher test_iv test_key msg_encrypt).1).1
         (testOracle xor_cipher test_key)) = None ∧
  ret (Decrypt in_reverse
         (hex.DecodeString (crypto.CBCEncrypt xor_cipher test_iv test_key msg_encrypt).1).1
         (testOracle xor_cipher test_key)) = crypto.PCKCS5Pad msg_encrypt ∧
  crypto.RemovePCKCS5Pad
    (ret (Decrypt in_reverse
            (hex.DecodeString (crypto.CBCEncrypt xor_cipher test_iv test_key msg_encrypt).1).1
            (testOracle xor_cipher test_key))) = (msg_encrypt, None).
Proof.
  apply (Decrypt_CBCEncrypt xor_cipher test_iv test_key test_iv_bytes test_key_bytes
           msg_encrypt in_reverse).
  - reflexivity.
  - reflexivity.
  - reflexivity.
  - decide_compute.
  - decide_compute.
  - apply xor_cipher_inverse. decide_compute.
  - decide_compute.
Defined.

(** ** [Encrypt] *)

Lemma BlockXOR_zero (a : list Z) : crypto.BlockXOR a (make CipherBlockLen) = a.
Proof.
  apply list_eq. intros i. unfold crypto.BlockXOR. rewrite list_lookup_imap.
  destruct (a !! i) as [x|]; [|done]. cbn [fmap option_fmap option_map]. f_equal.
  unfold make, CipherBlockLen. rewrite length_replicate.
  rewrite lookup_total_replicate_2 by (apply Nat.mod_upper_bound; lia).
  apply Z.lxor_0_r.
Qed.

Lemma BlockXOR_cancel (a b : list Z) :
  length a = 16%nat → length b = 16%nat →
  crypto.BlockXOR a (crypto.BlockXOR b a) = b.
Proof.
  intros Ha Hb. apply list_eq_same_length with 16%nat; [done|by rewrite BlockXOR_length|].
  intros i x y Hi Hx Hy. apply list_lookup_total_correct in Hx, Hy. subst x y.
  rewrite !BlockXOR_lookup by (rewrite ?BlockXOR_length; lia). xor_bits.
Qed.

Section Raw.
Context (aes : BlockCipher) (k : list Z).

Lemma CBCDecrypt_loop_acc blocks c prev acc a :
  crypto.CBCDecrypt_loop aes blocks k c prev (acc ++ a) =
  acc ++ crypto.CBCDecrypt_loop aes blocks k c prev a.
Proof.
  revert prev a. induction blocks as [|i blocks IH]; intros prev a; [done|].
  cbn [crypto.CBCDecrypt_loop]. cbv zeta. rewrite <- app_assoc. apply IH.
Qed.

Lemma CBCDecrypt_loop_shift n j c prev acc :
  crypto.CBCDecrypt_loop aes (seq (S j) n) k c prev acc =
  crypto.CBCDecrypt_loop aes (seq j n) k (slice c 16 (length c)) prev acc.
Proof.
  revert j prev acc. induction n as [|n IH]; intros j prev acc; [done|].
  cbn [seq crypto.CBCDecrypt_loop]. cbv zeta.
  assert (slice (slice c 16 (length c)) (j * 16) (16 * j + 16) =
          slice c (S j * 16) (16 * S j + 16)) as ->.
  { unfold slice. rewrite (take_ge (drop 16 c)) by (rewrite length_drop; lia).
    rewrite drop_drop. replace (S j * 16)%nat with (16 + j * 16)%nat by lia.
    f_equal. lia. }
  apply IH.
Qed.

Lemma cbc_raw_cons (b c : list Z) :
  length b = 16%nat → (16 ≤ length c)%nat →
  cbc_raw aes k (b ++ c) = crypto.BlockXOR (BlockDecrypt aes k (take 16 c)) b ++ cbc_raw aes k c.
Proof.
  intros Hb Hc. unfold cbc_raw. cbv zeta.
  rewrite slice_app_l, slice_app_r by done.
  assert (length (slice c 16 (length c)) = (length c - 16)%nat) as Hl.
  { unfold slice. rewrite length_take, length_drop. lia. }
  rewrite Hl.
  assert (length c / 16 = S ((length c - 16) / 16))%nat as ->.
  { replace (length c) with (1 * 16 + (length c - 16))%nat at 1 by lia.
    rewrite Nat.div_add_l by lia. lia. }
  cbn [seq crypto.CBCDecrypt_loop]. cbv zeta. cbn [app].
  unfold slice at 1 2. cbn [Nat.mul Nat.add Nat.sub]. rewrite drop_0.
  rewrite CBCDecrypt_loop_shift.
  rewrite <- (app_nil_r (crypto.BlockXOR _ b)) at 1.
  rewrite CBCDecrypt_loop_acc. f_equal.
Qed.

Lemma cbc_raw_block (b : list Z) : length b = 16%nat → cbc_raw aes k b = [].
Proof.
  intros Hb. unfold cbc_raw, slice. cbv zeta.
  rewrite length_take, length_drop, Hb. done.
Qed.

End Raw.

Section Forge.
Context (aes : BlockCipher) (key : string) (k : list Z).
Hypothesis Hkey : hex.DecodeString key = (k, None).
Hypothesis Hcipher : NewCipher aes k = None.
Context (sched : schedule) (ctext : list Z).
Hypothesis Hctext : Forall is_byte ctext.

#[local] Abbreviation q := (testOracle aes key).

Lemma Encrypt_loop_forges (n : nat) (c1 rest : list Z) :
  (16 * n ≤ length ctext)%nat → is_block c1 → Forall is_byte rest →
  forge_ok aes k n ctext c1 →
  let r := Encrypt_loop n sched ctext q (make CipherBlockLen) c1 (c1 ++ rest) in
  err r = None ∧ Forall is_byte (ret r) ∧
  cbc_raw aes k (ret r) = take (16 * n) ctext ++ cbc_raw aes k (c1 ++ rest).
Proof.
  revert c1 rest. induction n as [|i IH]; intros c1 rest Hn Hc1 Hrest Hok; cbv zeta.
  { rewrite Encrypt_loop_O. run_simpl. split_and!; [done| |done].
    apply Forall_app. split; [apply Hc1|done]. }
  cbn [forge_ok] in Hok. destruct Hok as (Hi & Hr & Hok).
  destruct (decryptBlock_ok aes key k Hkey Hcipher (sched i) (make CipherBlockLen) c1)
    as [He Hret]; [apply is_block_make|done|done|done|].
  rewrite (Encrypt_loop_next _ _ _ _ _ _ _ He). cbv zeta. run_simpl. rewrite Hret.
  assert (is_block (slice ctext (CipherBlockLen * i) (CipherBlockLen * i + CipherBlockLen)))
    as Hti by (apply is_block_slice'; (done || unfold CipherBlockLen; lia)).
  assert (is_block (crypto.BlockXOR
            (slice ctext (CipherBlockLen * i) (CipherBlockLen * i + CipherBlockLen))
            (crypto.BlockXOR (BlockDecrypt aes k c1) (make CipherBlockLen)))) as Hc1'.
  { apply is_block_BlockXOR; [done|]. by rewrite BlockXOR_zero. }
  destruct (IH _ (c1 ++ rest) ltac:(lia) Hc1'
              ltac:(apply Forall_app; split; [apply Hc1|done]) Hok) as (-> & Hb & Hraw).
  split_and!; [done|done|]. rewrite Hraw.
  assert (length c1 = 16%nat) as Hl1 by apply Hc1.
  assert (length (BlockDecrypt aes k c1) = 16%nat) as Hli by apply Hi.
  rewrite (cbc_raw_cons aes k _ (c1 ++ rest)) by (apply Hc1' || (rewrite length_app; lia)).
  rewrite take_app_length' by done.
  rewrite BlockXOR_zero, BlockXOR_cancel by (done || apply Hti).
  rewrite app_assoc. f_equal.
  unfold slice, CipherBlockLen. replace (16 * i + 16 - 16 * i)%nat with 16%nat by lia.
  replace (16 * S i)%nat with (16 * i + 16)%nat by lia.
  by rewrite take_take_drop.
Qed.

End Forge.

(** X21: for the oracle of the tests and a text of bytes, when the
    intermediate block of every block the attack goes through is
    [rightmost_ok], [Encrypt] returns without error, under every schedule, a
    ciphertext from which [CBCDecrypt], under the key of the oracle, returns
    the text. *)
Theorem Encrypt_forges (aes : BlockCipher) (key : string) (k txt : list Z)
    (sched : schedule) :
  hex.DecodeString key = (k, None) → NewCipher aes k = None → Forall is_byte txt →
  forge_ok aes k (length (crypto.PCKCS5Pad txt) / CipherBlockLen) (crypto.PCKCS5Pad txt)
    (make CipherBlockLen) →
  err (Encrypt sched txt (testOracle aes key)) = None ∧
  crypto.CBCDecrypt aes key
    (hex.EncodeToString (ret (Encrypt sched txt (testOracle aes key)))) = (txt, None).
Proof.
  intros Hkey Hcipher Htxt Hok.
  destruct (PCKCS5Pad_blocks txt Htxt) as [Hpb Hpl].
  rewrite Encrypt_unfold.
  destruct (Encrypt_loop_forges aes key k Hkey Hcipher sched (crypto.PCKCS5Pad txt) Hpb
              (length (crypto.PCKCS5Pad txt) / CipherBlockLen) (make CipherBlockLen) [])
    as (He & Hb & Hraw); [unfold CipherBlockLen; lia|apply is_block_make|done|done|].
  rewrite app_nil_r in He, Hb, Hraw.
  split; [done|].
  rewrite (CBCDecrypt_raw aes key k Hkey Hcipher) by done.
  rewrite Hraw, cbc_raw_block, app_nil_r by (apply length_replicate).
  unfold CipherBlockLen. rewrite Hpl, take_ge by lia.
  apply PCKCS5Pad_removed.
Qed.

Lemma Encrypt_forges_witness :
  err (Encrypt in_order msg_hello test_oracle) = None ∧
  crypto.CBCDecrypt aes.cipher test_key
    (hex.EncodeToString (ret (Encrypt in_order msg_hello test_oracle))) = (msg_hello, None).
Proof.
  apply (Encrypt_forges aes.cipher test_key test_key_bytes msg_hello in_order).
  - by_compute.
  - by_compute.
  - decide_compute.
  - decide_compute.
Defined.

(** ** The pad [01] *)

(** X22: for the oracle of the tests, when the plaintext
    [I(current) XOR prev] of the block ends in [01] and its byte 14 is not
    in [2, 16], the engine returns nil and the error for a byte not found,
    under every schedule: such a block is not [rightmost_ok]. *)
Theorem decryptBlock_pad1_fails (aes : BlockCipher) (key : string)
    (k prev current : list Z) (sched : block_schedule) :
  hex.DecodeString key = (k, None) → NewCipher aes k = None →
  is_block prev → is_block current → is_block (BlockDecrypt aes k current) →
  crypto.BlockXOR (BlockDecrypt aes k current) prev !!! 15%nat = 1 →
  ¬ (2 ≤ crypto.BlockXOR (BlockDecrypt aes k current) prev !!! 14%nat ≤ 16) →
  ret (decryptBlock sched prev current (testOracle aes key)) = [] ∧
  err (decryptBlock sched prev current (testOracle aes key)) = Some ErrNoByteFound ∧
  ¬ rightmost_ok (crypto.BlockXOR (BlockDecrypt aes k current) prev).
Proof.
  intros Hkey Hcipher Hprev Hcurrent Hinter H15 H14.
  assert (¬ rightmost_ok (crypto.BlockXOR (BlockDecrypt aes k current) prev)) as Hno
    by (by intros [? _]).
  pose proof Hinter as [HlI _]. pose proof Hprev as [Hlp _]. unfold CipherBlockLen in HlI, Hlp.
  rewrite BlockXOR_lookup in H15, H14 by lia.
  destruct (decryptBlock_rightmost_NoByteFound aes key k Hkey Hcipher prev current
              Hprev Hcurrent Hinter sched H15 H14) as [Hr He].
  done.
Qed.

Lemma decryptBlock_pad1_fails_witness :
  ret (decryptBlock (in_order 1%nat) pad1_c0 pad1_c1 test_oracle) = [] ∧
  err (decryptBlock (in_order 1%nat) pad1_c0 pad1_c1 test_oracle) = Some ErrNoByteFound ∧
  ¬ rightmost_ok (crypto.BlockXOR (BlockDecrypt aes.cipher test_key_bytes pad1_c1) pad1_c0).
Proof.
  apply (decryptBlock_pad1_fails aes.cipher test_key test_key_bytes pad1_c0 pad1_c1
           (in_order 1%nat)).
  - by_compute.
  - by_compute.
  - decide_compute.
  - decide_compute.
  - decide_compute.
  - by_compute.
  - decide_compute.
Defined.
